(** * The syncthing wire protocol connection (protocol/protocol.go)

    A shallow embedding of [Connection] and of its methods.  Every method is
    a function on an explicit connection state, at two granularities.  An
    [Action] is a whole operation, run with no other goroutine in between: a
    call to [Index], the part of [Request] and [Ping] up to the point where
    the caller blocks on its reply channel, one iteration of [readerLoop],
    the body of the goroutine started by [processRequest], a turn of
    [pingerLoop], and [close]; [run] is a serial schedule of operations.  An
    [Atom] is a stretch the source itself runs without interruption: a
    locked section, a send, the close of a channel; [atoms_run] interleaves
    the goroutines section by section, and every run of operations is one of
    its interleavings.

    The transport is the environment: every step receives the outcome of the
    writes and of the flush it performs ([IO]) and what the reader decodes
    next ([Inbound]); the clock is a number of nanoseconds handed to the
    steps that read it.  Channels live in a store ([chans]); a channel value
    is its index there.  Go's run-time panics (a write to a nil map, closing
    a closed channel, sending on a closed channel) are results of type
    [Fault]. *)

From Stdlib Require Import ZArith List Lia Bool.
From Stdlib.Strings Require Import Byte.
From stdpp Require Import base option list gmap strings fin_maps.

(** * The integration harness (src/test/syncthingprocess.go)

    The process, its log file and the REST endpoint are the environment:
    what they hand to the Go code is an argument of the function that
    embeds it. *)
Module integration.

Local Open Scope Z_scope.

(** The errors the harness returns, with the arguments of their format
    strings. *)
Inductive error :=
| errors_New (msg : string)
    (** [errors.New(msg)] *)
| Errorf_at (id : string) (val : Z)
    (** [fmt.Errorf("%.7s at %d%%", id, val)] *)
| Errorf_device (id : string) (err : error)
    (** [fmt.Errorf("%.7s: %v", id, err)] *)
| ErrEnv (msg : string).
    (** an error of the operating system, the HTTP client or the decoder *)

(** ** [stop]: the scan of the log *)

Definition raceConditionStart : string := "WARNING: DATA RACE".
Definition raceConditionSep : string := "==================".

(** [bytes.Contains(b, subslice)] *)
Definition Contains (b subslice : string) : bool :=
  match String.index 0 subslice b with
  | Some _ => true
  | None => false
  end.

(** The variables of the loop of [stop], and what it has printed. *)
Record scan := mkScan {
  race : bool;
  err : option error;
  printed : list string
}.

(** The body of [for sc.Scan()], on the line [sc.Bytes()]. *)
Definition stop_line (s : scan) (line : string) : scan :=
  if race s then
    {| race := if Contains line raceConditionSep then false else race s;
       err := err s;
       printed := printed s ++ [line] |}
  else if Contains line raceConditionStart then
    {| race := true;
       err := match err s with
              | None => Some (errors_New "Race condition detected")
              | Some e => Some e
              end;
       printed := printed s ++ [raceConditionSep; raceConditionStart] |}
  else s.

(** [stop], after the process was killed and waited for: [open] is the error
    of [os.Open] on the log, [lines] the lines the scanner yields. *)
Definition stop (open : option error) (lines : list string) : option error * list string :=
  match open with
  | Some e => (Some e, [])
  | None =>
      let s := fold_left stop_line lines {| race := false; err := None; printed := [] |} in
      (err s, printed s)
  end.

(** ** [peerCompletion], [allPeersInSync] and [allDevicesInSync] *)

(** The answer to [GET /rest/debug/peerCompletion]: the error of [get], or
    the map the decoder filled and the decoder's error. *)
Definition completion_answer : Type := error + (gmap string Z * option error).

(** [peerCompletion] of the process with identifier [self]; a nil map is the
    empty map. *)
Definition peerCompletion (self : string) (resp : completion_answer)
  : gmap string Z * option error :=
  match resp with
  | inl e => (∅, Some e)
  | inr (comp, e) => (filter (fun kv => kv.1 <> self) comp, e)
  end.

(** The loop of [allPeersInSync] over the entries in the order [range]
    yields them. *)
Fixpoint check_peers (entries : list (string * Z)) : option error :=
  match entries with
  | [] => None
  | (id, val) :: entries =>
      if val =? 100 then check_peers entries else Some (Errorf_at id val)
  end.

(** [allPeersInSync]; [range] is the order in which Go iterates over a
    map. *)
Definition allPeersInSync (range : gmap string Z -> list (string * Z)) (self : string)
    (resp : completion_answer) : option error :=
  match peerCompletion self resp with
  | (_, Some e) => Some e
  | (comp, None) => check_peers (range comp)
  end.

(** A process of the harness: its device identifier as a string, and the
    answer it gives when asked for the completion of its peers. *)
Record syncthingProcess := mkProcess {
  id : string;
  answer : completion_answer
}.

(** [allDevicesInSync] *)
Fixpoint allDevicesInSync (range : gmap string Z -> list (string * Z))
    (p : list syncthingProcess) : option error :=
  match p with
  | [] => None
  | device :: p =>
      match allPeersInSync range (id device) (answer device) with
      | Some e => Some (Errorf_device (id device) e)
      | None => allDevicesInSync range p
      end
  end.

(** An iteration order is any enumeration of the entries of the map. *)
Definition iteration_order (range : gmap string Z -> list (string * Z)) : Prop :=
  forall m, range m ≡ₚ map_to_list m.

(** Every peer of the map other than [self] is at 100 percent. *)
Definition peers_in_sync (self : string) (comp : gmap string Z) : Prop :=
  forall id val, comp !! id = Some val -> id <> self -> val = 100.

(** Some line of the log carries the marker of the race detector. *)
Definition has_race (lines : list string) : Prop :=
  Exists (fun line => Contains line raceConditionStart = true) lines.

End integration.

(** * The connection *)

Module protocol.

Local Open Scope Z_scope.

(** ** Machine integers *)

(** Go's [int] and [int64] on the 64-bit targets: two's complement. *)
Definition int64 (z : Z) : Z := (z + 2 ^ 63) mod 2 ^ 64 - 2 ^ 63.

Definition maxInt64 : Z := 2 ^ 63 - 1.
Definition minInt64 : Z := - 2 ^ 63.

(** ** Data model *)

Definition bytes := list Byte.byte.

Record BlockInfo := mkBlockInfo {
  Length : Z;
  Hash : bytes
}.

Record FileInfo := mkFileInfo {
  Name : string;
  Flags : Z;
  Modified : Z;
  Blocks : list BlockInfo
}.

Definition messageTypeIndex : Z := 1.
Definition messageTypeRequest : Z := 2.
Definition messageTypeResponse : Z := 3.
Definition messageTypePing : Z := 4.
Definition messageTypePong : Z := 5.
Definition messageTypeIndexUpdate : Z := 6.

Inductive error :=
| ErrClosed                    (* errors.New("Connection closed") *)
| ErrTransport                 (* an error of the underlying io.Writer or io.Reader *)
| ErrModel (msg : string).     (* an error returned by the receiver *)

Record asyncResult := mkAsyncResult {
  val : bytes;
  err : option error
}.

(** The duration constants, in nanoseconds as [time.Duration] counts them. *)
Definition Second : Z := 1000000000.
Definition Minute : Z := 60 * Second.
Definition pingTimeout : Z := 30 * Second.
Definition pingIdleTime : Z := 5 * Minute.

(** [time.Since(t)] at clock reading [now]: [Time.Sub] saturates at the
    bounds of [Duration]. *)
Definition Since (now t : Z) : Z :=
  Z.max minInt64 (Z.min maxInt64 (now - t)).

(** ** The codec (messages.go and marshal.go are not part of the sources) *)

Record header := mkHeader {
  version : Z;
  msgID : Z;
  msgType : Z
}.

Record request := mkRequest {
  name : string;
  offset : Z;
  size : Z;
  hash : bytes
}.

(** Modelled from the spec: [encodeHeader] is missing from the sources; the
    spec packs "version (4 bits) | msgID (12 bits) | msgType (8 bits) |
    reserved (8 bits)" into a 32-bit integer, reserved being zero on write. *)
Definition encodeHeader (h : header) : Z :=
  Z.lor (Z.lor (Z.shiftl (Z.land (version h) 0xf) 28)
               (Z.shiftl (Z.land (msgID h) 0xfff) 16))
        (Z.shiftl (Z.land (msgType h) 0xff) 8).

(** Modelled from the spec: [decodeHeader] is missing from the sources; it
    unpacks the same layout and ignores the reserved byte. *)
Definition decodeHeader (u : Z) : header :=
  {| version := Z.land (Z.shiftr u 28) 0xf;
     msgID := Z.land (Z.shiftr u 16) 0xfff;
     msgType := Z.land (Z.shiftr u 8) 0xff |}.

(** What the writer has accepted, in order.  A frame is a header word
    followed by the body its type asks for. *)
Inductive wire_item :=
| WUint32 (v : Z)
| WIndex (idx : list FileInfo)
| WRequest (r : request)
| WResponse (data : bytes).

Record marshalWriter := mkWriter {
  w_out : list wire_item;
  w_err : option error
}.

(** Modelled from the spec: the methods of [marshalWriter] are missing from
    the sources.  "On any I/O or decoding error it latches an error state;
    all subsequent reads/writes on that side become no-ops that preserve the
    latched error."  [ok] is the transport's answer to this write. *)
Definition w_put (ok : bool) (x : wire_item) (w : marshalWriter) : marshalWriter :=
  match w_err w with
  | Some _ => w
  | None =>
      if ok then {| w_out := w_out w ++ [x]; w_err := None |}
      else {| w_out := w_out w; w_err := Some ErrTransport |}
  end.

(** Modelled from the spec: [writeUint32] is missing from the sources; one
    big-endian 32-bit word. *)
Definition writeUint32 (ok : bool) (v : Z) := w_put ok (WUint32 v).

(** Modelled from the spec: [writeHeader] is missing from the sources; the
    header is the word [encodeHeader] packs. *)
Definition writeHeader (ok : bool) (h : header) := writeUint32 ok (encodeHeader h).

(** Modelled from the spec: [writeIndex] is missing from the sources; the
    body of an Index or IndexUpdate frame is the sequence of entries. *)
Definition writeIndex (ok : bool) (idx : list FileInfo) := w_put ok (WIndex idx).

(** Modelled from the spec: [writeRequest] is missing from the sources; the
    body of a Request frame. *)
Definition writeRequest (ok : bool) (r : request) := w_put ok (WRequest r).

(** Modelled from the spec: [writeResponse] is missing from the sources; the
    body of a Response frame is the data. *)
Definition writeResponse (ok : bool) (data : bytes) := w_put ok (WResponse data).

(** The transport's answers during one step: to the header write, to the
    body write and to the flush. *)
Record IO := mkIO {
  io_header : bool;
  io_body : bool;
  io_flush : bool
}.

Definition ioOK : IO := {| io_header := true; io_body := true; io_flush := true |}.

(** [e != nil] *)
Definition failed (e : option error) : bool :=
  match e with
  | Some _ => true
  | None => false
  end.

(** [c.flush()]: the error of the writer's [Flush], if any. *)
Definition flush (io : IO) : option error :=
  if io_flush io then None else Some ErrTransport.

(** What the reader decodes next: the header word and, for the body the
    header asks for, the decoded value; [None] is a read or decoding error. *)
Record Inbound := mkInbound {
  in_header : option Z;
  in_index : option (list FileInfo);
  in_request : option request;
  in_response : option bytes
}.

(** ** Channels *)

(** An unbuffered [chan asyncResult] with its single receiver: the value the
    receiver was handed, and whether the channel was closed. *)
Record chanState := mkChan {
  ch_val : option asyncResult;
  ch_closed : bool
}.

Definition new_chan : chanState := {| ch_val := None; ch_closed := false |}.

Inductive Fault :=
| PanicNilMap          (* assignment to entry in nil map *)
| PanicCloseClosed     (* close of closed channel *)
| PanicSendClosed      (* send on closed channel *)
| SendBlocked          (* a send that no receiver will ever take *)
| BadChannel.          (* a channel that was never made *)

Inductive result (A : Type) :=
| Ok (a : A)
| Failed (f : Fault).
Arguments Ok {A} a.
Arguments Failed {A} f.

#[export] Instance result_ret : MRet result := fun A a => Ok a.
#[export] Instance result_bind : MBind result := fun A B f m =>
  match m with
  | Ok a => f a
  | Failed e => Failed e
  end.

(** [rc <- v] *)
Definition chan_send (rc : nat) (v : asyncResult) (chs : list chanState)
  : result (list chanState) :=
  match chs !! rc with
  | None => Failed BadChannel
  | Some st =>
      if ch_closed st then Failed PanicSendClosed
      else match ch_val st with
           | Some _ => Failed SendBlocked
           | None => Ok (<[rc := {| ch_val := Some v; ch_closed := false |}]> chs)
           end
  end.

(** [close(rc)] *)
Definition chan_close (rc : nat) (chs : list chanState) : result (list chanState) :=
  match chs !! rc with
  | None => Failed BadChannel
  | Some st =>
      if ch_closed st then Failed PanicCloseClosed
      else Ok (<[rc := {| ch_val := ch_val st; ch_closed := true |}]> chs)
  end.

(** [v, ok := <-rc]: [None] while the receiver stays blocked. *)
Definition chan_recv (rc : nat) (chs : list chanState) : option (asyncResult * bool) :=
  match chs !! rc with
  | None => None
  | Some st =>
      match ch_val st with
      | Some v => Some (v, true)
      | None => if ch_closed st then Some ({| val := []; err := None |}, false) else None
      end
  end.

Fixpoint close_chans (rcs : list nat) (chs : list chanState) : result (list chanState) :=
  match rcs with
  | [] => Ok chs
  | rc :: rcs => chs' ← chan_close rc chs; close_chans rcs chs'
  end.

(** ** The receiver and the connection *)

(** The [Model] interface.  [Index], [IndexUpdate] and [Close] return
    nothing: a call to one of them is an [Event] of the step that makes it. *)
Record Model := mkModel {
  Model_Request : string -> string -> Z -> Z -> bytes -> bytes * option error
}.

(** What a step does to the outside: the calls to the receiver, and the
    goroutine [processRequest] starts. *)
Inductive Event :=
| EvIndex (nodeID : string) (files : list FileInfo)
| EvIndexUpdate (nodeID : string) (files : list FileInfo)
| EvRequest (nodeID : string) (r : request)
| EvClose (nodeID : string)
| EvGo (id : Z) (r : request).      (* go func() of processRequest *)

Record Connection := mkConnection {
  ID : string;
  receiver : Model;
  mreader_err : option error;           (* c.mreader.err *)
  mwriter : marshalWriter;
  closed : bool;
  awaiting : option (gmap Z nat);       (* None is the nil map *)
  nextId : Z;
  peerLatency : Z;
  indexSent : option (gmap string Z);   (* None is the nil map *)
  lastReceive : Z;
  chans : list chanState
}.

Definition set_mreader_err (e : option error) (c : Connection) : Connection :=
  mkConnection (ID c) (receiver c) e (mwriter c) (closed c) (awaiting c)
    (nextId c) (peerLatency c) (indexSent c) (lastReceive c) (chans c).
Definition set_mwriter (w : marshalWriter) (c : Connection) : Connection :=
  mkConnection (ID c) (receiver c) (mreader_err c) w (closed c) (awaiting c)
    (nextId c) (peerLatency c) (indexSent c) (lastReceive c) (chans c).
Definition set_closed (b : bool) (c : Connection) : Connection :=
  mkConnection (ID c) (receiver c) (mreader_err c) (mwriter c) b (awaiting c)
    (nextId c) (peerLatency c) (indexSent c) (lastReceive c) (chans c).
Definition set_awaiting (a : option (gmap Z nat)) (c : Connection) : Connection :=
  mkConnection (ID c) (receiver c) (mreader_err c) (mwriter c) (closed c) a
    (nextId c) (peerLatency c) (indexSent c) (lastReceive c) (chans c).
Definition set_nextId (n : Z) (c : Connection) : Connection :=
  mkConnection (ID c) (receiver c) (mreader_err c) (mwriter c) (closed c) (awaiting c)
    n (peerLatency c) (indexSent c) (lastReceive c) (chans c).
Definition set_peerLatency (d : Z) (c : Connection) : Connection :=
  mkConnection (ID c) (receiver c) (mreader_err c) (mwriter c) (closed c) (awaiting c)
    (nextId c) d (indexSent c) (lastReceive c) (chans c).
Definition set_indexSent (s : option (gmap string Z)) (c : Connection) : Connection :=
  mkConnection (ID c) (receiver c) (mreader_err c) (mwriter c) (closed c) (awaiting c)
    (nextId c) (peerLatency c) s (lastReceive c) (chans c).
Definition set_lastReceive (t : Z) (c : Connection) : Connection :=
  mkConnection (ID c) (receiver c) (mreader_err c) (mwriter c) (closed c) (awaiting c)
    (nextId c) (peerLatency c) (indexSent c) t (chans c).
Definition set_chans (chs : list chanState) (c : Connection) : Connection :=
  mkConnection (ID c) (receiver c) (mreader_err c) (mwriter c) (closed c) (awaiting c)
    (nextId c) (peerLatency c) (indexSent c) (lastReceive c) chs.

(** [NewConnection]: an empty pending-call table, no index sent, identifier
    zero; [now] is the clock reading at construction.  The two loops it
    starts are the [ARead] and [APinger] actions below.  The byte counters
    and [lastStatistics], which only [Statistics] reads, are left out. *)
Definition NewConnection (nodeID : string) (rcv : Model) (now : Z) : Connection :=
  {| ID := nodeID;
     receiver := rcv;
     mreader_err := None;
     mwriter := {| w_out := []; w_err := None |};
     closed := false;
     awaiting := Some ∅;
     nextId := 0;
     peerLatency := 0;
     indexSent := None;
     lastReceive := now;
     chans := [] |}.

(** [(c.nextId + 1) & 0xfff] *)
Definition next_id (n : Z) : Z := Z.land (int64 (n + 1)) 0xfff.

(** The channels registered in the pending-call table. *)
Definition awaiting_chans (c : Connection) : list nat :=
  match awaiting c with
  | None => []
  | Some m => (map_to_list m).*2
  end.

(** [c.awaiting[id]] as a read: a nil map has no entries. *)
Definition awaiting_lookup (id : Z) (c : Connection) : option nat :=
  match awaiting c with
  | None => None
  | Some m => m !! id
  end.

(** [isClosed]: the flag, read under the lock. *)
Definition isClosed (c : Connection) : bool := closed c.

(** [close]: the first call marks the connection closed, closes every
    channel of the pending-call table, drops the table and tells the
    receiver; a later call returns at once. *)
Definition close (c : Connection) : result (Connection * list Event) :=
  if closed c then Ok (c, [])
  else
    chs ← close_chans (awaiting_chans c) (chans c);
    Ok (set_chans chs (set_awaiting None (set_closed true c)), [EvClose (ID c)]).

(** ** Index *)

(** The first branch of [Index]: every entry is recorded in a fresh map. *)
Definition index_full (idx : list FileInfo) : gmap string Z :=
  foldl (fun m f => <[Name f := Modified f]> m) ∅ idx.

(** The second branch of [Index]: the loop that collects [diff] and records
    each collected entry as it goes. *)
Definition index_diff_step (acc : list FileInfo * gmap string Z) (f : FileInfo)
  : list FileInfo * gmap string Z :=
  match acc.2 !! Name f with
  | Some modified =>
      if decide (Modified f = modified) then acc
      else (acc.1 ++ [f], <[Name f := Modified f]> acc.2)
  | None => (acc.1 ++ [f], <[Name f := Modified f]> acc.2)
  end.

Definition index_diff (sent : gmap string Z) (idx : list FileInfo)
  : list FileInfo * gmap string Z :=
  foldl index_diff_step ([], sent) idx.

(** Lines 107-127 of [Index]: the message type, the entries handed to
    [writeIndex] and the new [indexSent]. *)
Definition Index_prepare (c : Connection) (idx : list FileInfo)
  : Z * list FileInfo * gmap string Z :=
  match indexSent c with
  | None => (messageTypeIndex, idx, index_full idx)
  | Some sent =>
      let '(diff, sent') := index_diff sent idx in
      (messageTypeIndexUpdate, diff, sent')
  end.

(** [Index], lines 104-138: the map is brought up to date first, the frame
    is written next, and the identifier moves on whether or not the write
    went through. *)
Definition Index (io : IO) (idx : list FileInfo) (c : Connection)
  : result (Connection * list Event) :=
  let '(ty, idx', sent') := Index_prepare c idx in
  let c1 := set_indexSent (Some sent') c in
  let w1 := writeHeader (io_header io) (mkHeader 0 (nextId c1) ty) (mwriter c1) in
  let w2 := writeIndex (io_body io) idx' w1 in
  let err := flush io in
  let c2 := set_nextId (next_id (nextId c1)) (set_mwriter w2 c1) in
  if failed err || failed (w_err w2) then close c2
  else Ok (c2, []).

(** ** Request and Ping *)

(** How a call to [Request] or [Ping] stands once its critical section is
    over: it has returned, or it is blocked on its reply channel. *)
Inductive RequestCall :=
| RequestDone (data : bytes) (e : option error)
| RequestAwait (rc : nat).

Inductive PingCall :=
| PingDone (d : Z) (ok : bool)
| PingAwait (rc : nat) (t0 : Z).

(** [c.awaiting[c.nextId] = rc] *)
Definition register (rc : nat) (c : Connection) : result Connection :=
  match awaiting c with
  | None => Failed PanicNilMap
  | Some m => Ok (set_awaiting (Some (<[nextId c := rc]> m)) c)
  end.

(** [rc := make(chan asyncResult)] *)
Definition make_chan (c : Connection) : nat * Connection :=
  (length (chans c), set_chans (chans c ++ [new_chan]) c).

(** [Request], lines 142-162. *)
Definition Request (io : IO) (r : request) (c : Connection)
  : result (Connection * list Event * RequestCall) :=
  if isClosed c then Ok (c, [], RequestDone [] (Some ErrClosed))
  else
    let '(rc, c1) := make_chan c in
    c2 ← register rc c1;
    let w := writeRequest (io_body io) r
               (writeHeader (io_header io) (mkHeader 0 (nextId c2) messageTypeRequest)
                  (mwriter c2)) in
    let c3 := set_mwriter w c2 in
    match w_err w with
    | Some e => '(c4, evs) ← close c3; Ok (c4, evs, RequestDone [] (Some e))
    | None =>
        match flush io with
        | Some e => '(c4, evs) ← close c3; Ok (c4, evs, RequestDone [] (Some e))
        | None => Ok (set_nextId (next_id (nextId c3)) c3, [], RequestAwait rc)
        end
    end.

(** [Request], lines 164-168: what the blocked caller returns, if it is
    woken. *)
Definition Request_wait (rc : nat) (c : Connection) : option (bytes * option error) :=
  match chan_recv rc (chans c) with
  | None => None
  | Some (res, ok) => if ok then Some (val res, err res) else Some ([], Some ErrClosed)
  end.

(** [Ping], lines 172-187. *)
Definition Ping (io : IO) (now : Z) (c : Connection)
  : result (Connection * list Event * PingCall) :=
  if isClosed c then Ok (c, [], PingDone 0 false)
  else
    let '(rc, c1) := make_chan c in
    c2 ← register rc c1;
    let t0 := now in
    let w := writeHeader (io_header io) (mkHeader 0 (nextId c2) messageTypePing)
               (mwriter c2) in
    let e := flush io in
    let c3 := set_mwriter w c2 in
    if failed e || failed (w_err w) then
      '(c4, evs) ← close c3; Ok (c4, evs, PingDone 0 false)
    else Ok (set_nextId (next_id (nextId c3)) c3, [], PingAwait rc t0).

(** [Ping], lines 189-190. *)
Definition Ping_wait (rc : nat) (t0 now : Z) (c : Connection) : option (Z * bool) :=
  match chan_recv rc (chans c) with
  | None => None
  | Some (_, ok) => Some (Since now t0, ok)
  end.

(** ** The reader loop *)

(** Modelled from the spec: the methods of [marshalReader] are missing from
    the sources.  A read on a reader with a latched error is a no-op that
    keeps the error; a failing read latches one; [zero] is the value the
    caller gets in both cases. *)
Definition m_read {A : Type} (zero : A) (x : option A) (c : Connection) : A * Connection :=
  match mreader_err c with
  | Some _ => (zero, c)
  | None =>
      match x with
      | Some a => (a, c)
      | None => (zero, set_mreader_err (Some ErrTransport) c)
      end
  end.

(** Modelled from the spec: [readHeader] is missing from the sources; it
    reads one word and unpacks it with [decodeHeader]. *)
Definition readHeader (inp : Inbound) (c : Connection) : header * Connection :=
  m_read (mkHeader 0 0 0) (decodeHeader <$> in_header inp) c.

(** Modelled from the spec: [readIndex], [readRequest] and [readResponse] are
    missing from the sources; each decodes the body of its frame type. *)
Definition readIndex (inp : Inbound) := m_read ([] : list FileInfo) (in_index inp).
Definition readRequest (inp : Inbound) := m_read (mkRequest "" 0 0 []) (in_request inp).
Definition readResponse (inp : Inbound) := m_read ([] : bytes) (in_response inp).

(** [processRequest]: the part that runs on the reader loop. *)
Definition processRequest (id : Z) (inp : Inbound) (c : Connection)
  : result (Connection * list Event) :=
  let '(req, c1) := readRequest inp c in
  if failed (mreader_err c1) then close c1
  else Ok (c1, [EvGo id req]).

(** [processRequest]: the body of the goroutine.  [buffers.Put] gives the
    data back to a pool and has no effect here. *)
Definition processRequest_go (io : IO) (id : Z) (req : request) (c : Connection)
  : result (Connection * list Event) :=
  let '(data, _) :=
    Model_Request (receiver c) (ID c) (name req) (offset req) (size req) (hash req) in
  let w := writeResponse (io_body io) data
             (writeUint32 (io_header io) (encodeHeader (mkHeader 0 id messageTypeResponse))
                (mwriter c)) in
  let e := flush io in
  let c1 := set_mwriter w c in
  if failed (w_err w) || failed e then
    '(c2, evs) ← close c1; Ok (c2, EvRequest (ID c) req :: evs)
  else Ok (c1, [EvRequest (ID c) req]).

(** [rc <- res; close(rc); delete(c.awaiting, id)] *)
Definition fulfil (id : Z) (rc : nat) (res : asyncResult) (c : Connection)
  : result (Connection * list Event) :=
  chs ← chan_send rc res (chans c);
  chs' ← chan_close rc chs;
  Ok (set_awaiting (delete id <$> awaiting c) (set_chans chs' c), []).

(** The switch of [readerLoop] on the message type. *)
Definition dispatch (hdr : header) (inp : Inbound) (io : IO) (c : Connection)
  : result (Connection * list Event) :=
  match msgType hdr with
  | 1 =>
      let '(files, c1) := readIndex inp c in
      if failed (mreader_err c1) then close c1
      else Ok (c1, [EvIndex (ID c1) files])
  | 6 =>
      let '(files, c1) := readIndex inp c in
      if failed (mreader_err c1) then close c1
      else Ok (c1, [EvIndexUpdate (ID c1) files])
  | 2 =>
      '(c1, evs) ← processRequest (msgID hdr) inp c;
      if failed (mreader_err c1) || failed (w_err (mwriter c1)) then
        '(c2, evs') ← close c1; Ok (c2, evs ++ evs')
      else Ok (c1, evs)
  | 3 =>
      let '(data, c1) := readResponse inp c in
      if failed (mreader_err c1) then close c1
      else
        match awaiting_lookup (msgID hdr) c1 with
        | Some rc => fulfil (msgID hdr) rc (mkAsyncResult data (mreader_err c1)) c1
        | None => Ok (c1, [])
        end
  | 4 =>
      let w := writeUint32 (io_header io)
                 (encodeHeader (mkHeader 0 (msgID hdr) messageTypePong)) (mwriter c) in
      let e := flush io in
      let c1 := set_mwriter w c in
      if failed e || failed (w_err w) then close c1 else Ok (c1, [])
  | 5 =>
      match awaiting_lookup (msgID hdr) c with
      | Some rc => fulfil (msgID hdr) rc (mkAsyncResult [] None) c
      | None => Ok (c, [])
      end
  | _ => close c
  end.

(** One turn of the loop of [readerLoop], entered at clock reading [now],
    of a reader that finds its frame at once: the test of line 230 and the
    handling of the frame see the same closed flag.  The turn of a reader
    that was blocked in [readHeader] in between is [readerLoop_body]. *)
Definition readerLoop_iter (now : Z) (inp : Inbound) (io : IO) (c : Connection)
  : result (Connection * list Event) :=
  if isClosed c then Ok (c, [])
  else
    let '(hdr, c1) := readHeader inp c in
    if failed (mreader_err c1) then close c1
    else if negb (version hdr =? 0) then close c1
    else dispatch hdr inp io (set_lastReceive now c1).

(** [readerLoop] on the frames the transport delivers. *)
Fixpoint readerLoop (frames : list (Z * Inbound * IO)) (c : Connection)
  : result (Connection * list Event) :=
  match frames with
  | [] => Ok (c, [])
  | (now, inp, io) :: frames =>
      if isClosed c then Ok (c, [])
      else
        '(c1, evs) ← readerLoop_iter now inp io c;
        '(c2, evs') ← readerLoop frames c1;
        Ok (c2, evs ++ evs')
  end.

(** ** The keep-alive loop *)

(** [(c.peerLatency + lat) / 2] on [time.Duration]. *)
Definition smooth (latency lat : Z) : Z := Z.quot (int64 (latency + lat)) 2.

(** The header-only frame the peer answers a ping with. *)
Definition pong_frame (id : Z) : Inbound :=
  {| in_header := Some (encodeHeader (mkHeader 0 id messageTypePong));
     in_index := None; in_request := None; in_response := None |}.

(** The goroutine that [pingerLoop] starts, [t, ok := c.Ping(); if ok { rc
    <- t }], on an otherwise quiet connection, and what it puts on [rc]
    before the timer of [pingTimeout] fires, if anything.  [pong] is the
    environment: [Some d] when the reader loop handles the peer's Pong [d]
    nanoseconds after the ping was written, [None] when no Pong comes. *)
Definition pinger_ping (now : Z) (io : IO) (pong : option Z) (c : Connection)
  : result (Connection * list Event * option Z) :=
  let id := nextId c in
  '(c1, evs1, call) ← Ping io now c;
  match call, pong with
  | PingAwait rc t0, Some d =>
      if (0 <=? d) && (d <? pingTimeout) then
        '(c2, evs2) ← readerLoop_iter (now + d) (pong_frame id) ioOK c1;
        match Ping_wait rc t0 (now + d) c2 with
        | Some (lat, true) => Ok (c2, evs1 ++ evs2, Some lat)
        | _ => Ok (c2, evs1 ++ evs2, None)
        end
      else Ok (c1, evs1, None)
  | _, _ => Ok (c1, evs1, None)
  end.

(** The [select] of [pingerLoop]: the latency that arrived on [rc], or the
    timer. *)
Definition pingerLoop_select (arrived : option Z) (c : Connection)
  : result (Connection * list Event) :=
  match arrived with
  | Some lat => Ok (set_peerLatency (smooth (peerLatency c) lat) c, [])
  | None => close c
  end.

(** One turn of the loop of [pingerLoop], entered at clock reading [now]. *)
Definition pingerLoop_iter (now : Z) (io : IO) (pong : option Z) (c : Connection)
  : result (Connection * list Event) :=
  if isClosed c then Ok (c, [])
  else
    let lr := lastReceive c in
    if Since now lr >? pingIdleTime then
      '(c1, evs1, arrived) ← pinger_ping now io pong c;
      '(c2, evs2) ← pingerLoop_select arrived c1;
      Ok (c2, evs1 ++ evs2)
    else Ok (c, []).

(** ** Serial schedules *)

(** A whole operation, from its first statement to its last (or to the
    point where its caller blocks), with no other goroutine in between. *)
Inductive Action :=
| AIndex (io : IO) (idx : list FileInfo)
| ARequest (io : IO) (r : request)
| APing (io : IO) (now : Z)
| ARead (now : Z) (inp : Inbound) (io : IO)
| AServe (io : IO) (id : Z) (r : request)
| APinger (now : Z) (io : IO) (pong : option Z)
| AClose.

Definition step (a : Action) (c : Connection) : result (Connection * list Event) :=
  match a with
  | AIndex io idx => Index io idx c
  | ARequest io r => '(c', evs, _) ← Request io r c; Ok (c', evs)
  | APing io now => '(c', evs, _) ← Ping io now c; Ok (c', evs)
  | ARead now inp io => readerLoop_iter now inp io c
  | AServe io id r => processRequest_go io id r c
  | APinger now io pong => pingerLoop_iter now io pong c
  | AClose => close c
  end.

Fixpoint run (acts : list Action) (c : Connection) : result (Connection * list Event) :=
  match acts with
  | [] => Ok (c, [])
  | a :: acts =>
      '(c1, evs) ← step a c;
      '(c2, evs') ← run acts c1;
      Ok (c2, evs ++ evs')
  end.

(** ** The atomic sections *)

(** [step] runs each operation from its first to its last statement with no
    other goroutine in between.  The source gives less: [Request] and [Ping]
    test [isClosed] before they take the lock, the reader tests it before it
    blocks in [readHeader], it looks a reply channel up, sends on it, closes
    it and deletes its entry in four separate steps, and every [close] that
    follows an error comes after the [Unlock].  The definitions below are the
    stretches that do run without interruption. *)

(** [Index], lines 105-133: the locked section, and the caller's [err]. *)
Definition Index_critical (io : IO) (idx : list FileInfo) (c : Connection)
  : Connection * option error :=
  let '(ty, idx', sent') := Index_prepare c idx in
  let c1 := set_indexSent (Some sent') c in
  let w1 := writeHeader (io_header io) (mkHeader 0 (nextId c1) ty) (mwriter c1) in
  let w2 := writeIndex (io_body io) idx' w1 in
  let err := flush io in
  (set_nextId (next_id (nextId c1)) (set_mwriter w2 c1), err).

(** [Request], lines 145-162, entered after the test of line 142: the locked
    section up to its [Unlock], the channel it made and the error it leaves
    with, if any. *)
Definition Request_critical (io : IO) (r : request) (c : Connection)
  : result (Connection * nat * option error) :=
  let '(rc, c1) := make_chan c in
  c2 ← register rc c1;
  let w := writeRequest (io_body io) r
             (writeHeader (io_header io) (mkHeader 0 (nextId c2) messageTypeRequest)
                (mwriter c2)) in
  let c3 := set_mwriter w c2 in
  match w_err w with
  | Some e => Ok (c3, rc, Some e)
  | None =>
      match flush io with
      | Some e => Ok (c3, rc, Some e)
      | None => Ok (set_nextId (next_id (nextId c3)) c3, rc, None)
      end
  end.

(** [Ping], lines 175-187, entered after the test of line 172; the boolean
    is [err != nil || c.mwriter.err != nil]. *)
Definition Ping_critical (io : IO) (now : Z) (c : Connection)
  : result (Connection * nat * bool) :=
  let '(rc, c1) := make_chan c in
  c2 ← register rc c1;
  let w := writeHeader (io_header io) (mkHeader 0 (nextId c2) messageTypePing)
             (mwriter c2) in
  let e := flush io in
  let c3 := set_mwriter w c2 in
  if failed e || failed (w_err w) then Ok (c3, rc, true)
  else Ok (set_nextId (next_id (nextId c3)) c3, rc, false).

(** [rc <- res], lines 280 and 304. *)
Definition deliver_send (rc : nat) (res : asyncResult) (c : Connection)
  : result Connection :=
  chs ← chan_send rc res (chans c); Ok (set_chans chs c).

(** [close(rc)], lines 281 and 305. *)
Definition deliver_close (rc : nat) (c : Connection) : result Connection :=
  chs ← chan_close rc (chans c); Ok (set_chans chs c).

(** [delete(c.awaiting, id)] under the lock, lines 283-285 and 307-309; on a
    nil map [delete] does nothing. *)
Definition deliver_delete (id : Z) (c : Connection) : Connection :=
  set_awaiting (delete id <$> awaiting c) c.

(** The locked section of the Ping case, lines 290-293, and [err]. *)
Definition Pong_critical (io : IO) (id : Z) (c : Connection) : Connection * option error :=
  (set_mwriter (writeUint32 (io_header io)
                  (encodeHeader (mkHeader 0 id messageTypePong)) (mwriter c)) c,
   flush io).

(** The locked section of the goroutine of [processRequest], lines 326-330,
    and [err]. *)
Definition Response_critical (io : IO) (id : Z) (data : bytes) (c : Connection)
  : Connection * option error :=
  (set_mwriter (writeResponse (io_body io) data
                  (writeUint32 (io_header io)
                     (encodeHeader (mkHeader 0 id messageTypeResponse)) (mwriter c))) c,
   flush io).


(** What one goroutine does to the connection without another goroutine in
    between.  The arguments are what the goroutine holds locally: the
    transport's answers, the frame it decoded, the channel it looked up, the
    data the receiver returned.  [AtClose] is [close] as a whole: its locked
    section and the call of [Receiver.Close] that follows the [Unlock]; the
    call changes nothing in the connection, so that only the place of the
    [Close] event among the events of other goroutines depends on it. *)
Inductive Atom :=
| AtIndex (io : IO) (idx : list FileInfo)         (* Index, 105-133 *)
| AtRequest (io : IO) (r : request)               (* Request, 145-162 *)
| AtPing (io : IO) (now : Z)                      (* Ping, 175-187 *)
| AtClose                                         (* close, 207-221 *)
| AtReadError                                     (* a read of the reader that fails *)
| AtTouch (now : Z)                               (* 242-244 *)
| AtIndexCall (files : list FileInfo)             (* 252 *)
| AtIndexUpdateCall (files : list FileInfo)       (* 260 *)
| AtGo (id : Z) (r : request)                     (* 324 *)
| AtRequestCall (r : request)                     (* 325 *)
| AtSend (rc : nat) (res : asyncResult)           (* 280, 304 *)
| AtCloseChan (rc : nat)                          (* 281, 305 *)
| AtDelete (id : Z)                               (* 283-285, 307-309 *)
| AtPong (io : IO) (id : Z)                       (* 290-293 *)
| AtRespond (io : IO) (id : Z) (data : bytes)     (* 326-330 *)
| AtLatency (lat : Z).                            (* 355-357 *)

Definition atom_step (a : Atom) (c : Connection) : result (Connection * list Event) :=
  match a with
  | AtIndex io idx => Ok ((Index_critical io idx c).1, [])
  | AtRequest io r => '(c', _, _) ← Request_critical io r c; Ok (c', [])
  | AtPing io now => '(c', _, _) ← Ping_critical io now c; Ok (c', [])
  | AtClose => close c
  | AtReadError => Ok ((m_read tt None c).2, [])
  | AtTouch now => Ok (set_lastReceive now c, [])
  | AtIndexCall files => Ok (c, [EvIndex (ID c) files])
  | AtIndexUpdateCall files => Ok (c, [EvIndexUpdate (ID c) files])
  | AtGo id r => Ok (c, [EvGo id r])
  | AtRequestCall r => Ok (c, [EvRequest (ID c) r])
  | AtSend rc res => c' ← deliver_send rc res c; Ok (c', [])
  | AtCloseChan rc => c' ← deliver_close rc c; Ok (c', [])
  | AtDelete id => Ok (deliver_delete id c, [])
  | AtPong io id => Ok ((Pong_critical io id c).1, [])
  | AtRespond io id data => Ok ((Response_critical io id data c).1, [])
  | AtLatency lat => Ok (set_peerLatency (smooth (peerLatency c) lat) c, [])
  end.

(** An interleaving of the goroutines, section by section.  Every execution
    of the program is such a list, up to the first panic; a list need not be
    an execution, since nothing here ties the arguments of an atom to what
    its goroutine did before.  What holds of every list holds of every
    execution. *)
Fixpoint atoms_run (ats : list Atom) (c : Connection) : result (Connection * list Event) :=
  match ats with
  | [] => Ok (c, [])
  | a :: ats =>
      '(c1, evs) ← atom_step a c;
      '(c2, evs') ← atoms_run ats c1;
      Ok (c2, evs ++ evs')
  end.


(** * Vocabulary of the properties *)

Arguments encodeHeader : simpl never.
Arguments decodeHeader : simpl never.
Arguments next_id : simpl never.
Arguments Since : simpl never.
Arguments dispatch : simpl never.

(** ** Well-formed connections *)

(** A channel after [close(rc)] and before anything was sent on it. *)
Definition closed_chan : chanState := {| ch_val := None; ch_closed := true |}.

(** The pending-call table of a connection made by [NewConnection],
    whatever the interleaving: an open connection has its table, a closed
    one has dropped it; the channels of the table are distinct and nobody
    has sent on them or closed them; the identifier is 12 bits wide. *)
Definition table_ok (c : Connection) : Prop :=
  (closed c = false -> is_Some (awaiting c)) /\
  (closed c = true -> awaiting c = None) /\
  (forall m id rc, awaiting c = Some m -> m !! id = Some rc ->
     chans c !! rc = Some new_chan) /\
  (forall m i j rc, awaiting c = Some m -> m !! i = Some rc -> m !! j = Some rc ->
     i = j) /\
  0 <= nextId c < 4096.

(** An open connection has no latched codec error: every step that sees
    one closes the connection before it ends. *)
Definition healthy (c : Connection) : Prop :=
  closed c = false -> w_err (mwriter c) = None /\ mreader_err c = None.

Definition wf (c : Connection) : Prop := table_ok c /\ healthy c.

(** A step that returns, in a well-formed connection. *)
Definition safe (r : result (Connection * list Event)) : Prop :=
  exists c evs, r = Ok (c, evs) /\ wf c.

(** The call [Receiver.Close] among the events. *)
Definition is_close (e : Event) : bool :=
  match e with
  | EvClose _ => true
  | _ => false
  end.

(** The state a run ends in; the connection itself if the run fails. *)
Definition after (acts : list Action) (c : Connection) : Connection :=
  match run acts c with
  | Ok (c', _) => c'
  | Failed _ => c
  end.

(** Correlated sends: the calls that register a reply channel, on a
    transport that takes the writes. *)
Inductive Send :=
| SendRequest (r : request)
| SendPing (now : Z).

Definition send_action (s : Send) : Action :=
  match s with
  | SendRequest r => ARequest ioOK r
  | SendPing now => APing ioOK now
  end.

(** ** The index delta *)

(** An entry is recorded when [indexSent] has its name with its modified
    time. *)
Definition recorded (sent : gmap string Z) (f : FileInfo) : Prop :=
  sent !! Name f = Some (Modified f).

#[export] Instance recorded_dec sent f : Decision (recorded sent f).
Proof. unfold recorded. apply _. Defined.

(** The delta in the words of the specification: every entry whose name is
    absent from [indexSent] or whose modified time differs from the recorded
    one, [indexSent] being the map the call starts with. *)
Definition delta_spec (sent : gmap string Z) (idx : list FileInfo) : list FileInfo :=
  filter (fun f => ~ recorded sent f) idx.

(** Recording entries in order: a later entry of a name replaces an earlier
    one. *)
Definition record_all (entries : list FileInfo) (sent : gmap string Z) : gmap string Z :=
  foldl (fun m f => <[Name f := Modified f]> m) sent entries.

(** The modified time of the last entry of [entries] named [n]. *)
Fixpoint last_modified (n : string) (entries : list FileInfo) : option Z :=
  match entries with
  | [] => None
  | f :: entries =>
      match last_modified n entries with
      | Some v => Some v
      | None => if decide (Name f = n) then Some (Modified f) else None
      end
  end.

(** An Index or IndexUpdate frame on the wire: the header word and the
    entries. *)
Definition index_frame (id ty : Z) (entries : list FileInfo) : list wire_item :=
  [WUint32 (encodeHeader (mkHeader 0 id ty)); WIndex entries].

(** What is said of [Index] at a connection [c] and a list [idx], on a
    transport that takes the writes: the call appends one frame, a header
    word and the entries.  On the first call the word says Index, the entries
    are the whole list and [indexSent] maps the name of each entry to its
    modified time and has no other name; on a later call the word says
    IndexUpdate, the entries are the delta against the [indexSent] the call
    starts with, and [indexSent] is updated at exactly these entries. *)
Definition Index_as_claimed (c : Connection) (idx : list FileInfo) : Prop :=
  exists c' word entries,
    Index ioOK idx c = Ok (c', []) /\
    w_out (mwriter c') = w_out (mwriter c) ++ [WUint32 word; WIndex entries] /\
    match indexSent c with
    | None =>
        msgType (decodeHeader word) = messageTypeIndex /\
        entries = idx /\
        exists sent', indexSent c' = Some sent' /\
          (forall f, f ∈ idx -> sent' !! Name f = Some (Modified f)) /\
          (forall n, n ∉ Name <$> idx -> sent' !! n = None)
    | Some sent =>
        msgType (decodeHeader word) = messageTypeIndexUpdate /\
        entries = delta_spec sent idx /\
        indexSent c' = Some (record_all (delta_spec sent idx) sent)
    end.

(** The entries each [Index] call of a run hands to [writeIndex], call by
    call, whether or not the write goes through. *)
Fixpoint index_frames (acts : list Action) (c : Connection) : list (list FileInfo) :=
  match acts with
  | [] => []
  | a :: acts =>
      match step a c with
      | Ok (c', _) =>
          match a with
          | AIndex _ idx => [(Index_prepare c idx).1.2]
          | _ => []
          end ++ index_frames acts c'
      | Failed _ => []
      end
  end.

(** [indexSent] against the entries handed to the writer so far, call by
    call in [frames]: absent before the first call; afterwards it has a name
    exactly when an entry has it, with the modified time of the last such
    entry. *)
Definition reflects (c : Connection) (frames : list (list FileInfo)) : Prop :=
  match indexSent c with
  | None => frames = []
  | Some sent =>
      frames <> [] /\
      (forall n, is_Some (sent !! n) <-> n ∈ Name <$> concat frames) /\
      (forall n, sent !! n = last_modified n (concat frames))
  end.

(** ** Inbound frames *)

(** A Response frame with its decoded body, or a Pong frame, and the reply
    [res] the reader loop builds from it. *)
Definition is_reply (hdr : header) (inp : Inbound) (res : asyncResult) : Prop :=
  (msgType hdr = messageTypeResponse /\
   exists data, in_response inp = Some data /\ res = mkAsyncResult data None) \/
  (msgType hdr = messageTypePong /\ res = mkAsyncResult [] None).

(** The six message types of the protocol. *)
Definition known_types : list Z :=
  [messageTypeIndex; messageTypeRequest; messageTypeResponse;
   messageTypePing; messageTypePong; messageTypeIndexUpdate].

(** ** Concrete connections, files and frames *)

(** A receiver that has nothing to serve and never fails. *)
Definition quiet_model : Model := mkModel (fun _ _ _ _ _ => ([], None)).

(** A receiver that fails and returns no data. *)
Definition empty_on_error : Model :=
  mkModel (fun _ _ _ _ _ => ([], Some (ErrModel "no such file"))).

(** A receiver that fails and returns one byte with its error. *)
Definition data_with_error : Model :=
  mkModel (fun _ _ _ _ _ => ([xaa], Some (ErrModel "short read"))).

Definition peer0 : Connection := NewConnection "peer" quiet_model 0.

Definition file (n : string) (modified : Z) : FileInfo :=
  {| Name := n; Flags := 0; Modified := modified; Blocks := [] |}.

Definition block_request : request :=
  {| name := "f1"; offset := 0; size := 4; hash := [] |}.

(** A Response frame with identifier [id] and body [data]. *)
Definition response_frame (id : Z) (data : bytes) : Inbound :=
  {| in_header := Some (encodeHeader (mkHeader 0 id messageTypeResponse));
     in_index := None; in_request := None; in_response := Some data |}.

(** A frame with header word [u], every body being readable. *)
Definition raw_frame (u : Z) : Inbound :=
  {| in_header := Some u; in_index := Some [file "x" 1];
     in_request := Some block_request; in_response := Some [] |}.

(** ** Close calls, inbound frames and the frames a peer reads *)

(** The number of calls to [Receiver.Close] among the events. *)
Definition close_calls (evs : list Event) : nat :=
  length (filter (fun e => is_close e = true) evs).


(** A Ping frame with identifier [id]. *)
Definition ping_frame (id : Z) : Inbound :=
  {| in_header := Some (encodeHeader (mkHeader 0 id messageTypePing));
     in_index := None; in_request := None; in_response := None |}.

(** The transport refuses one of the writes or the flush. *)
Definition io_fails (io : IO) : Prop :=
  io_header io = false \/ io_body io = false \/ io_flush io = false.

(** The call the reader loop makes to the receiver for a frame with a
    version-0 header of type Index or IndexUpdate and a readable body. *)
Definition index_delivery (nodeID : string) (inp : Inbound) : option Event :=
  match in_header inp, in_index inp with
  | Some u, Some files =>
      if negb (version (decodeHeader u) =? 0) then None
      else if msgType (decodeHeader u) =? messageTypeIndex then
        Some (EvIndex nodeID files)
      else if msgType (decodeHeader u) =? messageTypeIndexUpdate then
        Some (EvIndexUpdate nodeID files)
      else None
  | _, _ => None
  end.

(** A frame the reader cannot decode: the header is unreadable, or the
    header is valid and the body its type asks for is unreadable. *)
Definition undecodable (inp : Inbound) : Prop :=
  in_header inp = None \/
  exists u, in_header inp = Some u /\ version (decodeHeader u) = 0 /\
    ((msgType (decodeHeader u) = messageTypeIndex /\ in_index inp = None) \/
     (msgType (decodeHeader u) = messageTypeIndexUpdate /\ in_index inp = None) \/
     (msgType (decodeHeader u) = messageTypeRequest /\ in_request inp = None) \/
     (msgType (decodeHeader u) = messageTypeResponse /\ in_response inp = None)).

(** What a connection has written between two of its states. *)
Definition written (c c' : Connection) : list wire_item :=
  drop (length (w_out (mwriter c))) (w_out (mwriter c')).

(** Modelled from the spec: the codec of marshal.go and messages.go is
    missing from the sources; by the spec's round trip, "decode(encode(x)) ==
    x", the peer's reader decodes from one written frame the header word and
    the body that were written.  Anything else is unreadable. *)
Definition as_inbound (frame : list wire_item) : Inbound :=
  match frame with
  | [WUint32 u] =>
      {| in_header := Some u; in_index := None; in_request := None; in_response := None |}
  | [WUint32 u; WIndex idx] =>
      {| in_header := Some u; in_index := Some idx; in_request := None;
         in_response := None |}
  | [WUint32 u; WRequest r] =>
      {| in_header := Some u; in_index := None; in_request := Some r;
         in_response := None |}
  | [WUint32 u; WResponse data] =>
      {| in_header := Some u; in_index := None; in_request := None;
         in_response := Some data |}
  | _ =>
      {| in_header := None; in_index := None; in_request := None; in_response := None |}
  end.

(** * The connection state machine *)

(** ** Identifiers and headers *)

Lemma int64_mod_4096 z : int64 z mod 4096 = z mod 4096.
Proof.
  unfold int64.
  rewrite Zminus_mod.
  rewrite (Z.mod_mod_divide _ (2 ^ 64) 4096) by (exists (2 ^ 52); reflexivity).
  rewrite <- Zminus_mod. f_equal. lia.
Qed.

Lemma next_id_mod n : next_id n = (n + 1) mod 4096.
Proof.
  unfold next_id. change 0xfff with (Z.ones 12).
  rewrite Z.land_ones by lia. apply int64_mod_4096.
Qed.

Lemma next_id_range n : 0 <= next_id n < 4096.
Proof. rewrite next_id_mod. apply Z.mod_pos_bound. lia. Qed.

(** Bit by bit: both sides of an equation between masks and shifts. *)
Ltac bits_tac :=
  apply Z.bits_inj'; intros n Hn;
  repeat first
    [ rewrite Z.land_spec | rewrite Z.lor_spec
    | rewrite Z.shiftr_spec by lia | rewrite Z.shiftl_spec by lia
    | rewrite Z.testbit_ones by lia ];
  repeat match goal with
  | |- context [?a <? ?b] => destruct (Z.ltb_spec a b)
  | |- context [?a <=? ?b] => destruct (Z.leb_spec a b)
  end;
  rewrite ?andb_false_r, ?orb_false_r, ?andb_true_r, ?orb_false_l;
  try reflexivity; try lia;
  repeat match goal with
  | |- context [Z.testbit ?x ?i] =>
      lazymatch i with
      | n => fail
      | _ => replace i with n by lia
      end
  end; try reflexivity.

Lemma decodeHeader_encodeHeader h :
  decodeHeader (encodeHeader h) =
  mkHeader (Z.land (version h) 0xf) (Z.land (msgID h) 0xfff) (Z.land (msgType h) 0xff).
Proof.
  unfold decodeHeader, encodeHeader.
  change 0xf with (Z.ones 4). change 0xfff with (Z.ones 12). change 0xff with (Z.ones 8).
  f_equal; bits_tac.
Qed.

Lemma land_ones_small x k : 0 <= k -> 0 <= x < 2 ^ k -> Z.land x (Z.ones k) = x.
Proof. intros Hk Hx. rewrite Z.land_ones by lia. apply Z.mod_small. lia. Qed.

Lemma decode_encode v i t :
  0 <= v < 16 -> 0 <= i < 4096 -> 0 <= t < 256 ->
  decodeHeader (encodeHeader (mkHeader v i t)) = mkHeader v i t.
Proof.
  intros Hv Hi Ht. rewrite decodeHeader_encodeHeader. simpl.
  change 0xf with (Z.ones 4). change 0xfff with (Z.ones 12). change 0xff with (Z.ones 8).
  rewrite !land_ones_small by lia. reflexivity.
Qed.

(** ** Channels *)

Lemma chan_close_open rc chs :
  chs !! rc = Some new_chan ->
  chan_close rc chs = Ok (<[rc := closed_chan]> chs).
Proof. intros H. unfold chan_close. rewrite H. reflexivity. Qed.

Lemma close_chans_ok rcs : forall chs,
  NoDup rcs ->
  (forall rc, rc ∈ rcs -> chs !! rc = Some new_chan) ->
  exists chs',
    close_chans rcs chs = Ok chs' /\
    length chs' = length chs /\
    (forall rc, rc ∈ rcs -> chs' !! rc = Some closed_chan) /\
    (forall rc, rc ∉ rcs -> chs' !! rc = chs !! rc).
Proof.
  induction rcs as [|rc rcs IH]; intros chs Hnd Hopen.
  - exists chs. split; [reflexivity|]. split; [reflexivity|].
    split; [intros rc H; inversion H | reflexivity].
  - apply NoDup_cons in Hnd as [Hnotin Hnd].
    assert (Hrc : chs !! rc = Some new_chan) by (apply Hopen; left).
    destruct (IH (<[rc := closed_chan]> chs) Hnd) as (chs' & Hrun & Hlen & Hin & Hout).
    { intros rc' Hrc'. rewrite list_lookup_insert_ne; [apply Hopen; by right|].
      intros ->. contradiction. }
    exists chs'. simpl. rewrite (chan_close_open _ _ Hrc). simpl.
    split; [exact Hrun|]. split; [by rewrite Hlen, length_insert|]. split.
    + intros rc' Hrc'. apply elem_of_cons in Hrc' as [->|Hrc']; [|by apply Hin].
      rewrite (Hout _ Hnotin). apply list_lookup_insert_eq.
      by apply lookup_lt_Some in Hrc.
    + intros rc' Hrc'. apply not_elem_of_cons in Hrc' as [Hne Hrc'].
      rewrite (Hout _ Hrc'). by apply list_lookup_insert_ne.
Qed.

(** ** Well-formed connections *)

Lemma wf_NewConnection nodeID rcv now : wf (NewConnection nodeID rcv now).
Proof.
  unfold wf, table_ok, healthy, NewConnection; simpl.
  repeat split; try done; try lia.
  - intros m id rc [= <-]. by rewrite lookup_empty.
  - intros m i j rc [= <-]. by rewrite lookup_empty.
Qed.

Lemma elem_of_awaiting_chans c rc :
  rc ∈ awaiting_chans c <-> exists m id, awaiting c = Some m /\ m !! id = Some rc.
Proof.
  unfold awaiting_chans. destruct (awaiting c) as [m|].
  - rewrite list_elem_of_fmap. split.
    + intros ([id rc'] & -> & Hin). apply elem_of_map_to_list in Hin. eauto.
    + intros (m' & id & [= <-] & Hid). exists (id, rc). split; [done|].
      by apply elem_of_map_to_list.
  - split; [intros H; inversion H | intros (? & ? & ? & _); done].
Qed.

Lemma NoDup_awaiting_chans c : table_ok c -> NoDup (awaiting_chans c).
Proof.
  intros (_ & _ & _ & Hinj & _). unfold awaiting_chans.
  destruct (awaiting c) as [m|] eqn:Hm; [|constructor].
  apply NoDup_fmap_2_strong; [|apply NoDup_map_to_list].
  intros [i rc] [j rc'] Hi Hj; simpl; intros <-.
  apply elem_of_map_to_list in Hi, Hj. f_equal. eapply Hinj; eauto.
Qed.

(** The first [close] of a connection. *)
Lemma close_open c :
  table_ok c -> closed c = false ->
  exists chs,
    close c = Ok (set_chans chs (set_awaiting None (set_closed true c)), [EvClose (ID c)]) /\
    length chs = length (chans c) /\
    (forall rc, rc ∈ awaiting_chans c -> chs !! rc = Some closed_chan) /\
    (forall rc, rc ∉ awaiting_chans c -> chs !! rc = chans c !! rc).
Proof.
  intros Hwf Hopen. unfold close. rewrite Hopen.
  destruct (close_chans_ok (awaiting_chans c) (chans c)) as (chs & Hrun & Hrest).
  - by apply NoDup_awaiting_chans.
  - intros rc Hrc. apply elem_of_awaiting_chans in Hrc as (m & id & Hm & Hid).
    destruct Hwf as (_ & _ & Hch & _). eauto.
  - exists chs. rewrite Hrun. simpl. split; [reflexivity | exact Hrest].
Qed.

Lemma close_closed c : closed c = true -> close c = Ok (c, []).
Proof. intros H. unfold close. by rewrite H. Qed.

Lemma close_safe c : table_ok c -> safe (close c).
Proof.
  intros Hwf. destruct (closed c) eqn:Hcl.
  - rewrite close_closed by done. exists c, []. split; [done|].
    split; [done|]. intros H. congruence.
  - destruct (close_open c Hwf Hcl) as (chs & -> & _).
    eexists _, _. split; [reflexivity|].
    destruct Hwf as (_ & _ & _ & _ & Hid).
    unfold wf, table_ok, healthy; simpl. repeat split; try done; lia.
Qed.

Lemma close_is_closed c c' evs : close c = Ok (c', evs) -> closed c' = true.
Proof.
  unfold close. destruct (closed c) eqn:Hcl.
  - by intros [= <- _].
  - destruct (close_chans _ _); simpl; [|done]. by intros [= <- _].
Qed.

(** The table is all that [close] needs; these changes keep it. *)
Lemma table_ok_set_mwriter w c : table_ok c -> table_ok (set_mwriter w c).
Proof. done. Qed.
Lemma table_ok_set_mreader_err e c : table_ok c -> table_ok (set_mreader_err e c).
Proof. done. Qed.
Lemma table_ok_set_indexSent s c : table_ok c -> table_ok (set_indexSent s c).
Proof. done. Qed.
Lemma table_ok_set_lastReceive t c : table_ok c -> table_ok (set_lastReceive t c).
Proof. done. Qed.
Lemma table_ok_set_peerLatency d c : table_ok c -> table_ok (set_peerLatency d c).
Proof. done. Qed.
Lemma table_ok_set_nextId n c : table_ok c -> table_ok (set_nextId (next_id n) c).
Proof.
  intros (H1 & H2 & H3 & H4 & _). repeat split; try done; apply next_id_range.
Qed.

Create HintDb conn.
#[local] Hint Resolve table_ok_set_mwriter table_ok_set_mreader_err
  table_ok_set_indexSent table_ok_set_lastReceive table_ok_set_peerLatency
  table_ok_set_nextId close_safe : conn.

Lemma failed_false e : failed e = false -> e = None.
Proof. by destruct e. Qed.

Lemma Index_safe io idx c : wf c -> safe (Index io idx c).
Proof.
  intros [Ht Hh]. unfold Index.
  destruct (Index_prepare c idx) as [[ty idx'] sent']; simpl.
  destruct (failed (flush io) || failed _) eqn:E.
  - apply close_safe. auto with conn.
  - eexists _, _. split; [reflexivity|]. split; [auto with conn|].
    intros Hcl; simpl in *. apply orb_false_elim in E as [_ E].
    apply failed_false in E. destruct (Hh Hcl). done.
Qed.

(** Registering a fresh channel under the current identifier. *)
Lemma register_fresh c :
  table_ok c -> closed c = false ->
  exists m,
    awaiting c = Some m /\
    register (make_chan c).1 (make_chan c).2 =
      Ok (set_awaiting (Some (<[nextId c := length (chans c)]> m))
            (set_chans (chans c ++ [new_chan]) c)) /\
    table_ok (set_awaiting (Some (<[nextId c := length (chans c)]> m))
                (set_chans (chans c ++ [new_chan]) c)).
Proof.
  intros (H1 & H2 & H3 & H4 & H5) Hcl.
  destruct (H1 Hcl) as [m Hm]. exists m. split; [done|].
  unfold register, make_chan; simpl. rewrite Hm. split; [done|].
  unfold table_ok; simpl. repeat split; try done; try lia.
  - congruence.
  - intros m' id rc [= <-] Hid.
    destruct (decide (nextId c = id)) as [<-|Hne].
    + rewrite lookup_insert_eq in Hid. injection Hid as <-.
      by rewrite lookup_app_r, Nat.sub_diag.
    + rewrite lookup_insert_ne in Hid by done.
      apply lookup_app_l_Some. eauto.
  - intros m' i j rc [= <-] Hi Hj.
    destruct (decide (nextId c = i)) as [<-|Hi'];
      destruct (decide (nextId c = j)) as [<-|Hj']; try done.
    + rewrite lookup_insert_eq in Hi. injection Hi as <-.
      rewrite lookup_insert_ne in Hj by done.
      apply (H3 _ _ _ Hm), lookup_lt_Some in Hj. lia.
    + rewrite lookup_insert_eq in Hj. injection Hj as <-.
      rewrite lookup_insert_ne in Hi by done.
      apply (H3 _ _ _ Hm), lookup_lt_Some in Hi. lia.
    + rewrite lookup_insert_ne in Hi, Hj by done. eauto.
Qed.

Lemma Request_safe io r c :
  wf c -> exists c' evs call, Request io r c = Ok (c', evs, call) /\ wf c'.
Proof.
  intros [Ht Hh]. unfold Request, isClosed. destruct (closed c) eqn:Hcl.
  { eexists _, _, _. split; [reflexivity|]. by split. }
  destruct (register_fresh c Ht Hcl) as (m & Hm & Hreg & Ht').
  destruct (make_chan c) as [rc c1]; simpl in Hreg. rewrite Hreg; simpl.
  set (c2 := set_awaiting _ _) in *.
  destruct (Hh Hcl) as [Hw Hr].
  set (w := writeRequest _ _ _).
  destruct (w_err w) as [e|] eqn:Ew.
  { destruct (close_safe (set_mwriter w c2)) as (c4 & evs & -> & Hwf); [auto with conn|].
    eexists _, _, _. split; [reflexivity|]. done. }
  destruct (flush io) as [e|].
  { destruct (close_safe (set_mwriter w c2)) as (c4 & evs & -> & Hwf); [auto with conn|].
    eexists _, _, _. split; [reflexivity|]. done. }
  eexists _, _, _. split; [reflexivity|]. split; [auto with conn|].
  intros _. simpl. done.
Qed.

Lemma Ping_safe io now c :
  wf c -> exists c' evs call, Ping io now c = Ok (c', evs, call) /\ wf c'.
Proof.
  intros [Ht Hh]. unfold Ping, isClosed. destruct (closed c) eqn:Hcl.
  { eexists _, _, _. split; [reflexivity|]. by split. }
  destruct (register_fresh c Ht Hcl) as (m & Hm & Hreg & Ht').
  destruct (make_chan c) as [rc c1]; simpl in Hreg. rewrite Hreg; simpl.
  set (c2 := set_awaiting _ _) in *.
  destruct (Hh Hcl) as [Hw Hr].
  set (w := writeHeader _ _ _).
  destruct (failed (flush io) || failed (w_err w)) eqn:E.
  { destruct (close_safe (set_mwriter w c2)) as (c4 & evs & -> & Hwf); [auto with conn|].
    eexists _, _, _. split; [reflexivity|]. done. }
  eexists _, _, _. split; [reflexivity|]. split; [auto with conn|].
  intros _. simpl. apply orb_false_elim in E as [_ E]. apply failed_false in E. done.
Qed.

Lemma processRequest_go_safe io id r c : wf c -> safe (processRequest_go io id r c).
Proof.
  intros [Ht Hh]. unfold processRequest_go.
  destruct (Model_Request _ _ _ _ _ _) as [data e0].
  set (w := writeResponse _ _ _).
  destruct (failed (w_err w) || failed (flush io)) eqn:E.
  - destruct (close_safe (set_mwriter w c)) as (c2 & evs & -> & Hwf); [auto with conn|].
    eexists _, _. split; [reflexivity|]. done.
  - eexists _, _. split; [reflexivity|]. split; [auto with conn|].
    intros Hcl; simpl in *. apply orb_false_elim in E as [E _].
    apply failed_false in E. destruct (Hh Hcl). done.
Qed.

(** Handing a reply to the caller registered under [id]. *)
Lemma fulfil_registered id rc res c :
  table_ok c -> awaiting_lookup id c = Some rc ->
  fulfil id rc res c =
    Ok (set_awaiting (delete id <$> awaiting c)
          (set_chans (<[rc := {| ch_val := Some res; ch_closed := true |}]> (chans c)) c),
        []) /\
  table_ok (set_awaiting (delete id <$> awaiting c)
              (set_chans (<[rc := {| ch_val := Some res; ch_closed := true |}]> (chans c)) c)).
Proof.
  intros (H1 & H2 & H3 & H4 & H5) Hlk. unfold awaiting_lookup in Hlk.
  destruct (awaiting c) as [m|] eqn:Hm; [|done].
  assert (Hrc : chans c !! rc = Some new_chan) by eauto.
  assert (Hlt : (rc < length (chans c))%nat) by (by apply lookup_lt_Some in Hrc).
  split.
  - unfold fulfil, chan_send. rewrite Hrc; simpl.
    unfold chan_close. rewrite list_lookup_insert_eq by done; simpl.
    rewrite list_insert_insert_eq, ?Hm. done.
  - unfold table_ok; simpl. rewrite ?Hm; simpl. repeat split; try done; try lia.
    + intros Hcl. specialize (H2 Hcl). congruence.
    + intros m' i rc' [= <-] Hi.
      apply lookup_delete_Some in Hi as [Hne Hi].
      rewrite list_lookup_insert_ne; [eauto|].
      intros <-. apply Hne. eauto.
    + intros m' i j rc' [= <-] Hi Hj.
      apply lookup_delete_Some in Hi as [_ Hi].
      apply lookup_delete_Some in Hj as [_ Hj]. eauto.
Qed.

Lemma m_read_cases {A} (zero : A) (x : option A) c a c' :
  m_read zero x c = (a, c') ->
  (mreader_err c = None /\ x = Some a /\ c' = c) \/
  (failed (mreader_err c') = true /\
   (c' = c \/ c' = set_mreader_err (Some ErrTransport) c)).
Proof.
  unfold m_read. destruct (mreader_err c) eqn:E.
  - intros [= <- <-]. right. rewrite E. auto.
  - destruct x; intros [= <- <-]; [left | right]; auto.
Qed.

Lemma m_read_table_ok {A} (zero : A) (x : option A) c a c' :
  m_read zero x c = (a, c') -> table_ok c -> table_ok c'.
Proof.
  intros H Ht. apply m_read_cases in H as [(_ & _ & ->)|(_ & [->| ->])]; auto with conn.
Qed.

Lemma m_read_ok {A} (zero : A) (x : option A) c a c' :
  m_read zero x c = (a, c') -> failed (mreader_err c') = false ->
  x = Some a /\ c' = c.
Proof.
  intros H E. apply m_read_cases in H as [(_ & -> & ->)|(E' & _)]; [done | congruence].
Qed.

(** The switch of [dispatch], case by case. *)
Lemma dispatch_unknown hdr inp io c :
  ~ (1 <= msgType hdr <= 6) -> dispatch hdr inp io c = close c.
Proof.
  intros H. unfold dispatch.
  destruct (msgType hdr) as [|p|p]; try reflexivity.
  do 3 (try destruct p as [p|p|]); try reflexivity; exfalso; lia.
Qed.

Ltac safe_close := apply close_safe; eauto using m_read_table_ok with conn.

Lemma dispatch_safe hdr inp io c : wf c -> safe (dispatch hdr inp io c).
Proof.
  intros [Ht Hh].
  assert (Hfiles : forall ev,
    safe (let '(files, c1) := readIndex inp c in
          if failed (mreader_err c1) then close c1 else Ok (c1, [ev c1 files]))).
  { intros ev. destruct (readIndex inp c) as [files c1] eqn:R.
    destruct (failed (mreader_err c1)) eqn:E; [safe_close|].
    apply m_read_ok in R as [_ ->]; [|done]. eexists _, _. by split. }
  assert (Hfulfil : forall res c1, wf c1 ->
    safe (match awaiting_lookup (msgID hdr) c1 with
          | Some rc => fulfil (msgID hdr) rc res c1
          | None => Ok (c1, [])
          end)).
  { intros res c1 [Ht1 Hh1]. destruct (awaiting_lookup (msgID hdr) c1) as [rc|] eqn:L.
    - destruct (fulfil_registered _ _ res _ Ht1 L) as [-> Ht'].
      eexists _, _. split; [reflexivity|]. by split.
    - eexists _, _. by split. }
  destruct (decide (1 <= msgType hdr <= 6)) as [Hty|Hty];
    [|rewrite dispatch_unknown by done; by apply close_safe].
  assert (msgType hdr = 1 \/ msgType hdr = 2 \/ msgType hdr = 3 \/ msgType hdr = 4 \/
          msgType hdr = 5 \/ msgType hdr = 6) as [E|[E|[E|[E|[E|E]]]]] by lia;
    unfold dispatch; rewrite E.
  - apply (Hfiles (fun c1 files => EvIndex (ID c1) files)).
  - unfold processRequest. destruct (readRequest inp c) as [req c1] eqn:R.
    destruct (failed (mreader_err c1)) eqn:E1.
    + destruct (close_safe c1) as (c2 & evs & -> & Hwf); [eauto using m_read_table_ok|].
      simpl. destruct (_ || _).
      * destruct (close_safe c2) as (c3 & evs' & -> & Hwf'); [apply Hwf|].
        eexists _, _. by split.
      * eexists _, _. by split.
    + apply m_read_ok in R as [_ ->]; [|done]. simpl. rewrite E1; simpl.
      destruct (failed (w_err (mwriter c))) eqn:E2.
      * destruct (close_safe c) as (c3 & evs' & -> & Hwf'); [done|].
        eexists _, _. by split.
      * eexists _, _. by split.
  - destruct (readResponse inp c) as [data c1] eqn:R.
    destruct (failed (mreader_err c1)) eqn:E1; [safe_close|].
    apply m_read_ok in R as [_ ->]; [|done]. by apply Hfulfil.
  - destruct (failed (flush io) || failed _) eqn:E1; [safe_close|].
    eexists _, _. split; [reflexivity|]. split; [auto with conn|].
    intros Hcl; simpl in *. apply orb_false_elim in E1 as [_ E1].
    apply failed_false in E1. destruct (Hh Hcl). done.
  - by apply Hfulfil.
  - apply (Hfiles (fun c1 files => EvIndexUpdate (ID c1) files)).
Qed.

Lemma readerLoop_iter_safe now inp io c : wf c -> safe (readerLoop_iter now inp io c).
Proof.
  intros Hwf. unfold readerLoop_iter, isClosed.
  destruct (closed c) eqn:Hcl; [by exists c, []|].
  destruct (readHeader inp c) as [hdr c1] eqn:R.
  destruct (failed (mreader_err c1)) eqn:E1; [destruct Hwf; safe_close|].
  apply m_read_ok in R as [_ ->]; [|done].
  destruct (negb _); [by apply close_safe, Hwf|].
  apply dispatch_safe. destruct Hwf. by split.
Qed.

Lemma pinger_ping_safe now io pong c :
  wf c -> exists c' evs arrived, pinger_ping now io pong c = Ok (c', evs, arrived) /\ wf c'.
Proof.
  intros Hwf. unfold pinger_ping.
  destruct (Ping_safe io now c Hwf) as (c1 & evs1 & call & -> & Hwf1); simpl.
  destruct call as [d ok|rc t0]; [by eexists _, _, _|].
  destruct pong as [d|]; [|by eexists _, _, _].
  destruct (_ && _); [|by eexists _, _, _].
  destruct (readerLoop_iter_safe (now + d) (pong_frame (nextId c)) ioOK c1 Hwf1)
    as (c2 & evs2 & -> & Hwf2); simpl.
  destruct (Ping_wait rc t0 (now + d) c2) as [[lat [|]]|]; by eexists _, _, _.
Qed.

Lemma pingerLoop_select_safe arrived c : wf c -> safe (pingerLoop_select arrived c).
Proof.
  intros Hwf. destruct arrived as [lat|]; simpl.
  - eexists _, _. split; [reflexivity|]. destruct Hwf. by split.
  - by apply close_safe, Hwf.
Qed.

Lemma pingerLoop_iter_safe now io pong c : wf c -> safe (pingerLoop_iter now io pong c).
Proof.
  intros Hwf. unfold pingerLoop_iter, isClosed.
  destruct (closed c) eqn:Hcl; [by exists c, []|].
  destruct (_ >? _); [|by exists c, []].
  destruct (pinger_ping_safe now io pong c Hwf) as (c1 & evs1 & arrived & -> & Hwf1); simpl.
  destruct (pingerLoop_select_safe arrived c1 Hwf1) as (c2 & evs2 & -> & Hwf2); simpl.
  by eexists _, _.
Qed.

Lemma step_safe a c : wf c -> safe (step a c).
Proof.
  intros Hwf. destruct a; simpl.
  - by apply Index_safe.
  - destruct (Request_safe io r c Hwf) as (c' & evs & call & -> & Hwf'). by exists c', evs.
  - destruct (Ping_safe io now c Hwf) as (c' & evs & call & -> & Hwf'). by exists c', evs.
  - by apply readerLoop_iter_safe.
  - by apply processRequest_go_safe.
  - by apply pingerLoop_iter_safe.
  - by apply close_safe, Hwf.
Qed.

(** No interleaving panics or blocks a sender, and all keep the connection
    well formed. *)
Lemma run_safe acts : forall c, wf c -> safe (run acts c).
Proof.
  induction acts as [|a acts IH]; intros c Hwf; simpl.
  - by exists c, [].
  - destruct (step_safe a c Hwf) as (c1 & evs & -> & Hwf1); simpl.
    destruct (IH c1 Hwf1) as (c2 & evs' & -> & Hwf2); simpl.
    by exists c2, (evs ++ evs').
Qed.

(** ** After the connection is closed *)

Lemma w_put_healthy x w :
  w_err w = None -> w_put true x w = {| w_out := w_out w ++ [x]; w_err := None |}.
Proof. intros H. unfold w_put. by rewrite H. Qed.

(** Once closed, a connection stays closed, and no step makes, closes or
    sends on a channel, or registers a call. *)
Lemma step_closed a c c' evs :
  closed c = true -> step a c = Ok (c', evs) ->
  closed c' = true /\ chans c' = chans c /\ awaiting c' = awaiting c.
Proof.
  intros Hcl. destruct a; simpl.
  - unfold Index. destruct (Index_prepare c idx) as [[ty idx'] sent'].
    simpl. destruct (_ || _).
    + rewrite close_closed by done. by intros [= <- <-].
    + by intros [= <- <-].
  - unfold Request, isClosed. rewrite Hcl. simpl. by intros [= <- <-].
  - unfold Ping, isClosed. rewrite Hcl. simpl. by intros [= <- <-].
  - unfold readerLoop_iter, isClosed. rewrite Hcl. by intros [= <- <-].
  - unfold processRequest_go. destruct (Model_Request _ _ _ _ _ _) as [data e].
    destruct (_ || _).
    + rewrite close_closed by done. simpl. by intros [= <- <-].
    + by intros [= <- <-].
  - unfold pingerLoop_iter, isClosed. rewrite Hcl. by intros [= <- <-].
  - rewrite close_closed by done. by intros [= <- <-].
Qed.

Lemma run_closed acts : forall c c' evs,
  closed c = true -> run acts c = Ok (c', evs) ->
  closed c' = true /\ chans c' = chans c /\ awaiting c' = awaiting c.
Proof.
  induction acts as [|a acts IH]; intros c c' evs Hcl; simpl.
  - by intros [= <- <-].
  - destruct (step a c) as [[c1 evs1]|] eqn:S; [|done]. simpl.
    destruct (run acts c1) as [[c2 evs2]|] eqn:R; [|done]. simpl.
    intros [= <- <-].
    destruct (step_closed _ _ _ _ Hcl S) as (Hcl1 & Hch1 & Haw1).
    destruct (IH _ _ _ Hcl1 R) as (Hcl2 & Hch2 & Haw2).
    split; [done|]. split; congruence.
Qed.

(** After the connection is closed the receiver is not told again. *)
Lemma step_closed_events a c c' evs :
  closed c = true -> step a c = Ok (c', evs) -> Forall (fun e => is_close e = false) evs.
Proof.
  intros Hcl. destruct a; simpl.
  - unfold Index. destruct (Index_prepare c idx) as [[ty idx'] sent'].
    simpl. destruct (_ || _).
    + rewrite close_closed by done. by intros [= _ <-].
    + by intros [= _ <-].
  - unfold Request, isClosed. rewrite Hcl. simpl. by intros [= _ <-].
  - unfold Ping, isClosed. rewrite Hcl. simpl. by intros [= _ <-].
  - unfold readerLoop_iter, isClosed. rewrite Hcl. by intros [= _ <-].
  - unfold processRequest_go. destruct (Model_Request _ _ _ _ _ _) as [data e].
    destruct (_ || _).
    + rewrite close_closed by done. simpl. intros [= _ <-]. by repeat constructor.
    + intros [= _ <-]. by repeat constructor.
  - unfold pingerLoop_iter, isClosed. rewrite Hcl. by intros [= _ <-].
  - rewrite close_closed by done. by intros [= _ <-].
Qed.

Lemma run_closed_events acts : forall c c' evs,
  closed c = true -> run acts c = Ok (c', evs) -> Forall (fun e => is_close e = false) evs.
Proof.
  induction acts as [|a acts IH]; intros c c' evs Hcl; simpl.
  - by intros [= _ <-].
  - destruct (step a c) as [[c1 evs1]|] eqn:S; [|done]. simpl.
    destruct (run acts c1) as [[c2 evs2]|] eqn:R; [|done]. simpl.
    intros [= _ <-]. apply Forall_app. split.
    + by eapply step_closed_events.
    + eapply IH; [|exact R]. by eapply step_closed.
Qed.

Lemma run_repeat_close_closed n c :
  closed c = true -> run (repeat AClose n) c = Ok (c, []).
Proof.
  intros Hcl. induction n as [|n IH]; simpl; [done|].
  rewrite close_closed by done. simpl. by rewrite IH.
Qed.

(** ** Calls on an open connection whose transport takes the writes *)

Lemma Request_sent r c :
  wf c -> closed c = false ->
  exists m c',
    awaiting c = Some m /\
    Request ioOK r c = Ok (c', [], RequestAwait (length (chans c))) /\
    wf c' /\ closed c' = false /\
    nextId c' = next_id (nextId c) /\
    awaiting c' = Some (<[nextId c := length (chans c)]> m) /\
    chans c' = chans c ++ [new_chan] /\
    w_out (mwriter c') =
      w_out (mwriter c) ++
      [WUint32 (encodeHeader (mkHeader 0 (nextId c) messageTypeRequest)); WRequest r].
Proof.
  intros [Ht Hh] Hcl. destruct (Hh Hcl) as [Hw Hr].
  destruct (register_fresh c Ht Hcl) as (m & Hm & Hreg & Ht').
  exists m. eexists. split; [done|].
  unfold Request, isClosed. rewrite Hcl.
  destruct (make_chan c) as [rc c1] eqn:Hmk. simpl in Hreg. rewrite Hreg. simpl.
  unfold writeRequest, writeHeader, writeUint32.
  rewrite !w_put_healthy by (try rewrite w_put_healthy; done). simpl.
  injection Hmk as <- <-.
  split; [reflexivity|]. simpl.
  split; [|by rewrite <- app_assoc].
  split; [by apply table_ok_set_nextId, table_ok_set_mwriter|done].
Qed.

Lemma Ping_sent now c :
  wf c -> closed c = false ->
  exists m c',
    awaiting c = Some m /\
    Ping ioOK now c = Ok (c', [], PingAwait (length (chans c)) now) /\
    wf c' /\ closed c' = false /\
    nextId c' = next_id (nextId c) /\
    awaiting c' = Some (<[nextId c := length (chans c)]> m) /\
    chans c' = chans c ++ [new_chan] /\
    w_out (mwriter c') =
      w_out (mwriter c) ++
      [WUint32 (encodeHeader (mkHeader 0 (nextId c) messageTypePing))] /\
    mreader_err c' = mreader_err c /\ peerLatency c' = peerLatency c /\ ID c' = ID c.
Proof.
  intros [Ht Hh] Hcl. destruct (Hh Hcl) as [Hw Hr].
  destruct (register_fresh c Ht Hcl) as (m & Hm & Hreg & Ht').
  exists m. eexists. split; [done|].
  unfold Ping, isClosed. rewrite Hcl.
  destruct (make_chan c) as [rc c1] eqn:Hmk. simpl in Hreg. rewrite Hreg. simpl.
  unfold writeHeader, writeUint32.
  rewrite !w_put_healthy by done. simpl.
  injection Hmk as <- <-.
  split; [reflexivity|]. simpl.
  split; [|done].
  split; [by apply table_ok_set_nextId, table_ok_set_mwriter|done].
Qed.

(** [Index] with the transport's answers [io]: the state before [close] is
    considered, and whether [close] is. *)
Lemma Index_unfold io idx c :
  Index io idx c =
  let p := Index_prepare c idx in
  let w := writeIndex (io_body io) p.1.2
             (writeHeader (io_header io) (mkHeader 0 (nextId c) p.1.1) (mwriter c)) in
  let c2 := set_nextId (next_id (nextId c)) (set_mwriter w (set_indexSent (Some p.2) c)) in
  if failed (flush io) || failed (w_err w) then close c2 else Ok (c2, []).
Proof. unfold Index. by destruct (Index_prepare c idx) as [[ty idx'] sent']. Qed.

Lemma Index_sent idx c :
  w_err (mwriter c) = None ->
  Index ioOK idx c =
  Ok (set_nextId (next_id (nextId c))
        (set_mwriter
           {| w_out := w_out (mwriter c) ++
                       [WUint32 (encodeHeader (mkHeader 0 (nextId c) (Index_prepare c idx).1.1));
                        WIndex (Index_prepare c idx).1.2];
              w_err := None |}
           (set_indexSent (Some (Index_prepare c idx).2) c)), []).
Proof.
  intros Hw. rewrite Index_unfold. simpl.
  unfold writeIndex, writeHeader, writeUint32.
  rewrite !w_put_healthy by (try rewrite w_put_healthy; done). simpl.
  by rewrite <- app_assoc.
Qed.

(** Every call to [Index] moves the identifier on, whatever the transport
    answers. *)
Lemma Index_nextId io idx c c' evs :
  Index io idx c = Ok (c', evs) -> nextId c' = next_id (nextId c).
Proof.
  rewrite Index_unfold. simpl. destruct (_ || _); [|by intros [= <- _]].
  unfold close; simpl. destruct (closed c); [by intros [= <- _]|].
  destruct (close_chans _ _); simpl; [|done]. by intros [= <- _].
Qed.

(** ** The index delta *)

Lemma index_diff_step_spec acc f :
  index_diff_step acc f =
  if decide (recorded acc.2 f) then acc
  else (acc.1 ++ [f], <[Name f := Modified f]> acc.2).
Proof.
  unfold index_diff_step.
  destruct (decide (recorded acc.2 f)) as [Hr|Hr]; unfold recorded in Hr.
  - rewrite Hr. by rewrite decide_True.
  - destruct (acc.2 !! Name f) as [v|]; [|done].
    rewrite decide_False; [done|]. intros E. apply Hr. by rewrite E.
Qed.

Lemma index_diff_acc idx : forall d m,
  foldl index_diff_step (d, m) idx =
  (d ++ (index_diff m idx).1, (index_diff m idx).2).
Proof.
  unfold index_diff.
  induction idx as [|f idx IH]; intros d m; simpl.
  - by rewrite app_nil_r.
  - rewrite !index_diff_step_spec; simpl.
    destruct (decide (recorded m f)); [apply IH|].
    rewrite (IH (d ++ [f])), (IH [f]). simpl. by rewrite <- app_assoc.
Qed.

Lemma index_diff_cons m f idx :
  index_diff m (f :: idx) =
  if decide (recorded m f) then index_diff m idx
  else (f :: (index_diff (<[Name f := Modified f]> m) idx).1,
        (index_diff (<[Name f := Modified f]> m) idx).2).
Proof.
  unfold index_diff at 1. simpl. rewrite index_diff_step_spec; simpl.
  destruct (decide (recorded m f)); [done|]. by rewrite index_diff_acc.
Qed.

(** The loop records exactly the entries it collects. *)
Lemma index_diff_records idx : forall m,
  (index_diff m idx).2 = record_all (index_diff m idx).1 m.
Proof.
  induction idx as [|f idx IH]; intros m; [done|].
  rewrite index_diff_cons. destruct (decide (recorded m f)); [apply IH|].
  simpl. apply IH.
Qed.

Lemma index_diff_unchanged m idx :
  Forall (recorded m) idx -> index_diff m idx = ([], m).
Proof.
  induction 1 as [|f idx Hf _ IH]; [done|].
  rewrite index_diff_cons. by rewrite decide_True.
Qed.

Lemma delta_spec_insert_fresh m n v idx :
  n ∉ Name <$> idx -> delta_spec (<[n := v]> m) idx = delta_spec m idx.
Proof.
  unfold delta_spec. induction idx as [|f idx IH]; intros Hn; [done|].
  rewrite fmap_cons in Hn. apply not_elem_of_cons in Hn as [Hne Hn].
  rewrite !filter_cons, IH by done.
  assert (recorded (<[n := v]> m) f <-> recorded m f) as Hiff.
  { unfold recorded. by rewrite lookup_insert_ne. }
  destruct (decide (~ recorded m f)).
  - rewrite decide_True; [done|]. by rewrite Hiff.
  - rewrite decide_False; [done|]. by rewrite Hiff.
Qed.

(** Without repeated names the loop collects the delta of the
    specification. *)
Lemma index_diff_NoDup idx : forall m,
  NoDup (Name <$> idx) -> (index_diff m idx).1 = delta_spec m idx.
Proof.
  induction idx as [|f idx IH]; intros m Hnd; [done|].
  rewrite fmap_cons in Hnd. apply NoDup_cons in Hnd as [Hnotin Hnd].
  rewrite index_diff_cons. unfold delta_spec at 1. rewrite filter_cons.
  destruct (decide (recorded m f)).
  - rewrite decide_False by tauto. by apply IH.
  - rewrite decide_True by done. simpl. f_equal.
    rewrite IH by done. by apply delta_spec_insert_fresh.
Qed.

Lemma record_all_lookup entries : forall m n,
  record_all entries m !! n =
  match last_modified n entries with
  | Some v => Some v
  | None => m !! n
  end.
Proof.
  induction entries as [|f entries IH]; intros m n; [done|].
  simpl. unfold record_all in *. simpl. rewrite IH.
  destruct (last_modified n entries); [done|].
  destruct (decide (Name f = n)) as [<-|Hne].
  - by rewrite lookup_insert_eq.
  - by rewrite lookup_insert_ne.
Qed.

Lemma last_modified_app n l1 l2 :
  last_modified n (l1 ++ l2) =
  match last_modified n l2 with
  | Some v => Some v
  | None => last_modified n l1
  end.
Proof.
  induction l1 as [|f l1 IH]; simpl.
  - by destruct (last_modified n l2).
  - rewrite IH. by destruct (last_modified n l2).
Qed.

Lemma last_modified_is_Some n entries :
  is_Some (last_modified n entries) <-> n ∈ Name <$> entries.
Proof.
  induction entries as [|f entries IH]; simpl.
  - split; [by intros [? ?] | intros H; inversion H].
  - rewrite ?fmap_cons, elem_of_cons, <- IH.
    destruct (last_modified n entries) as [v|].
    + split; eauto.
    + destruct (decide (Name f = n)) as [<-|Hne].
      * split; eauto.
      * split; [by intros [? ?] | intros [?|[? ?]]; done].
Qed.

Lemma last_modified_NoDup entries f :
  NoDup (Name <$> entries) -> f ∈ entries ->
  last_modified (Name f) entries = Some (Modified f).
Proof.
  induction entries as [|g entries IH]; intros Hnd Hin; [inversion Hin|].
  rewrite fmap_cons in Hnd. apply NoDup_cons in Hnd as [Hnotin Hnd].
  simpl. apply elem_of_cons in Hin as [->|Hin].
  - destruct (last_modified (Name g) entries) eqn:E.
    + exfalso. apply Hnotin, last_modified_is_Some. by rewrite E.
    + by rewrite decide_True.
  - by rewrite IH.
Qed.

Lemma NoDup_fmap_filter_names (P : FileInfo -> Prop) `{!forall f, Decision (P f)}
    (idx : list FileInfo) :
  NoDup (Name <$> idx) -> NoDup (Name <$> filter P idx).
Proof.
  induction idx as [|f idx IH]; intros Hnd; [done|].
  rewrite fmap_cons in Hnd. apply NoDup_cons in Hnd as [Hnotin Hnd].
  rewrite filter_cons. destruct (decide (P f)); [|by apply IH].
  rewrite fmap_cons. apply NoDup_cons. split; [|by apply IH].
  intros Hin. apply Hnotin.
  apply list_elem_of_fmap in Hin as (g & -> & Hg).
  apply list_elem_of_filter in Hg as [_ Hg].
  apply list_elem_of_fmap. eauto.
Qed.

(** * The atomic sections *)

(** ** Every operation is a sequence of its sections *)

























(** ** What no section undoes *)

Lemma m_read_fields {A} (zero : A) x c a c' :
  m_read zero x c = (a, c') ->
  closed c' = closed c /\ awaiting c' = awaiting c /\ chans c' = chans c.
Proof. intros H. by apply m_read_cases in H as [(_ & _ & ->)|(_ & [->| ->])]. Qed.

Lemma Index_critical_fields io idx c :
  closed (Index_critical io idx c).1 = closed c /\
  awaiting (Index_critical io idx c).1 = awaiting c /\
  chans (Index_critical io idx c).1 = chans c.
Proof. unfold Index_critical. by destruct (Index_prepare c idx) as [[ty idx'] sent']. Qed.

(** [Request] and [Ping] past their test, on a connection that was closed in
    between: the table is nil and the registration panics. *)
Lemma register_nil rc c : awaiting c = None -> register rc c = Failed PanicNilMap.
Proof. intros H. unfold register. by rewrite H. Qed.

Lemma Request_critical_nil io r c :
  awaiting c = None -> Request_critical io r c = Failed PanicNilMap.
Proof. intros H. unfold Request_critical, make_chan. by rewrite register_nil. Qed.

Lemma Ping_critical_nil io now c :
  awaiting c = None -> Ping_critical io now c = Failed PanicNilMap.
Proof. intros H. unfold Ping_critical, make_chan. by rewrite register_nil. Qed.

Lemma close_fields c c' evs :
  close c = Ok (c', evs) ->
  (closed c = true -> c' = c) /\ (closed c = false -> closed c' = true /\ awaiting c' = None).
Proof.
  unfold close. destruct (closed c); [by intros [= <- _]|].
  destruct (close_chans _ _); simpl; [|done]. by intros [= <- _].
Qed.

(** A closed connection without its table stays so. *)
Lemma atom_step_closed a c c' evs :
  closed c = true -> awaiting c = None -> atom_step a c = Ok (c', evs) ->
  closed c' = true /\ awaiting c' = None.
Proof.
  intros Hcl Haw. destruct a; simpl;
    rewrite ?Request_critical_nil, ?Ping_critical_nil by done; try done;
    try (intros [= <- _]; try done).
  - by destruct (Index_critical_fields io idx c) as (-> & -> & _).
  - intros H. apply close_fields in H as [H _]. by rewrite (H Hcl).
  - by destruct (m_read_fields tt None c _ _ (surjective_pairing _)) as (-> & -> & _).
  - unfold deliver_send. destruct (chan_send _ _ _); simpl; [|done]. by intros [= <- _].
  - unfold deliver_close. destruct (chan_close _ _); simpl; [|done]. by intros [= <- _].
  - simpl. by rewrite Haw.
Qed.

Lemma atoms_run_closed ats : forall c c' evs,
  closed c = true -> awaiting c = None -> atoms_run ats c = Ok (c', evs) ->
  closed c' = true /\ awaiting c' = None.
Proof.
  induction ats as [|a ats IH]; intros c c' evs Hcl Haw; simpl.
  - by intros [= <- _].
  - destruct (atom_step a c) as [[c1 evs1]|] eqn:E1; simpl; [|done].
    destruct (atom_step_closed a c c1 evs1 Hcl Haw E1) as [Hcl1 Haw1].
    destruct (atoms_run ats c1) as [[c2 evs2]|] eqn:E2; simpl; [|done].
    intros [= <- _]. by apply (IH c1 c2 evs2).
Qed.

(** A closed channel stays as it is: a send on it and a second close of it
    panic, and nothing else touches it. *)
Lemma chan_close_keeps rc st r chs chs' :
  chs !! rc = Some st -> ch_closed st = true ->
  chan_close r chs = Ok chs' -> chs' !! rc = Some st.
Proof.
  intros Hrc Hst. unfold chan_close. destruct (chs !! r) as [st'|] eqn:Hr; [|done].
  destruct (ch_closed st') eqn:Hc; [done|]. intros [= <-].
  rewrite list_lookup_insert_ne; [done|]. intros ->. congruence.
Qed.

Lemma chan_send_keeps rc st r v chs chs' :
  chs !! rc = Some st -> ch_closed st = true ->
  chan_send r v chs = Ok chs' -> chs' !! rc = Some st.
Proof.
  intros Hrc Hst. unfold chan_send. destruct (chs !! r) as [st'|] eqn:Hr; [|done].
  destruct (ch_closed st') eqn:Hc; [done|]. destruct (ch_val st'); [done|]. intros [= <-].
  rewrite list_lookup_insert_ne; [done|]. intros ->. congruence.
Qed.

Lemma close_chans_keeps rc st rcs : forall chs chs',
  chs !! rc = Some st -> ch_closed st = true ->
  close_chans rcs chs = Ok chs' -> chs' !! rc = Some st.
Proof.
  induction rcs as [|r rcs IH]; intros chs chs' Hrc Hst; simpl.
  - by intros [= <-].
  - destruct (chan_close r chs) as [chs1|] eqn:E; simpl; [|done].
    apply IH; [|done]. by apply (chan_close_keeps rc st r chs).
Qed.

Lemma Request_critical_chans io r c c3 rc e :
  Request_critical io r c = Ok (c3, rc, e) ->
  rc = length (chans c) /\ chans c3 = chans c ++ [new_chan] /\ closed c3 = closed c.
Proof.
  unfold Request_critical, make_chan, register. simpl. destruct (awaiting c); simpl; [|done].
  destruct (w_err _); [|destruct (flush io)]; by intros [= <- <- _].
Qed.

Lemma Ping_critical_chans io now c c3 rc e :
  Ping_critical io now c = Ok (c3, rc, e) ->
  rc = length (chans c) /\ chans c3 = chans c ++ [new_chan] /\ closed c3 = closed c.
Proof.
  unfold Ping_critical, make_chan, register. simpl. destruct (awaiting c); simpl; [|done].
  destruct (_ || _); by intros [= <- <- _].
Qed.

Lemma atom_step_closed_chan a c c' evs rc st :
  chans c !! rc = Some st -> ch_closed st = true ->
  atom_step a c = Ok (c', evs) -> chans c' !! rc = Some st.
Proof.
  intros Hrc Hst. destruct a; simpl; try (by intros [= <- _]).
  - intros [= <- _]. by destruct (Index_critical_fields io idx c) as (_ & _ & ->).
  - destruct (Request_critical io r c) as [[[c3 rc'] e]|] eqn:E; simpl; [|done].
    intros [= <- _]. apply Request_critical_chans in E as (_ & -> & _).
    by apply lookup_app_l_Some.
  - destruct (Ping_critical io now c) as [[[c3 rc'] e]|] eqn:E; simpl; [|done].
    intros [= <- _]. apply Ping_critical_chans in E as (_ & -> & _).
    by apply lookup_app_l_Some.
  - unfold close. destruct (closed c); [by intros [= <- _]|].
    destruct (close_chans _ _) as [chs|] eqn:E; simpl; [|done]. intros [= <- _]. simpl.
    by apply (close_chans_keeps rc st _ _ _ Hrc Hst E).
  - intros [= <- _].
    by destruct (m_read_fields tt None c _ _ (surjective_pairing _)) as (_ & _ & ->).
  - unfold deliver_send. destruct (chan_send _ _ _) as [chs|] eqn:E; simpl; [|done].
    intros [= <- _]. simpl. by apply (chan_send_keeps rc st _ _ _ _ Hrc Hst E).
  - unfold deliver_close. destruct (chan_close _ _) as [chs|] eqn:E; simpl; [|done].
    intros [= <- _]. simpl. by apply (chan_close_keeps rc st _ _ _ Hrc Hst E).
Qed.

Lemma atoms_run_closed_chan ats : forall c c' evs rc st,
  chans c !! rc = Some st -> ch_closed st = true ->
  atoms_run ats c = Ok (c', evs) -> chans c' !! rc = Some st.
Proof.
  induction ats as [|a ats IH]; intros c c' evs rc st Hrc Hst; simpl.
  - by intros [= <- _].
  - destruct (atom_step a c) as [[c1 evs1]|] eqn:E1; simpl; [|done].
    pose proof (atom_step_closed_chan a c c1 evs1 rc st Hrc Hst E1) as H1.
    destruct (atoms_run ats c1) as [[c2 evs2]|] eqn:E2; simpl; [|done].
    intros [= <- _]. by apply (IH c1 c2 evs2 rc st).
Qed.

(** ** [close] while a reply is being delivered *)

Lemma close_chans_open rcs : forall chs,
  NoDup rcs ->
  (forall rc, rc ∈ rcs -> exists st, chs !! rc = Some st /\ ch_closed st = false) ->
  exists chs',
    close_chans rcs chs = Ok chs' /\
    (forall rc, rc ∈ rcs -> exists st, chs' !! rc = Some st /\ ch_closed st = true).
Proof.
  induction rcs as [|rc rcs IH]; intros chs Hnd Hopen.
  - exists chs. split; [reflexivity|]. intros rc H. inversion H.
  - apply NoDup_cons in Hnd as [Hnotin Hnd].
    destruct (Hopen rc) as (st & Hrc & Hst); [left|].
    assert (Hlt : (rc < length chs)%nat) by (by apply lookup_lt_Some in Hrc).
    simpl. unfold chan_close at 1. rewrite Hrc, Hst. simpl.
    destruct (IH (<[rc := {| ch_val := ch_val st; ch_closed := true |}]> chs) Hnd)
      as (chs' & Hrun & Hin).
    { intros rc' Hrc'. rewrite list_lookup_insert_ne; [apply Hopen; by right|].
      intros ->. contradiction. }
    exists chs'. split; [exact Hrun|].
    intros rc' Hrc'. apply elem_of_cons in Hrc' as [->|Hrc']; [|by apply Hin].
    exists {| ch_val := ch_val st; ch_closed := true |}. split; [|done].
    eapply (close_chans_keeps rc _ rcs); [|done|exact Hrun].
    by apply list_lookup_insert_eq.
Qed.

Lemma close_chans_closed rc rcs : forall chs st,
  (forall r, r ∈ rcs -> is_Some (chs !! r)) ->
  rc ∈ rcs -> chs !! rc = Some st -> ch_closed st = true ->
  close_chans rcs chs = Failed PanicCloseClosed.
Proof.
  induction rcs as [|r rcs IH]; intros chs st Hall Hin Hrc Hst; [inversion Hin|].
  simpl. unfold chan_close at 1. destruct (Hall r) as [st' Hr]; [left|]. rewrite Hr.
  destruct (ch_closed st') eqn:Hc; [done|]. simpl.
  assert (Hne : r <> rc) by (intros ->; congruence).
  apply (IH _ st).
  - intros r' Hr'. destruct (Hall r') as [st'' H'']; [by right|].
    destruct (decide (r = r')) as [->|Hn].
    + rewrite list_lookup_insert_eq; [done|]. by apply lookup_lt_Some in Hr.
    + by rewrite list_lookup_insert_ne.
  - apply elem_of_cons in Hin as [->|Hin]; done.
  - by rewrite list_lookup_insert_ne.
  - done.
Qed.

(** The reader's send and close of a registered channel, and what they leave
    for [close]. *)
Lemma deliver_registered id rc res c :
  table_ok c -> awaiting_lookup id c = Some rc ->
  deliver_send rc res c =
    Ok (set_chans (<[rc := {| ch_val := Some res; ch_closed := false |}]> (chans c)) c) /\
  deliver_close rc
    (set_chans (<[rc := {| ch_val := Some res; ch_closed := false |}]> (chans c)) c) =
    Ok (set_chans (<[rc := {| ch_val := Some res; ch_closed := true |}]> (chans c)) c).
Proof.
  intros (H1 & H2 & H3 & H4 & H5) Hlk. unfold awaiting_lookup in Hlk.
  destruct (awaiting c) as [m|] eqn:Hm; [|done].
  assert (Hrc : chans c !! rc = Some new_chan) by eauto.
  assert (Hlt : (rc < length (chans c))%nat) by (by apply lookup_lt_Some in Hrc).
  unfold deliver_send, deliver_close, chan_send, chan_close. rewrite Hrc. simpl.
  split; [done|]. rewrite list_lookup_insert_eq by done. simpl.
  by rewrite list_insert_insert_eq.
Qed.

Lemma close_after_send id rc res c :
  table_ok c -> closed c = false -> awaiting_lookup id c = Some rc ->
  exists c3,
    close (set_chans (<[rc := {| ch_val := Some res; ch_closed := false |}]> (chans c)) c)
      = Ok (c3, [EvClose (ID c)]) /\
    deliver_close rc c3 = Failed PanicCloseClosed.
Proof.
  intros Ht Hcl Hlk. pose proof Ht as (H1 & H2 & H3 & H4 & H5).
  pose proof (NoDup_awaiting_chans c Ht) as Hnd.
  unfold close. simpl. rewrite Hcl.
  change (awaiting_chans (set_chans _ c)) with (awaiting_chans c).
  destruct (close_chans_open (awaiting_chans c)
              (<[rc := {| ch_val := Some res; ch_closed := false |}]> (chans c)) Hnd)
    as (chs & -> & Hin).
  { intros r Hr. apply elem_of_awaiting_chans in Hr as (m & i & Hm & Hi).
    assert (Hr : chans c !! r = Some new_chan) by eauto.
    destruct (decide (rc = r)) as [->|Hne].
    - exists {| ch_val := Some res; ch_closed := false |}. split; [|done].
      apply list_lookup_insert_eq. by apply lookup_lt_Some in Hr.
    - exists new_chan. split; [|done]. by rewrite list_lookup_insert_ne. }
  simpl. eexists. split; [reflexivity|].
  destruct (Hin rc) as (st & Hst & Hc).
  { apply elem_of_awaiting_chans. unfold awaiting_lookup in Hlk.
    destruct (awaiting c) as [m|]; [|done]. eauto. }
  unfold deliver_close, chan_close. simpl. by rewrite Hst, Hc.
Qed.

Lemma close_after_close_chan id rc res c :
  table_ok c -> closed c = false -> awaiting_lookup id c = Some rc ->
  close (set_chans (<[rc := {| ch_val := Some res; ch_closed := true |}]> (chans c)) c)
    = Failed PanicCloseClosed.
Proof.
  intros Ht Hcl Hlk. pose proof Ht as (H1 & H2 & H3 & H4 & H5).
  unfold close. simpl. rewrite Hcl.
  change (awaiting_chans (set_chans _ c)) with (awaiting_chans c).
  assert (Hrc : rc ∈ awaiting_chans c).
  { apply elem_of_awaiting_chans. unfold awaiting_lookup in Hlk.
    destruct (awaiting c) as [m|]; [|done]. eauto. }
  assert (Hlt : (rc < length (chans c))%nat).
  { apply elem_of_awaiting_chans in Hrc as (m & i & Hm & Hi).
    eapply lookup_lt_Some, H3; eauto. }
  rewrite (close_chans_closed rc _ _ {| ch_val := Some res; ch_closed := true |}); try done.
  - intros r Hr. apply elem_of_awaiting_chans in Hr as (m & i & Hm & Hi).
    assert (Hr : chans c !! r = Some new_chan) by eauto.
    apply lookup_lt_is_Some. rewrite length_insert. by apply lookup_lt_Some in Hr.
  - by apply list_lookup_insert_eq.
Qed.

(** * Closing a connection *)

(** C3 fails when [close] runs while the reader delivers a reply.  A
    [Request] is registered under identifier 0 on channel 0; the reader
    handles its Response: it finds the channel (line 276), sends the result
    (280) and closes the channel (281).  Before it deletes the entry (284),
    [close] is called, by anyone.  The connection is open and the entry is
    still in the table, so [close] sets the flag (213) and closes the
    channels of the table (215): closing channel 0 a second time panics, and
    line 220, the call of [Receiver.Close], is never reached, however many
    calls to [close] follow. *)
Lemma close_panics_during_delivery :
  let c := after [ARequest ioOK block_request] peer0 in
  let res := mkAsyncResult [x01] None in
  closed c = false /\ awaiting_lookup 0 c = Some 0%nat /\
  match deliver_send 0 res c with
  | Ok c1 =>
      match deliver_close 0 c1 with
      | Ok c2 =>
          fulfil 0 0 res c = Ok (deliver_delete 0 c2, []) /\
          closed c2 = false /\ awaiting_lookup 0 c2 = Some 0%nat /\
          Request_wait 0 c2 = Some ([x01], None) /\
          close c2 = Failed PanicCloseClosed /\
          run (repeat AClose 3) c2 = Failed PanicCloseClosed /\
          atoms_run [AtRequest ioOK block_request; AtSend 0 res; AtCloseChan 0; AtClose]
            peer0 = Failed PanicCloseClosed
      | Failed _ => False
      end
  | Failed _ => False
  end.
Proof. vm_compute. repeat split. Qed.

(** Away from that window [close] is idempotent.  On an open connection in
    which every channel of the table is open and unused, [n >= 1] calls set
    the flag, close each channel of the table once and no other, drop the
    table and call [Receiver.Close] once; every call after the first
    returns the state it was given. *)
Lemma close_idempotent (c : Connection) (n : nat) :
  table_ok c -> closed c = false -> (1 <= n)%nat ->
  exists c1,
    run (repeat AClose n) c = Ok (c1, [EvClose (ID c)]) /\
    close c = Ok (c1, [EvClose (ID c)]) /\
    closed c1 = true /\ awaiting c1 = None /\
    (forall rc, rc ∈ awaiting_chans c ->
       chans c !! rc = Some new_chan /\ chans c1 !! rc = Some closed_chan) /\
    (forall rc, rc ∉ awaiting_chans c -> chans c1 !! rc = chans c !! rc) /\
    close c1 = Ok (c1, []).
Proof.
  intros Ht Hcl Hn.
  destruct (close_open c Ht Hcl) as (chs & Hc & _ & Hin & Hout).
  eexists. split; [|split; [exact Hc|]].
  - destruct n as [|n]; [lia|]. simpl. rewrite Hc. simpl.
    by rewrite run_repeat_close_closed.
  - split; [done|]. split; [done|]. split; [|split; [exact Hout|by apply close_closed]].
    intros rc Hrc. split; [|by apply Hin].
    apply elem_of_awaiting_chans in Hrc as (m & id & Hm & Hid).
    destruct Ht as (_ & _ & H3 & _). eauto.
Qed.

(** C2, as the code has it.  On an open connection in which no reply is
    being delivered, so that every channel of the pending-call table is open
    and unused, [close] returns, drops the table and closes the channel of
    every call that is registered in the table at that moment: the caller
    blocked in [Request] returns [ErrClosed], the caller blocked in [Ping]
    returns [ok = false].  Whatever sections of whatever goroutines run
    afterwards, as long as none of them panics, the channel stays as [close]
    left it, so each caller returns this once and for all, and the table
    stays dropped. *)
Theorem close_wakes_registered_callers (c : Connection) :
  table_ok c -> closed c = false ->
  exists c1,
    close c = Ok (c1, [EvClose (ID c)]) /\
    closed c1 = true /\ awaiting c1 = None /\
    (forall id rc, awaiting_lookup id c = Some rc ->
       Request_wait rc c = None /\
       (forall t0 now, Ping_wait rc t0 now c = None) /\
       Request_wait rc c1 = Some ([], Some ErrClosed) /\
       (forall t0 now, Ping_wait rc t0 now c1 = Some (Since now t0, false)) /\
       (forall ats c2 evs, atoms_run ats c1 = Ok (c2, evs) ->
          Request_wait rc c2 = Some ([], Some ErrClosed) /\
          (forall t0 now, Ping_wait rc t0 now c2 = Some (Since now t0, false)))) /\
    (forall ats c2 evs, atoms_run ats c1 = Ok (c2, evs) ->
       closed c2 = true /\ awaiting c2 = None).
Proof.
  intros Ht Hcl.
  destruct (close_open c Ht Hcl) as (chs & Hc & _ & Hin & _).
  eexists. split; [exact Hc|]. split; [done|]. split; [done|]. split.
  - intros id rc Hlk. unfold awaiting_lookup in Hlk.
    destruct (awaiting c) as [m|] eqn:Hm; [|done].
    assert (Hopen : chans c !! rc = Some new_chan).
    { destruct Ht as (_ & _ & H3 & _). eauto. }
    assert (Hclosed : chs !! rc = Some closed_chan).
    { apply Hin, elem_of_awaiting_chans. eauto. }
    unfold Request_wait, Ping_wait, chan_recv; simpl.
    rewrite Hopen, Hclosed; simpl. repeat split.
    all: apply (atoms_run_closed_chan ats _ c2 evs rc closed_chan) in H; try done.
    all: by rewrite H.
  - intros ats c2 evs Hrun. by apply (atoms_run_closed ats _ c2 evs) in Hrun.
Qed.

Lemma close_wakes_registered_callers_witness :
  let c := after [ARequest ioOK block_request; APing ioOK 7] peer0 in
  table_ok c /\ closed c = false /\
  exists c1,
    close c = Ok (c1, [EvClose (ID c)]) /\
    closed c1 = true /\ awaiting c1 = None /\
    (forall id rc, awaiting_lookup id c = Some rc ->
       Request_wait rc c = None /\
       (forall t0 now, Ping_wait rc t0 now c = None) /\
       Request_wait rc c1 = Some ([], Some ErrClosed) /\
       (forall t0 now, Ping_wait rc t0 now c1 = Some (Since now t0, false)) /\
       (forall ats c2 evs, atoms_run ats c1 = Ok (c2, evs) ->
          Request_wait rc c2 = Some ([], Some ErrClosed) /\
          (forall t0 now, Ping_wait rc t0 now c2 = Some (Since now t0, false)))) /\
    (forall ats c2 evs, atoms_run ats c1 = Ok (c2, evs) ->
       closed c2 = true /\ awaiting c2 = None).
Proof.
  intros c.
  assert (Ht : table_ok c).
  { destruct (run_safe [ARequest ioOK block_request; APing ioOK 7] peer0
                (wf_NewConnection _ _ _)) as (c' & evs & Hrun & Hwf).
    unfold c, after. rewrite Hrun. apply Hwf. }
  split; [exact Ht|]. split; [reflexivity|].
  exact (close_wakes_registered_callers c Ht eq_refl).
Defined.

(** C2, as stated, fails when an identifier is used again while its first
    call is still waiting.  The first [Request] takes identifier 0 and
    blocks on channel 0; 4095 calls to [Index] bring [nextId] back to 0; a
    second [Request] registers channel 1 under identifier 0 and so drops
    channel 0 from the table.  [close] then wakes the second caller only:
    the first one is still blocked, on a closed connection with no table. *)
Lemma close_leaves_caller_blocked :
  let acts := ARequest ioOK block_request :: repeat (AIndex ioOK []) 4095 ++
              [ARequest ioOK block_request] in
  Request ioOK block_request peer0 =
    Ok (after [ARequest ioOK block_request] peer0, [], RequestAwait 0%nat) /\
  match run acts peer0 with
  | Ok (c, _) =>
      closed c = false /\ Request_wait 0%nat c = None /\
      match close c with
      | Ok (c1, evs) =>
          evs = [EvClose "peer"] /\ closed c1 = true /\ awaiting c1 = None /\
          Request_wait 1%nat c1 = Some ([], Some ErrClosed) /\
          Request_wait 0%nat c1 = None
      | Failed _ => False
      end
  | Failed _ => False
  end.
Proof. vm_compute. repeat split. Qed.

(** * Message identifiers *)

Lemma run_sends sends : forall c,
  wf c -> closed c = false ->
  exists c',
    run (send_action <$> sends) c = Ok (c', []) /\
    wf c' /\ closed c' = false /\
    nextId c' = (nextId c + Z.of_nat (length sends)) mod 4096.
Proof.
  induction sends as [|s sends IH]; intros c Hwf Hcl.
  - exists c. simpl. split; [done|]. split; [done|]. split; [done|].
    destruct Hwf as [(_ & _ & _ & _ & Hid) _].
    rewrite Z.add_0_r, Z.mod_small; lia.
  - assert (exists c1, step (send_action s) c = Ok (c1, []) /\ wf c1 /\
              closed c1 = false /\ nextId c1 = next_id (nextId c))
      as (c1 & Hs & Hwf1 & Hcl1 & Hid1).
    { destruct s as [r|now]; simpl.
      - destruct (Request_sent r c Hwf Hcl) as (m & c1 & _ & -> & ? & ? & ? & _).
        by exists c1.
      - destruct (Ping_sent now c Hwf Hcl) as (m & c1 & _ & -> & ? & ? & ? & _).
        by exists c1. }
    destruct (IH c1 Hwf1 Hcl1) as (c' & Hrun & Hwf' & Hcl' & Hid').
    exists c'. rewrite fmap_cons. cbn [run]. rewrite Hs. simpl. rewrite Hrun. simpl.
    split; [done|]. split; [done|]. split; [done|].
    rewrite Hid', Hid1, next_id_mod, Zplus_mod_idemp_l.
    f_equal. cbn [length]. lia.
Qed.

(** C6.  A correlated message that is written moves [nextId] on by one
    modulo 4096, be it a [Request] or a [Ping]; 4096 of them in a row, from
    any starting value, bring [nextId] back to where it started; and in every
    state a connection can reach [nextId] lies in 0..0xFFF. *)
Theorem nextId_wraps_at_4096 (c : Connection) :
  wf c -> closed c = false ->
  (forall r, exists c' rc,
     Request ioOK r c = Ok (c', [], RequestAwait rc) /\
     nextId c' = (nextId c + 1) mod 4096) /\
  (forall now, exists c' rc,
     Ping ioOK now c = Ok (c', [], PingAwait rc now) /\
     nextId c' = (nextId c + 1) mod 4096) /\
  (forall sends, length sends = 4096%nat ->
     exists c', run (send_action <$> sends) c = Ok (c', []) /\ nextId c' = nextId c) /\
  (forall acts c' evs, run acts c = Ok (c', evs) -> 0 <= nextId c' <= 0xfff).
Proof.
  intros Hwf Hcl. split; [|split; [|split]].
  - intros r. destruct (Request_sent r c Hwf Hcl) as (m & c' & _ & H & _ & _ & Hid & _).
    exists c', (length (chans c)). by rewrite Hid, next_id_mod.
  - intros now. destruct (Ping_sent now c Hwf Hcl) as (m & c' & _ & H & _ & _ & Hid & _).
    exists c', (length (chans c)). by rewrite Hid, next_id_mod.
  - intros sends Hlen.
    destruct (run_sends sends c Hwf Hcl) as (c' & Hrun & _ & _ & Hid).
    exists c'. split; [done|]. rewrite Hid, Hlen.
    destruct Hwf as [(_ & _ & _ & _ & Hrange) _].
    change (Z.of_nat 4096) with (1 * 4096). rewrite Z.mod_add by lia.
    apply Z.mod_small. lia.
  - intros acts c' evs Hrun.
    destruct (run_safe acts c Hwf) as (c2 & evs2 & Hrun2 & [(_ & _ & _ & _ & Hrange) _]).
    rewrite Hrun in Hrun2. injection Hrun2 as <- <-. lia.
Qed.

Lemma nextId_wraps_at_4096_witness :
  let c := after [AIndex ioOK [file "a" 1]; APing ioOK 3] peer0 in
  wf c /\ closed c = false /\ nextId c = 2 /\
  (forall sends, length sends = 4096%nat ->
     exists c', run (send_action <$> sends) c = Ok (c', []) /\ nextId c' = nextId c).
Proof.
  intros c.
  assert (Hwf : wf c).
  { destruct (run_safe [AIndex ioOK [file "a" 1]; APing ioOK 3] peer0
                (wf_NewConnection _ _ _)) as (c' & evs & Hrun & Hwf).
    unfold c, after. rewrite Hrun. exact Hwf. }
  split; [exact Hwf|]. split; [reflexivity|]. split; [reflexivity|].
  exact (proj1 (proj2 (proj2 (nextId_wraps_at_4096 c Hwf eq_refl)))).
Defined.

(** * Sending an index *)

Lemma Index_prepare_first c idx :
  indexSent c = None -> Index_prepare c idx = (messageTypeIndex, idx, index_full idx).
Proof. intros H. unfold Index_prepare. by rewrite H. Qed.

Lemma Index_prepare_update c sent idx :
  indexSent c = Some sent ->
  Index_prepare c idx =
  (messageTypeIndexUpdate, (index_diff sent idx).1, (index_diff sent idx).2).
Proof. intros H. unfold Index_prepare. rewrite H. by destruct (index_diff sent idx). Qed.

Lemma header_type id ty :
  0 <= ty < 256 -> msgType (decodeHeader (encodeHeader (mkHeader 0 id ty))) = ty.
Proof.
  intros H. rewrite decodeHeader_encodeHeader. simpl.
  change 0xff with (Z.ones 8). apply land_ones_small; lia.
Qed.

(** C1, as the code has it: the claim holds for every list whose names are
    pairwise distinct, on every connection whose writer has no latched
    error. *)
Theorem Index_sends_delta (c : Connection) (idx : list FileInfo) :
  w_err (mwriter c) = None -> NoDup (Name <$> idx) -> Index_as_claimed c idx.
Proof.
  intros Hw Hnd. unfold Index_as_claimed.
  eexists _, _, _. split; [by apply Index_sent|]. simpl. split; [reflexivity|].
  destruct (indexSent c) as [sent|] eqn:Hs.
  - rewrite (Index_prepare_update _ _ _ Hs). simpl.
    split; [by apply header_type|]. split; [by apply index_diff_NoDup|].
    by rewrite index_diff_records, index_diff_NoDup.
  - rewrite (Index_prepare_first _ _ Hs). simpl.
    split; [by apply header_type|]. split; [done|].
    eexists. split; [reflexivity|]. unfold index_full. split.
    + intros f Hf. fold (record_all idx ∅). rewrite record_all_lookup.
      by rewrite last_modified_NoDup.
    + intros n Hn. fold (record_all idx ∅). rewrite record_all_lookup.
      destruct (last_modified n idx) eqn:E; [|done].
      exfalso. apply Hn, last_modified_is_Some. by rewrite E.
Qed.

Lemma Index_sends_delta_witness :
  let c := after [AIndex ioOK [file "a" 1; file "b" 2]] peer0 in
  let idx := [file "a" 1; file "b" 3; file "c" 4] in
  w_err (mwriter c) = None /\ NoDup (Name <$> idx) /\
  delta_spec {["a" := 1; "b" := 2]} idx = [file "b" 3; file "c" 4] /\
  Index_as_claimed c idx.
Proof.
  intros c idx.
  assert (Hnd : NoDup (Name <$> idx)).
  { apply (bool_decide_unpack _). vm_compute. exact I. }
  split; [reflexivity|]. split; [exact Hnd|]. split; [reflexivity|].
  exact (Index_sends_delta c idx eq_refl Hnd).
Defined.

(** C1, as stated, fails on a list that repeats a name: the loop compares
    each entry with the map as the earlier entries of the same list have
    left it.  With "a" recorded at 1, both entries of the list differ from
    the recorded time, and the frame carries one of them. *)
Lemma Index_repeated_name_not_as_claimed :
  ~ Index_as_claimed (after [AIndex ioOK [file "a" 1]] peer0) [file "a" 2; file "a" 2].
Proof.
  intros (c' & word & entries & HI & Hout & H).
  rewrite Index_sent in HI by reflexivity.
  injection HI as <-. simpl in Hout.
  injection Hout as _ Hent.
  vm_compute in Hent. vm_compute in H.
  destruct H as (_ & H & _). rewrite <- Hent in H. discriminate H.
Qed.

(** After a call with a list of pairwise distinct names every entry of the
    list is recorded. *)
Lemma Index_prepare_records c idx :
  NoDup (Name <$> idx) -> Forall (recorded (Index_prepare c idx).2) idx.
Proof.
  intros Hnd. apply Forall_forall. intros f Hf. unfold recorded.
  destruct (indexSent c) as [sent|] eqn:Hs.
  - rewrite (Index_prepare_update _ _ _ Hs). simpl.
    rewrite index_diff_records, record_all_lookup, index_diff_NoDup by done.
    destruct (decide (recorded sent f)) as [Hr|Hr].
    + destruct (last_modified (Name f) (delta_spec sent idx)) as [v|] eqn:E; [|done].
      exfalso.
      assert (Hin : Name f ∈ Name <$> delta_spec sent idx)
        by (apply last_modified_is_Some; by rewrite E).
      apply list_elem_of_fmap in Hin as (g & Hname & Hg).
      apply list_elem_of_filter in Hg as [Hng Hg].
      assert (g = f) as ->; [|done].
      apply list_elem_of_lookup in Hg as [i Hi]. apply list_elem_of_lookup in Hf as [j Hj].
      assert (i = j) as ->; [|congruence].
      eapply NoDup_lookup; [exact Hnd | |]; rewrite list_lookup_fmap.
      * by rewrite Hi.
      * rewrite Hj. simpl. by rewrite Hname.
    + rewrite (last_modified_NoDup _ f); [done | |].
      * unfold delta_spec. by apply NoDup_fmap_filter_names.
      * by apply list_elem_of_filter.
  - rewrite (Index_prepare_first _ _ Hs). simpl. unfold index_full.
    fold (record_all idx ∅). rewrite record_all_lookup. by rewrite last_modified_NoDup.
Qed.

(** C10, as the code has it.  On an open connection whose transport takes
    the writes, every call to [Index] appends exactly one frame, a header
    word carrying the current [nextId] and one list of entries, and leaves
    the connection open.  When every entry of the list is already recorded
    with its modified time the frame is an IndexUpdate with no entries; this
    is so for a second call with the same list when its names are pairwise
    distinct.  [nextId] moves on by one modulo 4096, on any transport, and
    the next [Request] is registered under the identifier after the one the
    index frame took. *)
Theorem Index_always_takes_an_id (c : Connection) (idx : list FileInfo) :
  wf c -> closed c = false ->
  (exists c' ty entries,
     Index ioOK idx c = Ok (c', []) /\ closed c' = false /\
     w_out (mwriter c') = w_out (mwriter c) ++ index_frame (nextId c) ty entries /\
     decodeHeader (encodeHeader (mkHeader 0 (nextId c) ty)) = mkHeader 0 (nextId c) ty /\
     nextId c' = (nextId c + 1) mod 4096 /\
     (forall sent, indexSent c = Some sent -> Forall (recorded sent) idx ->
        ty = messageTypeIndexUpdate /\ entries = []) /\
     (NoDup (Name <$> idx) ->
        exists c'',
          Index ioOK idx c' = Ok (c'', []) /\
          w_out (mwriter c'') =
            w_out (mwriter c') ++ index_frame (nextId c') messageTypeIndexUpdate [] /\
          nextId c'' = (nextId c + 2) mod 4096) /\
     (forall r, exists c'' rc m,
        Request ioOK r c' = Ok (c'', [], RequestAwait rc) /\
        awaiting c'' = Some m /\ m !! ((nextId c + 1) mod 4096) = Some rc)) /\
  (forall io c' evs, Index io idx c = Ok (c', evs) -> nextId c' = (nextId c + 1) mod 4096).
Proof.
  intros Hwf Hcl. split.
  - destruct Hwf as [Ht Hh]. destruct (Hh Hcl) as [Hw Hr].
    destruct (Index_safe ioOK idx c (conj Ht Hh)) as (c' & evs & HI & Hwf').
    rewrite (Index_sent idx c Hw) in HI. injection HI as <- <-.
    eexists _, _, _. split; [by apply Index_sent|]. simpl.
    split; [done|]. split; [reflexivity|].
    assert (Hty : 0 <= (Index_prepare c idx).1.1 < 256).
    { unfold Index_prepare. destruct (indexSent c) as [sent|].
      - destruct (index_diff sent idx). simpl. unfold messageTypeIndexUpdate. lia.
      - simpl. unfold messageTypeIndex. lia. }
    destruct Ht as (_ & _ & _ & _ & Hid).
    split; [apply decode_encode; lia|].
    split; [apply next_id_mod|]. split; [|split].
    + intros sent Hs Hall. rewrite (Index_prepare_update _ _ _ Hs), index_diff_unchanged by done.
      done.
    + intros Hnd. set (c' := set_nextId _ _) in *.
      rewrite (Index_sent idx c') by done.
      rewrite (Index_prepare_update c' (Index_prepare c idx).2 idx) by done.
      rewrite index_diff_unchanged by (by apply Index_prepare_records).
      eexists. split; [reflexivity|]. simpl. split; [reflexivity|].
      rewrite !next_id_mod, Zplus_mod_idemp_l. f_equal. lia.
    + intros r.
      destruct (Request_sent r _ Hwf' Hcl) as (m & c'' & _ & HR & _ & _ & _ & Haw & _).
      simpl in *. eexists _, _, _. split; [exact HR|]. split; [exact Haw|].
      rewrite next_id_mod. apply lookup_insert_eq.
  - intros io c' evs HI. rewrite <- next_id_mod. by eapply Index_nextId.
Qed.

Lemma Index_always_takes_an_id_witness :
  let idx := [file "a" 1; file "b" 2] in
  wf peer0 /\ closed peer0 = false /\ NoDup (Name <$> idx) /\
  exists c' c'',
    Index ioOK idx peer0 = Ok (c', []) /\
    w_out (mwriter c') = index_frame 0 messageTypeIndex idx /\
    Index ioOK idx c' = Ok (c'', []) /\
    w_out (mwriter c'') = w_out (mwriter c') ++ index_frame 1 messageTypeIndexUpdate [] /\
    nextId c'' = 2.
Proof.
  intros idx.
  assert (Hnd : NoDup (Name <$> idx)).
  { apply (bool_decide_unpack _). vm_compute. exact I. }
  split; [apply wf_NewConnection|]. split; [reflexivity|]. split; [exact Hnd|].
  destruct (proj1 (Index_always_takes_an_id peer0 idx (wf_NewConnection _ _ _) eq_refl))
    as (c' & ty & entries & H1 & _ & _ & _ & _ & _ & H2 & _).
  destruct (H2 Hnd) as (c'' & H3 & H4 & H5).
  exists c', c''. split; [exact H1|].
  rewrite Index_sent in H1 by reflexivity. injection H1 as <-.
  split; [reflexivity|]. split; [exact H3|]. split; [exact H4 | exact H5].
Defined.

(** C10, as stated, fails for a list that repeats a name with two modified
    times: the second call with the same list finds each of the two entries
    changed by the other, and its frame carries both. *)
Lemma repeated_list_is_sent_again :
  let idx := [file "a" 1; file "a" 2] in
  match run [AIndex ioOK idx; AIndex ioOK idx] peer0 with
  | Ok (c, _) =>
      w_out (mwriter c) =
        index_frame 0 messageTypeIndex idx ++ index_frame 1 messageTypeIndexUpdate idx /\
      idx <> []
  | Failed _ => False
  end.
Proof. vm_compute. split; [reflexivity | discriminate]. Qed.

(** * What [indexSent] records *)

Lemma close_indexSent c c' evs : close c = Ok (c', evs) -> indexSent c' = indexSent c.
Proof.
  unfold close. destruct (closed c); [by intros [= <- _]|].
  destruct (close_chans _ _); simpl; [|done]. by intros [= <- _].
Qed.

Lemma m_read_indexSent {A} (zero : A) x c a c' :
  m_read zero x c = (a, c') -> indexSent c' = indexSent c.
Proof. intros H. by apply m_read_cases in H as [(_ & _ & ->)|(_ & [->| ->])]. Qed.

Lemma fulfil_indexSent id rc res c c' evs :
  fulfil id rc res c = Ok (c', evs) -> indexSent c' = indexSent c.
Proof.
  unfold fulfil. destruct (chan_send _ _ _) as [chs|]; simpl; [|done].
  destruct (chan_close _ _) as [chs'|]; simpl; [|done]. by intros [= <- _].
Qed.

Lemma Request_indexSent io r c c' evs call :
  Request io r c = Ok (c', evs, call) -> indexSent c' = indexSent c.
Proof.
  unfold Request, isClosed, make_chan, register. destruct (closed c); [by intros [= <- _ _]|].
  simpl. destruct (awaiting c); simpl; [|done].
  destruct (w_err _); [|destruct (flush io)]; intros H.
  - destruct (close _) as [[c4 evs4]|] eqn:E; simpl in H; [|done].
    injection H as <- _ _. by apply close_indexSent in E.
  - destruct (close _) as [[c4 evs4]|] eqn:E; simpl in H; [|done].
    injection H as <- _ _. by apply close_indexSent in E.
  - by injection H as <- _ _.
Qed.

Lemma Ping_indexSent io now c c' evs call :
  Ping io now c = Ok (c', evs, call) -> indexSent c' = indexSent c.
Proof.
  unfold Ping, isClosed, make_chan, register. destruct (closed c); [by intros [= <- _ _]|].
  simpl. destruct (awaiting c); simpl; [|done].
  destruct (_ || _); intros H.
  - destruct (close _) as [[c4 evs4]|] eqn:E; simpl in H; [|done].
    injection H as <- _ _. by apply close_indexSent in E.
  - by injection H as <- _ _.
Qed.

Lemma processRequest_go_indexSent io id r c c' evs :
  processRequest_go io id r c = Ok (c', evs) -> indexSent c' = indexSent c.
Proof.
  unfold processRequest_go. destruct (Model_Request _ _ _ _ _ _) as [data e].
  destruct (_ || _); intros H.
  - destruct (close _) as [[c4 evs4]|] eqn:E; simpl in H; [|done].
    injection H as <- _. by apply close_indexSent in E.
  - by injection H as <- _.
Qed.

Lemma dispatch_indexSent hdr inp io c c' evs :
  dispatch hdr inp io c = Ok (c', evs) -> indexSent c' = indexSent c.
Proof.
  assert (Hfiles : forall ev,
    (let '(files, c1) := readIndex inp c in
     if failed (mreader_err c1) then close c1 else Ok (c1, [ev c1 files])) = Ok (c', evs) ->
    indexSent c' = indexSent c).
  { intros ev. destruct (readIndex inp c) as [files c1] eqn:R.
    apply m_read_indexSent in R. destruct (failed _); intros H.
    - apply close_indexSent in H. congruence.
    - injection H as <- _. done. }
  assert (Hfulfil : forall res c1,
    match awaiting_lookup (msgID hdr) c1 with
    | Some rc => fulfil (msgID hdr) rc res c1
    | None => Ok (c1, [])
    end = Ok (c', evs) -> indexSent c' = indexSent c1).
  { intros res c1. destruct (awaiting_lookup _ _); intros H.
    - by apply fulfil_indexSent in H.
    - by injection H as <- _. }
  destruct (decide (1 <= msgType hdr <= 6)) as [Hty|Hty];
    [|rewrite dispatch_unknown by done; apply close_indexSent].
  assert (msgType hdr = 1 \/ msgType hdr = 2 \/ msgType hdr = 3 \/ msgType hdr = 4 \/
          msgType hdr = 5 \/ msgType hdr = 6) as [E|[E|[E|[E|[E|E]]]]] by lia;
    unfold dispatch; rewrite E.
  - apply (Hfiles (fun c1 files => EvIndex (ID c1) files)).
  - unfold processRequest. destruct (readRequest inp c) as [req c1] eqn:R.
    apply m_read_indexSent in R. intros H.
    destruct (failed (mreader_err c1)).
    + destruct (close c1) as [[c2 evs2]|] eqn:E2; simpl in H; [|done].
      apply close_indexSent in E2. destruct (_ || _).
      * destruct (close c2) as [[c3 evs3]|] eqn:E3; simpl in H; [|done].
        apply close_indexSent in E3. injection H as <- _. congruence.
      * injection H as <- _. congruence.
    + simpl in H. destruct (_ || _).
      * destruct (close c1) as [[c3 evs3]|] eqn:E3; simpl in H; [|done].
        apply close_indexSent in E3. injection H as <- _. congruence.
      * injection H as <- _. congruence.
  - destruct (readResponse inp c) as [data c1] eqn:R.
    apply m_read_indexSent in R. destruct (failed _); intros H.
    + apply close_indexSent in H. congruence.
    + apply Hfulfil in H. congruence.
  - destruct (_ || _); intros H.
    + by apply close_indexSent in H.
    + by injection H as <- _.
  - apply Hfulfil.
  - apply (Hfiles (fun c1 files => EvIndexUpdate (ID c1) files)).
Qed.

Lemma readerLoop_iter_indexSent now inp io c c' evs :
  readerLoop_iter now inp io c = Ok (c', evs) -> indexSent c' = indexSent c.
Proof.
  unfold readerLoop_iter, isClosed. destruct (closed c); [by intros [= <- _]|].
  destruct (readHeader inp c) as [hdr c1] eqn:R. apply m_read_indexSent in R.
  destruct (failed _); [|destruct (negb _)]; intros H.
  - apply close_indexSent in H. congruence.
  - apply close_indexSent in H. congruence.
  - apply dispatch_indexSent in H. simpl in H. congruence.
Qed.

Lemma pingerLoop_iter_indexSent now io pong c c' evs :
  pingerLoop_iter now io pong c = Ok (c', evs) -> indexSent c' = indexSent c.
Proof.
  unfold pingerLoop_iter, isClosed. destruct (closed c); [by intros [= <- _]|].
  destruct (_ >? _); [|by intros [= <- _]].
  assert (Hping : forall c1 evs1 arrived,
    pinger_ping now io pong c = Ok (c1, evs1, arrived) -> indexSent c1 = indexSent c).
  { intros c1 evs1 arrived. unfold pinger_ping.
    destruct (Ping io now c) as [[[c0 evs0] call]|] eqn:EP; simpl; [|done].
    apply Ping_indexSent in EP.
    destruct call as [d ok|rc t0]; [by intros [= <- _ _]|].
    destruct pong as [d|]; [|by intros [= <- _ _]].
    destruct (_ && _); [|by intros [= <- _ _]].
    destruct (readerLoop_iter _ _ _ _) as [[c2 evs2]|] eqn:ER; simpl; [|done].
    apply readerLoop_iter_indexSent in ER.
    destruct (Ping_wait _ _ _ _) as [[lat [|]]|]; intros [= <- _ _]; congruence. }
  destruct (pinger_ping now io pong c) as [[[c1 evs1] arrived]|]; simpl; [|done].
  pose proof (Hping _ _ _ eq_refl) as EP.
  destruct arrived as [lat|]; simpl.
  - intros [= <- _]. simpl. congruence.
  - destruct (close c1) as [[c2 evs2]|] eqn:EC; simpl; [|done].
    apply close_indexSent in EC. intros [= <- _]. congruence.
Qed.

Lemma step_indexSent a c c' evs :
  step a c = Ok (c', evs) ->
  indexSent c' =
  match a with
  | AIndex _ idx => Some (Index_prepare c idx).2
  | _ => indexSent c
  end.
Proof.
  destruct a; simpl.
  - rewrite Index_unfold. simpl. destruct (_ || _); intros H.
    + by apply close_indexSent in H.
    + by injection H as <- _.
  - destruct (Request io r c) as [[[c1 evs1] call]|] eqn:E; simpl; [|done].
    intros [= <- _]. by apply Request_indexSent in E.
  - destruct (Ping io now c) as [[[c1 evs1] call]|] eqn:E; simpl; [|done].
    intros [= <- _]. by apply Ping_indexSent in E.
  - apply readerLoop_iter_indexSent.
  - apply processRequest_go_indexSent.
  - apply pingerLoop_iter_indexSent.
  - apply close_indexSent.
Qed.

Lemma reflects_intro c sent frames :
  indexSent c = Some sent -> frames <> [] ->
  (forall n, sent !! n = last_modified n (concat frames)) ->
  reflects c frames.
Proof.
  intros Hs Hne Hlk. unfold reflects. rewrite Hs. split; [done|]. split; [|done].
  intros n. rewrite Hlk. apply last_modified_is_Some.
Qed.

Lemma step_reflects a c c' evs frames :
  reflects c frames -> step a c = Ok (c', evs) ->
  reflects c' (frames ++ match a with
                         | AIndex _ idx => [(Index_prepare c idx).1.2]
                         | _ => []
                         end).
Proof.
  intros Hr Hs. apply step_indexSent in Hs.
  assert (Hsame : indexSent c' = indexSent c -> reflects c' (frames ++ [])).
  { intros E. rewrite app_nil_r. unfold reflects in *. by rewrite E. }
  destruct a; try by apply Hsame.
  unfold reflects in Hr. destruct (indexSent c) as [sent|] eqn:E.
  - destruct Hr as (Hne & _ & Hlk).
    rewrite (Index_prepare_update _ _ _ E) in *. simpl in *.
    eapply reflects_intro; [exact Hs | by destruct frames |].
    intros n. rewrite concat_app, last_modified_app. simpl. rewrite app_nil_r.
    rewrite index_diff_records, record_all_lookup, Hlk. done.
  - subst frames. rewrite (Index_prepare_first _ _ E) in *. simpl in *.
    eapply reflects_intro; [exact Hs | done |].
    intros n. simpl. rewrite app_nil_r. unfold index_full. fold (record_all idx ∅).
    rewrite record_all_lookup. by destruct (last_modified n idx).
Qed.

Lemma run_reflects acts : forall c frames,
  wf c -> reflects c frames ->
  exists c' evs,
    run acts c = Ok (c', evs) /\ wf c' /\
    reflects c' (frames ++ index_frames acts c).
Proof.
  induction acts as [|a acts IH]; intros c frames Hwf Hr; simpl.
  - exists c, []. by rewrite app_nil_r.
  - destruct (step_safe a c Hwf) as (c1 & evs1 & Hs & Hwf1). rewrite Hs. simpl.
    pose proof (step_reflects _ _ _ _ _ Hr Hs) as Hr1.
    destruct (IH c1 _ Hwf1 Hr1) as (c' & evs' & -> & Hwf' & Hr'). simpl.
    exists c', (evs1 ++ evs'). split; [done|]. split; [done|].
    by rewrite app_assoc.
Qed.

(** C4, as the code has it.  At every point of the life of a connection,
    [indexSent] is absent if [Index] was never called, and otherwise has
    exactly the names of the entries that the calls to [Index] so far have
    handed to the writer in Index and IndexUpdate frames, whether or not the
    writes went through, each with the modified time of the last such entry;
    and no later step removes a name. *)
Theorem indexSent_reflects_frames (nodeID : string) (rcv : Model) (t0 : Z)
    (acts : list Action) :
  exists c evs,
    run acts (NewConnection nodeID rcv t0) = Ok (c, evs) /\
    reflects c (index_frames acts (NewConnection nodeID rcv t0)) /\
    (forall more sent n,
       indexSent c = Some sent -> is_Some (sent !! n) ->
       exists c' evs' sent',
         run more c = Ok (c', evs') /\ indexSent c' = Some sent' /\
         is_Some (sent' !! n)).
Proof.
  destruct (run_reflects acts (NewConnection nodeID rcv t0) [])
    as (c & evs & Hrun & Hwf & Hr); [apply wf_NewConnection | done |].
  simpl in Hr. exists c, evs. split; [done|]. split; [done|].
  intros more sent n Hs Hn.
  destruct (run_reflects more c _ Hwf Hr) as (c' & evs' & Hrun' & _ & Hr').
  unfold reflects in Hr, Hr'. rewrite Hs in Hr. destruct Hr as (Hne & Hdom & _).
  destruct (indexSent c') as [sent'|] eqn:Hs'.
  - exists c', evs', sent'. split; [done|]. split; [done|].
    destruct Hr' as (_ & Hdom' & _). apply Hdom'.
    rewrite concat_app, fmap_app, elem_of_app. left. by apply Hdom.
  - exfalso. apply Hne. by destruct (index_frames acts _).
Qed.

(** C4, as stated, fails when a write fails: [Index] records the entries
    before it writes.  On a new connection whose transport refuses the
    header, nothing is written, the connection closes, and the name is in
    [indexSent]. *)
Lemma failed_frame_is_recorded :
  match Index {| io_header := false; io_body := true; io_flush := true |}
          [file "a" 1] peer0 with
  | Ok (c, evs) =>
      evs = [EvClose "peer"] /\ closed c = true /\
      w_out (mwriter c) = [] /\ w_err (mwriter c) = Some ErrTransport /\
      exists sent, indexSent c = Some sent /\ sent !! "a" = Some 1
  | Failed _ => False
  end.
Proof. vm_compute. repeat split. eexists. split; reflexivity. Qed.

(** * Replies *)

Lemma readerLoop_iter_valid now inp io c u :
  closed c = false -> mreader_err c = None ->
  in_header inp = Some u -> version (decodeHeader u) = 0 ->
  readerLoop_iter now inp io c = dispatch (decodeHeader u) inp io (set_lastReceive now c).
Proof.
  intros Hcl Hr Hu Hv. unfold readerLoop_iter, isClosed, readHeader, m_read.
  rewrite Hcl, Hr, Hu. change (decodeHeader <$> Some u) with (Some (decodeHeader u)).
  cbv beta iota. rewrite Hr, Hv. reflexivity.
Qed.

Lemma readerLoop_iter_reply now inp io c u res :
  wf c -> closed c = false ->
  in_header inp = Some u -> version (decodeHeader u) = 0 ->
  is_reply (decodeHeader u) inp res ->
  readerLoop_iter now inp io c =
  match awaiting_lookup (msgID (decodeHeader u)) c with
  | Some rc => fulfil (msgID (decodeHeader u)) rc res (set_lastReceive now c)
  | None => Ok (set_lastReceive now c, [])
  end.
Proof.
  intros [_ Hh] Hcl Hu Hv Hrep. destruct (Hh Hcl) as [_ Hr].
  rewrite (readerLoop_iter_valid _ _ _ _ _ Hcl Hr Hu Hv).
  unfold dispatch.
  destruct Hrep as [(-> & data & Hd & ->)|(-> & ->)]; simpl.
  - unfold readResponse, m_read. simpl. rewrite Hr, Hd. simpl. by rewrite Hr.
  - reflexivity.
Qed.

(** The reader loop on a reply whose identifier is registered. *)
Lemma reply_fulfils now inp io c u res rc :
  wf c -> closed c = false ->
  in_header inp = Some u -> version (decodeHeader u) = 0 ->
  is_reply (decodeHeader u) inp res ->
  awaiting_lookup (msgID (decodeHeader u)) c = Some rc ->
  exists c',
    readerLoop_iter now inp io c = Ok (c', []) /\
    wf c' /\ closed c' = false /\
    chans c' = <[rc := {| ch_val := Some res; ch_closed := true |}]> (chans c) /\
    chan_recv rc (chans c') = Some (res, true) /\
    awaiting c' = delete (msgID (decodeHeader u)) <$> awaiting c /\
    awaiting_lookup (msgID (decodeHeader u)) c' = None /\
    peerLatency c' = peerLatency c /\ ID c' = ID c.
Proof.
  intros Hwf Hcl Hu Hv Hrep Hlk.
  rewrite (readerLoop_iter_reply _ _ _ _ _ _ Hwf Hcl Hu Hv Hrep), Hlk.
  destruct Hwf as [Ht Hh].
  destruct (fulfil_registered (msgID (decodeHeader u)) rc res (set_lastReceive now c))
    as [-> Ht']; [by apply table_ok_set_lastReceive | done |].
  eexists. split; [reflexivity|]. simpl.
  split; [by split|]. split; [done|]. split; [done|].
  assert (Hlt : (rc < length (chans c))%nat).
  { unfold awaiting_lookup in Hlk. destruct (awaiting c) as [m|] eqn:Hm; [|done].
    destruct Ht as (_ & _ & H3 & _). eapply lookup_lt_Some, H3; eauto. }
  split; [|split; [done|split; [|done]]].
  - unfold chan_recv. by rewrite list_lookup_insert_eq.
  - unfold awaiting_lookup; simpl. destruct (awaiting c); simpl; [|done].
    apply lookup_delete_eq.
Qed.

(** C5, as the code has it.  A Response or Pong frame with a well-formed
    header is matched by its identifier alone.  If a call is registered
    under it, that caller, and no other, receives exactly the payload of the
    frame, and the entry leaves the table: the same frame arriving again
    finds nothing.  If no call is registered under it, nothing is delivered
    and nothing changes but [lastReceive], which every frame with a valid
    header refreshes. *)
Theorem reply_matched_by_msgID (now : Z) (inp : Inbound) (io : IO) (c : Connection)
    (u : Z) (res : asyncResult) :
  wf c -> closed c = false ->
  in_header inp = Some u -> version (decodeHeader u) = 0 ->
  is_reply (decodeHeader u) inp res ->
  (forall rc, awaiting_lookup (msgID (decodeHeader u)) c = Some rc ->
     exists c',
       readerLoop_iter now inp io c = Ok (c', []) /\
       chan_recv rc (chans c') = Some (res, true) /\
       Request_wait rc c' = Some (val res, err res) /\
       (forall t0 t, Ping_wait rc t0 t c' = Some (Since t t0, true)) /\
       (forall rc', rc' <> rc -> chans c' !! rc' = chans c !! rc') /\
       awaiting c' = delete (msgID (decodeHeader u)) <$> awaiting c /\
       awaiting_lookup (msgID (decodeHeader u)) c' = None /\
       (forall now' io',
          readerLoop_iter now' inp io' c' = Ok (set_lastReceive now' c', []))) /\
  (awaiting_lookup (msgID (decodeHeader u)) c = None ->
     readerLoop_iter now inp io c = Ok (set_lastReceive now c, [])).
Proof.
  intros Hwf Hcl Hu Hv Hrep. split.
  - intros rc Hlk.
    destruct (reply_fulfils now inp io c u res rc Hwf Hcl Hu Hv Hrep Hlk)
      as (c' & Hrun & Hwf' & Hcl' & Hch & Hrecv & Haw & Hlk' & _).
    exists c'. split; [done|]. split; [done|].
    unfold Request_wait, Ping_wait. rewrite Hrecv.
    split; [done|]. split; [done|]. split.
    { intros rc' Hne. rewrite Hch. by apply list_lookup_insert_ne. }
    split; [done|]. split; [done|].
    intros now' io'.
    by rewrite (readerLoop_iter_reply _ _ _ _ _ _ Hwf' Hcl' Hu Hv Hrep), Hlk'.
  - intros Hlk.
    by rewrite (readerLoop_iter_reply _ _ _ _ _ _ Hwf Hcl Hu Hv Hrep), Hlk.
Qed.

Lemma reply_matched_by_msgID_witness :
  let c := after [ARequest ioOK block_request] peer0 in
  let inp := response_frame 0 [xaa; xbb] in
  wf c /\ closed c = false /\ awaiting_lookup 0 c = Some 0%nat /\
  exists c',
    readerLoop_iter 9 inp ioOK c = Ok (c', []) /\
    Request_wait 0%nat c' = Some ([xaa; xbb], None) /\
    awaiting_lookup 0 c' = None /\
    readerLoop_iter 10 inp ioOK c' = Ok (set_lastReceive 10 c', []).
Proof.
  intros c inp.
  assert (Hwf : wf c).
  { destruct (run_safe [ARequest ioOK block_request] peer0
                (wf_NewConnection _ _ _)) as (c' & evs & Hrun & Hwf).
    unfold c, after. rewrite Hrun. exact Hwf. }
  assert (Hrep : is_reply (decodeHeader (encodeHeader (mkHeader 0 0 messageTypeResponse)))
                   inp (mkAsyncResult [xaa; xbb] None)).
  { left. split; [reflexivity|]. eexists. split; reflexivity. }
  split; [exact Hwf|]. split; [reflexivity|]. split; [reflexivity|].
  destruct (proj1 (reply_matched_by_msgID 9 inp ioOK c _ _ Hwf eq_refl eq_refl eq_refl Hrep)
              0%nat eq_refl)
    as (c' & H1 & _ & H2 & _ & _ & _ & H3 & H4).
  exists c'. split; [exact H1|]. split; [exact H2|]. split; [exact H3|]. apply H4.
Defined.

(** C5, as stated, fails on "no state change": a Pong for which no call is
    registered is dropped, and the connection is not the one it was,
    [lastReceive] has moved. *)
Lemma dropped_reply_moves_lastReceive :
  awaiting_lookup 7 peer0 = None /\
  lastReceive peer0 = 0 /\
  exists c',
    readerLoop_iter 5 (pong_frame 7) ioOK peer0 = Ok (c', []) /\
    lastReceive c' = 5 /\ c' <> peer0.
Proof.
  split; [reflexivity|]. split; [reflexivity|].
  eexists. split; [vm_compute; reflexivity|]. split; [reflexivity|].
  intros H. apply (f_equal lastReceive) in H. discriminate H.
Qed.

(** * Frames the reader refuses *)

Lemma readerLoop_closed frames c : closed c = true -> readerLoop frames c = Ok (c, []).
Proof.
  intros H. destruct frames as [|[[now inp] io] frames]; simpl; [done|].
  unfold isClosed. by rewrite H.
Qed.

(** C7.  When the reader loop reads a header whose version is not 0, or
    whose type is none of the six known ones, the connection closes and the
    only call to the receiver is [Close]: the events of this turn of the
    loop, and of the whole loop whatever frames follow, are the single
    [Close(ID)]. *)
Theorem bad_header_closes (now : Z) (inp : Inbound) (io : IO) (c : Connection) (u : Z)
    (rest : list (Z * Inbound * IO)) :
  wf c -> closed c = false -> in_header inp = Some u ->
  version (decodeHeader u) <> 0 \/ msgType (decodeHeader u) ∉ known_types ->
  exists c',
    readerLoop_iter now inp io c = Ok (c', [EvClose (ID c)]) /\
    closed c' = true /\
    readerLoop ((now, inp, io) :: rest) c = Ok (c', [EvClose (ID c)]).
Proof.
  intros Hwf Hcl Hu Hbad.
  assert (Hiter : exists c', readerLoop_iter now inp io c = Ok (c', [EvClose (ID c)]) /\
                             closed c' = true).
  { destruct Hwf as [Ht Hh]. destruct (Hh Hcl) as [_ Hr].
    destruct (decide (version (decodeHeader u) = 0)) as [Hv|Hv].
    - destruct Hbad as [Hbad|Hbad]; [done|].
      rewrite (readerLoop_iter_valid _ _ _ _ _ Hcl Hr Hu Hv).
      rewrite dispatch_unknown.
      + destruct (close_open (set_lastReceive now c)) as (chs & -> & _);
          [by apply table_ok_set_lastReceive | done |].
        eexists. split; [reflexivity | done].
      + intros Hty. apply Hbad. unfold known_types, messageTypeIndex, messageTypeRequest,
          messageTypeResponse, messageTypePing, messageTypePong, messageTypeIndexUpdate.
        assert (msgType (decodeHeader u) = 1 \/ msgType (decodeHeader u) = 2 \/
                msgType (decodeHeader u) = 3 \/ msgType (decodeHeader u) = 4 \/
                msgType (decodeHeader u) = 5 \/ msgType (decodeHeader u) = 6)
          as [E|[E|[E|[E|[E|E]]]]] by lia; rewrite E;
          rewrite !elem_of_cons; auto 10.
    - unfold readerLoop_iter, isClosed, readHeader, m_read.
      rewrite Hcl, Hr, Hu. change (decodeHeader <$> Some u) with (Some (decodeHeader u)).
      cbv beta iota. rewrite Hr. cbn [failed].
      apply Z.eqb_neq in Hv. rewrite Hv. cbn [negb].
      destruct (close_open c Ht Hcl) as (chs & -> & _).
      eexists. split; [reflexivity | done]. }
  destruct Hiter as (c' & Hiter & Hcl'). exists c'. split; [done|]. split; [done|].
  cbn [readerLoop]. unfold isClosed. rewrite Hcl, Hiter. simpl.
  rewrite readerLoop_closed by done. simpl. by rewrite ?app_nil_r.
Qed.

Lemma bad_header_closes_witness :
  let u1 := encodeHeader (mkHeader 1 0 messageTypeIndex) in
  let u2 := encodeHeader (mkHeader 0 0 0xff) in
  version (decodeHeader u1) = 1 /\ msgType (decodeHeader u2) = 0xff /\
  (exists c', readerLoop_iter 1 (raw_frame u1) ioOK peer0 = Ok (c', [EvClose "peer"]) /\
              closed c' = true /\
              readerLoop [(1, raw_frame u1, ioOK); (2, raw_frame 0x100, ioOK)] peer0 =
                Ok (c', [EvClose "peer"])) /\
  (exists c', readerLoop_iter 1 (raw_frame u2) ioOK peer0 = Ok (c', [EvClose "peer"]) /\
              closed c' = true /\
              readerLoop [(1, raw_frame u2, ioOK)] peer0 = Ok (c', [EvClose "peer"])).
Proof.
  intros u1 u2.
  assert (H1 : version (decodeHeader u1) <> 0 \/ msgType (decodeHeader u1) ∉ known_types).
  { left. vm_compute. discriminate. }
  assert (H2 : version (decodeHeader u2) <> 0 \/ msgType (decodeHeader u2) ∉ known_types).
  { right. apply (bool_decide_unpack _). vm_compute. exact I. }
  split; [reflexivity|]. split; [reflexivity|]. split.
  - exact (bad_header_closes 1 (raw_frame u1) ioOK peer0 u1 [(2, raw_frame 0x100, ioOK)]
             (wf_NewConnection _ _ _) eq_refl eq_refl H1).
  - exact (bad_header_closes 1 (raw_frame u2) ioOK peer0 u2 []
             (wf_NewConnection _ _ _) eq_refl eq_refl H2).
Defined.

(** * Serving a request *)

(** C8, as the code has it.  The goroutine of [processRequest] drops the
    error of [Receiver.Request] and answers with a Response frame that
    carries the data the receiver returned, whatever the error: the frame is
    the same for every error value, there is nothing else in it, and its
    body is empty when the receiver returns no data with its error. *)
Theorem request_error_is_dropped (id : Z) (req : request) (c : Connection)
    (data : bytes) (e : option error) :
  wf c -> closed c = false ->
  Model_Request (receiver c) (ID c) (name req) (offset req) (size req) (hash req)
    = (data, e) ->
  exists c' word,
    processRequest_go ioOK id req c = Ok (c', [EvRequest (ID c) req]) /\
    closed c' = false /\
    w_out (mwriter c') = w_out (mwriter c) ++ [WUint32 word; WResponse data] /\
    msgType (decodeHeader word) = messageTypeResponse /\
    (data = [] -> w_out (mwriter c') = w_out (mwriter c) ++ [WUint32 word; WResponse []]).
Proof.
  intros [Ht Hh] Hcl Hreq. destruct (Hh Hcl) as [Hw Hr].
  unfold processRequest_go. rewrite Hreq.
  unfold writeResponse, writeUint32.
  rewrite !w_put_healthy by (try rewrite w_put_healthy; done). simpl.
  eexists _, _. split; [reflexivity|]. simpl. split; [done|].
  rewrite <- app_assoc. split; [reflexivity|].
  split; [by apply header_type|]. by intros ->.
Qed.

Lemma request_error_is_dropped_witness :
  let c := NewConnection "peer" empty_on_error 0 in
  wf c /\ closed c = false /\
  exists c' word,
    processRequest_go ioOK 9 block_request c = Ok (c', [EvRequest (ID c) block_request]) /\
    closed c' = false /\
    w_out (mwriter c') = w_out (mwriter c) ++ [WUint32 word; WResponse []] /\
    msgType (decodeHeader word) = messageTypeResponse /\
    (@nil byte = [] -> w_out (mwriter c') = w_out (mwriter c) ++ [WUint32 word; WResponse []]).
Proof.
  intros c. split; [apply wf_NewConnection|]. split; [reflexivity|].
  exact (request_error_is_dropped 9 block_request c [] (Some (ErrModel "no such file"))
           (wf_NewConnection _ _ _) eq_refl eq_refl).
Defined.

(** C8, as stated, fails for a receiver that returns data together with its
    error: the Response carries the data. *)
Lemma error_reply_carries_data :
  let c := NewConnection "peer" data_with_error 0 in
  Model_Request (receiver c) (ID c) "f1" 0 4 [] = ([xaa], Some (ErrModel "short read")) /\
  exists c',
    processRequest_go ioOK 9 block_request c = Ok (c', [EvRequest "peer" block_request]) /\
    w_out (mwriter c') =
      [WUint32 (encodeHeader (mkHeader 0 9 messageTypeResponse)); WResponse [xaa]] /\
    WResponse [xaa] <> WResponse [].
Proof.
  split; [reflexivity|]. eexists. split; [reflexivity|]. split; [reflexivity|].
  discriminate.
Qed.

(** * Keep-alive *)

Lemma Since_small now d : 0 <= d < pingTimeout -> Since (now + d) now = d.
Proof.
  unfold Since, maxInt64, minInt64, pingTimeout, Second.
  change (2 ^ 63) with 9223372036854775808. lia.
Qed.

Lemma pong_frame_header id :
  0 <= id < 4096 ->
  decodeHeader (encodeHeader (mkHeader 0 id messageTypePong)) = mkHeader 0 id messageTypePong.
Proof. intros H. apply decode_encode; unfold messageTypePong; lia. Qed.

(** C9.  The idle threshold is five minutes and the ping timeout thirty
    seconds.  On an open connection that has received nothing for longer
    than the threshold, with no reply being delivered, no codec error
    latched and a transport that takes the writes, a turn of the
    keep-alive loop sends a Ping under the current identifier: whichever way
    the turn ends, the connection has written exactly one more frame, the
    header-only Ping with that identifier, and the identifier has moved on.
    If the Pong is handled within the timeout, the connection stays open,
    the call has left the table and the latency becomes the mean of the old
    one and the round trip; if no Pong comes, or none within the timeout,
    the connection closes and the receiver is told.  A turn entered within
    the threshold sends nothing and changes nothing. *)
Theorem keepalive_ping (now : Z) (c : Connection) :
  wf c -> closed c = false -> Since now (lastReceive c) > pingIdleTime ->
  pingIdleTime = 5 * 60 * 10 ^ 9 /\ pingTimeout = 30 * 10 ^ 9 /\
  (exists c1 rc,
     Ping ioOK now c = Ok (c1, [], PingAwait rc now) /\
     w_out (mwriter c1) =
       w_out (mwriter c) ++ [WUint32 (encodeHeader (mkHeader 0 (nextId c) messageTypePing))]) /\
  (forall d, 0 <= d < pingTimeout ->
     exists c',
       pingerLoop_iter now ioOK (Some d) c = Ok (c', []) /\
       closed c' = false /\
       peerLatency c' = smooth (peerLatency c) d /\
       w_out (mwriter c') =
         w_out (mwriter c) ++
         [WUint32 (encodeHeader (mkHeader 0 (nextId c) messageTypePing))] /\
       nextId c' = (nextId c + 1) mod 4096 /\
       awaiting_lookup (nextId c) c' = None) /\
  (forall pong, pong = None \/ (exists d, pong = Some d /\ pingTimeout <= d) ->
     exists c',
       pingerLoop_iter now ioOK pong c = Ok (c', [EvClose (ID c)]) /\
       closed c' = true /\
       w_out (mwriter c') =
         w_out (mwriter c) ++
         [WUint32 (encodeHeader (mkHeader 0 (nextId c) messageTypePing))] /\
       nextId c' = (nextId c + 1) mod 4096 /\
       awaiting c' = None) /\
  (forall now' io pong, Since now' (lastReceive c) <= pingIdleTime ->
     pingerLoop_iter now' io pong c = Ok (c, [])).
Proof.
  intros Hwf Hcl Hidle.
  split; [reflexivity|]. split; [reflexivity|].
  assert (Hquiet : forall now' io pong, Since now' (lastReceive c) <= pingIdleTime ->
            pingerLoop_iter now' io pong c = Ok (c, [])).
  { intros now' io pong Hle. unfold pingerLoop_iter, isClosed. rewrite Hcl.
    assert (Hng : (Since now' (lastReceive c) >? pingIdleTime) = false)
      by (rewrite Z.gtb_ltb; apply Z.ltb_ge; lia).
    by rewrite Hng. }
  destruct (Ping_sent now c Hwf Hcl)
    as (m & c1 & Hm & HP & Hwf1 & Hcl1 & Hid1 & Haw1 & Hch1 & Hout1 & Hrerr & Hlat1 & HID1).
  assert (Hgt : (Since now (lastReceive c) >? pingIdleTime) = true).
  { apply Z.gtb_lt. lia. }
  assert (Hrange : 0 <= nextId c < 4096) by (by destruct Hwf as [(_ & _ & _ & _ & ?) _]).
  split; [by exists c1, (length (chans c))|]. split; [|split; [|exact Hquiet]].
  - intros d Hd.
    pose (u := encodeHeader (mkHeader 0 (nextId c) messageTypePong)).
    assert (Hdec : decodeHeader u = mkHeader 0 (nextId c) messageTypePong)
      by (by apply pong_frame_header).
    assert (Hrd : readerLoop_iter (now + d) (pong_frame (nextId c)) ioOK c1 =
                  dispatch (decodeHeader u) (pong_frame (nextId c)) ioOK
                    (set_lastReceive (now + d) c1)).
    { destruct Hwf1 as [_ Hh1]. destruct (Hh1 Hcl1) as [_ Hr1].
      apply readerLoop_iter_valid; try done. by rewrite Hdec. }
    destruct (reply_fulfils (now + d) (pong_frame (nextId c)) ioOK c1 u
                (mkAsyncResult [] None) (length (chans c)))
      as (c2 & HR & Hwf2 & Hcl2 & _ & Hrecv & Haw2 & Hlk2 & Hlat2 & _); try done.
    { by rewrite Hdec. }
    { right. by rewrite Hdec. }
    { rewrite Hdec. unfold awaiting_lookup. rewrite Haw1. apply lookup_insert_eq. }
    assert (Hkeep : w_out (mwriter c2) = w_out (mwriter c1) /\ nextId c2 = nextId c1).
    { rewrite Hrd in HR. unfold dispatch in HR. rewrite Hdec in HR.
      cbn [msgType msgID] in HR. unfold messageTypePong in HR.
      destruct (awaiting_lookup (nextId c) (set_lastReceive (now + d) c1)) as [rc|];
        [|by injection HR as <-].
      unfold fulfil in HR.
      destruct (chan_send _ _ _) as [chs|]; simpl in HR; [|done].
      destruct (chan_close _ _) as [chs'|]; simpl in HR; [|done].
      by injection HR as <-. }
    destruct Hkeep as [Hw2 Hn2].
    unfold pingerLoop_iter, pinger_ping, isClosed. rewrite Hcl, Hgt, HP.
    cbn [mbind result_bind].
    assert (Hin : (0 <=? d) && (d <? pingTimeout) = true).
    { apply andb_true_intro. split; [apply Z.leb_le | apply Z.ltb_lt]; lia. }
    rewrite Hin, HR. cbn [mbind result_bind].
    unfold Ping_wait. rewrite Hrecv. cbn [mbind result_bind pingerLoop_select].
    eexists. split; [reflexivity|].
    cbn [closed peerLatency set_peerLatency mwriter nextId].
    split; [done|]. split; [by rewrite Since_small, Hlat2, Hlat1|].
    split; [by rewrite Hw2|]. split; [by rewrite Hn2, Hid1, next_id_mod|].
    rewrite Hdec in Hlk2. exact Hlk2.
  - intros pong Hpong.
    destruct (close_open c1) as (chs & Hclose & _); [apply Hwf1 | done |].
    unfold pingerLoop_iter, pinger_ping, isClosed. rewrite Hcl, Hgt, HP.
    cbn [mbind result_bind].
    destruct Hpong as [->|(d & -> & Hd)].
    + cbn [mbind result_bind pingerLoop_select]. rewrite Hclose.
      cbn [mbind result_bind]. rewrite HID1.
      eexists. split; [reflexivity|]. simpl.
      split; [done|]. split; [done|]. split; [by rewrite Hid1, next_id_mod | done].
    + assert (Hout : (0 <=? d) && (d <? pingTimeout) = false).
      { apply andb_false_intro2. apply Z.ltb_ge. lia. }
      rewrite Hout. cbn [mbind result_bind pingerLoop_select]. rewrite Hclose.
      cbn [mbind result_bind]. rewrite HID1.
      eexists. split; [reflexivity|]. simpl.
      split; [done|]. split; [done|]. split; [by rewrite Hid1, next_id_mod | done].
Qed.

Lemma keepalive_ping_witness :
  let now := 6 * Minute in
  let c := after [ARequest ioOK block_request] peer0 in
  let ping := [WUint32 (encodeHeader (mkHeader 0 1 messageTypePing))] in
  wf c /\ closed c = false /\ Since now (lastReceive c) > pingIdleTime /\
  (exists c',
     pingerLoop_iter now ioOK (Some (50 * 1000000)) c = Ok (c', []) /\
     closed c' = false /\ peerLatency c' = 25 * 1000000 /\
     w_out (mwriter c') = w_out (mwriter c) ++ ping /\
     nextId c' = 2 /\ awaiting_lookup 1 c' = None) /\
  (exists c',
     pingerLoop_iter now ioOK None c = Ok (c', [EvClose "peer"]) /\
     closed c' = true /\
     w_out (mwriter c') = w_out (mwriter c) ++ ping /\
     nextId c' = 2 /\ awaiting c' = None) /\
  pingerLoop_iter (5 * Minute) ioOK None c = Ok (c, []).
Proof.
  intros now c ping.
  assert (Hwf : wf c).
  { destruct (run_safe [ARequest ioOK block_request] peer0 (wf_NewConnection _ _ _))
      as (c' & evs & Hrun & Hwf).
    unfold c, after. rewrite Hrun. exact Hwf. }
  assert (Hidle : Since now (lastReceive c) > pingIdleTime) by reflexivity.
  pose proof (keepalive_ping now c Hwf eq_refl Hidle)
    as (_ & _ & _ & Hpong & Htimeout & Hquiet).
  split; [exact Hwf|]. split; [reflexivity|]. split; [exact Hidle|].
  split; [|split].
  - apply (Hpong (50 * 1000000)). split; [discriminate | reflexivity].
  - apply (Htimeout None). left. reflexivity.
  - apply Hquiet. discriminate.
Defined.

(** * [close] inside an unlocked window *)

(** X1.  [close] is not safe inside the windows the source leaves unlocked.
    On an open connection with a call registered under [id] on channel
    [rc], every channel of the table being open and unused: if [close] runs
    after a [Request] or [Ping] has passed its [isClosed] test and before it
    takes the lock, the registration panics on the nil map; if it runs after
    the reader has looked [rc] up and before it sends, the send panics on
    the closed channel; if it runs between the reader's send and its
    [close(rc)], that [close(rc)] panics; and if it runs between the reader's
    [close(rc)] and its [delete], [close] itself panics, closing [rc] a
    second time. *)
Theorem close_in_a_window_panics (c : Connection) (id : Z) (rc : nat)
    (res : asyncResult) :
  table_ok c -> closed c = false -> awaiting_lookup id c = Some rc ->
  exists c1,
    isClosed c = false /\
    close c = Ok (c1, [EvClose (ID c)]) /\
    (forall io r, Request_critical io r c1 = Failed PanicNilMap) /\
    (forall io now, Ping_critical io now c1 = Failed PanicNilMap) /\
    deliver_send rc res c1 = Failed PanicSendClosed /\
    (exists c2 c3,
       deliver_send rc res c = Ok c2 /\
       close c2 = Ok (c3, [EvClose (ID c)]) /\
       deliver_close rc c3 = Failed PanicCloseClosed) /\
    (exists c2 c3,
       deliver_send rc res c = Ok c2 /\
       deliver_close rc c2 = Ok c3 /\
       close c3 = Failed PanicCloseClosed).
Proof.
  intros Ht Hcl Hlk.
  destruct (close_open c Ht Hcl) as (chs & Hc & _ & Hin & _).
  destruct (deliver_registered id rc res c Ht Hlk) as [Hs Hcc].
  eexists. split; [done|]. split; [exact Hc|].
  split; [intros; by apply Request_critical_nil|].
  split; [intros; by apply Ping_critical_nil|]. split; [|split].
  - unfold deliver_send, chan_send. simpl. rewrite Hin; [done|].
    apply elem_of_awaiting_chans. unfold awaiting_lookup in Hlk.
    destruct (awaiting c) as [m|]; [|done]. eauto.
  - destruct (close_after_send id rc res c Ht Hcl Hlk) as (c3 & H3 & H4).
    eexists _, c3. split; [exact Hs|]. by split.
  - eexists _, _. split; [exact Hs|]. split; [exact Hcc|].
    by apply (close_after_close_chan id).
Qed.

Lemma close_in_a_window_panics_witness :
  let c := after [ARequest ioOK block_request] peer0 in
  let res := mkAsyncResult [x01] None in
  table_ok c /\ closed c = false /\ awaiting_lookup 0 c = Some 0%nat /\
  exists c1,
    isClosed c = false /\
    close c = Ok (c1, [EvClose (ID c)]) /\
    (forall io r, Request_critical io r c1 = Failed PanicNilMap) /\
    (forall io now, Ping_critical io now c1 = Failed PanicNilMap) /\
    deliver_send 0 res c1 = Failed PanicSendClosed /\
    (exists c2 c3,
       deliver_send 0 res c = Ok c2 /\
       close c2 = Ok (c3, [EvClose (ID c)]) /\
       deliver_close 0 c3 = Failed PanicCloseClosed) /\
    (exists c2 c3,
       deliver_send 0 res c = Ok c2 /\
       deliver_close 0 c2 = Ok c3 /\
       close c3 = Failed PanicCloseClosed).
Proof.
  intros c res.
  assert (Ht : table_ok c).
  { destruct (run_safe [ARequest ioOK block_request] peer0 (wf_NewConnection _ _ _))
      as (c' & evs & Hrun & Hwf).
    unfold c, after. rewrite Hrun. apply Hwf. }
  split; [exact Ht|]. split; [reflexivity|]. split; [reflexivity|].
  exact (close_in_a_window_panics c 0 0%nat res Ht eq_refl eq_refl).
Defined.

(** * The receiver is told of the close once *)


Lemma close_calls_singleton e :
  close_calls [e] = (if is_close e then 1 else 0)%nat.
Proof.
  unfold close_calls. rewrite filter_cons, filter_nil.
  destruct (is_close e); [by rewrite decide_True | by rewrite decide_False].
Qed.








(** * Calls and their replies *)

Lemma decodeHeader_range u :
  0 <= version (decodeHeader u) < 16 /\
  0 <= msgID (decodeHeader u) < 4096 /\
  0 <= msgType (decodeHeader u) < 256.
Proof.
  unfold decodeHeader; simpl.
  change 0xf with (Z.ones 4). change 0xfff with (Z.ones 12). change 0xff with (Z.ones 8).
  rewrite !Z.land_ones by lia.
  repeat split; try apply Z.mod_pos_bound; lia.
Qed.

(** Waiting on a channel that is not the one a reply went to. *)
Lemma chan_recv_insert_ne rc rc' st chs :
  rc' <> rc -> chan_recv rc' (<[rc := st]> chs) = chan_recv rc' chs.
Proof. intros H. unfold chan_recv. by rewrite list_lookup_insert_ne. Qed.


(** The reader loop on a Response for a registered identifier. *)
Lemma response_delivers now io c id rc data :
  wf c -> closed c = false -> 0 <= id < 4096 ->
  awaiting_lookup id c = Some rc ->
  exists c',
    readerLoop_iter now (response_frame id data) io c = Ok (c', []) /\
    wf c' /\ closed c' = false /\
    chans c' = <[rc := {| ch_val := Some (mkAsyncResult data None); ch_closed := true |}]>
                 (chans c) /\
    chan_recv rc (chans c') = Some (mkAsyncResult data None, true) /\
    awaiting c' = delete id <$> awaiting c.
Proof.
  intros Hwf Hcl Hid Hlk.
  pose (u := encodeHeader (mkHeader 0 id messageTypeResponse)).
  assert (Hdec : decodeHeader u = mkHeader 0 id messageTypeResponse).
  { apply decode_encode; unfold messageTypeResponse; lia. }
  destruct (reply_fulfils now (response_frame id data) io c u
              (mkAsyncResult data None) rc)
    as (c' & HR & Hwf' & Hcl' & Hch & Hrecv & Haw & _); try done.
  { by rewrite Hdec. }
  { left. rewrite Hdec. split; [done|]. by exists data. }
  { by rewrite Hdec. }
  exists c'. rewrite Hdec in Haw. done.
Qed.

Lemma pong_delivers now io c id rc :
  wf c -> closed c = false -> 0 <= id < 4096 ->
  awaiting_lookup id c = Some rc ->
  exists c',
    readerLoop_iter now (pong_frame id) io c = Ok (c', []) /\
    wf c' /\ closed c' = false /\
    chans c' = <[rc := {| ch_val := Some (mkAsyncResult [] None); ch_closed := true |}]>
                 (chans c) /\
    chan_recv rc (chans c') = Some (mkAsyncResult [] None, true) /\
    awaiting c' = delete id <$> awaiting c.
Proof.
  intros Hwf Hcl Hid Hlk.
  pose (u := encodeHeader (mkHeader 0 id messageTypePong)).
  assert (Hdec : decodeHeader u = mkHeader 0 id messageTypePong)
    by (by apply pong_frame_header).
  destruct (reply_fulfils now (pong_frame id) io c u (mkAsyncResult [] None) rc)
    as (c' & HR & Hwf' & Hcl' & Hch & Hrecv & Haw & _); try done.
  { by rewrite Hdec. }
  { right. by rewrite Hdec. }
  { by rewrite Hdec. }
  exists c'. rewrite Hdec in Haw. done.
Qed.

Lemma wf_nextId_range c : wf c -> 0 <= nextId c < 4096.
Proof. by intros [(_ & _ & _ & _ & ?) _]. Qed.



(** X4.  A [Ping] issued at clock reading [t0] blocks its caller; when the
    reader loop handles the Pong with its identifier at reading [t], the
    caller returns the elapsed time [t - t0] and [ok = true], and the entry
    leaves the table. *)
Theorem ping_returns_on_pong (t0 t : Z) (io : IO) (c : Connection) :
  wf c -> closed c = false ->
  exists c1 rc c2,
    Ping ioOK t0 c = Ok (c1, [], PingAwait rc t0) /\
    Ping_wait rc t0 t c1 = None /\
    readerLoop_iter t (pong_frame (nextId c)) io c1 = Ok (c2, []) /\
    Ping_wait rc t0 t c2 = Some (Since t t0, true) /\
    closed c2 = false /\
    awaiting_lookup (nextId c) c2 = None.
Proof.
  intros Hwf Hcl. pose proof (wf_nextId_range c Hwf) as Hid.
  destruct (Ping_sent t0 c Hwf Hcl)
    as (m & c1 & Hm & HR & Hwf1 & Hcl1 & _ & Haw1 & Hch1 & _).
  destruct (pong_delivers t io c1 (nextId c) (length (chans c)))
    as (c2 & Hrd & _ & Hcl2 & Hch2 & Hrecv & Haw2); try done.
  { unfold awaiting_lookup. rewrite Haw1. apply lookup_insert_eq. }
  exists c1, (length (chans c)), c2. split; [done|]. split.
  { unfold Ping_wait, chan_recv. rewrite Hch1.
    by rewrite lookup_app_r, Nat.sub_diag. }
  split; [done|]. split; [unfold Ping_wait; by rewrite Hrecv|].
  split; [done|].
  unfold awaiting_lookup. rewrite Haw2, Haw1. simpl. apply lookup_delete_eq.
Qed.

Lemma ping_returns_on_pong_witness :
  wf peer0 /\ closed peer0 = false /\
  exists c1 rc c2,
    Ping ioOK 100 peer0 = Ok (c1, [], PingAwait rc 100) /\
    Ping_wait rc 100 150 c1 = None /\
    readerLoop_iter 150 (pong_frame (nextId peer0)) ioOK c1 = Ok (c2, []) /\
    Ping_wait rc 100 150 c2 = Some (Since 150 100, true) /\
    closed c2 = false /\
    awaiting_lookup (nextId peer0) c2 = None.
Proof.
  split; [apply wf_NewConnection|]. split; [reflexivity|].
  exact (ping_returns_on_pong 100 150 ioOK peer0 (wf_NewConnection _ _ _) eq_refl).
Defined.

(** Two registered calls and the Responses to them, in one order. *)
Lemma two_replies t t' io io' c id1 id2 rc1 rc2 d1 d2 :
  wf c -> closed c = false -> 0 <= id1 < 4096 -> 0 <= id2 < 4096 ->
  awaiting_lookup id1 c = Some rc1 -> awaiting_lookup id2 c = Some rc2 -> id1 <> id2 ->
  exists c3 c4,
    readerLoop_iter t (response_frame id1 d1) io c = Ok (c3, []) /\
    Request_wait rc1 c3 = Some (d1, None) /\ Request_wait rc2 c3 = None /\
    readerLoop_iter t' (response_frame id2 d2) io' c3 = Ok (c4, []) /\
    Request_wait rc1 c4 = Some (d1, None) /\ Request_wait rc2 c4 = Some (d2, None).
Proof.
  intros Hwf Hcl Hi1 Hi2 Hl1 Hl2 Hne.
  assert (Hrc : rc1 <> rc2).
  { intros ->. unfold awaiting_lookup in *. destruct (awaiting c) as [m|] eqn:Hm; [|done].
    destruct Hwf as [(_ & _ & _ & Hinj & _) _]. by apply Hne, (Hinj m id1 id2 rc2). }
  assert (Hnew : chan_recv rc2 (chans c) = None).
  { unfold awaiting_lookup in *. destruct (awaiting c) as [m|] eqn:Hm; [|done].
    destruct Hwf as [(_ & _ & H3 & _) _]. unfold chan_recv. by rewrite (H3 m id2 rc2). }
  destruct (response_delivers t io c id1 rc1 d1)
    as (c3 & H3 & Hwf3 & Hcl3 & Hch3 & Hrecv3 & Haw3); try done.
  destruct (response_delivers t' io' c3 id2 rc2 d2)
    as (c4 & H4 & _ & _ & Hch4 & Hrecv4 & _); try done.
  { unfold awaiting_lookup in *. rewrite Haw3. destruct (awaiting c); [|done].
    simpl. by rewrite lookup_delete_ne. }
  exists c3, c4. unfold Request_wait. rewrite Hrecv3, Hrecv4.
  split; [done|]. split; [done|].
  split; [by rewrite Hch3, chan_recv_insert_ne, Hnew|].
  split; [done|]. split; [|done].
  by rewrite Hch4, chan_recv_insert_ne, Hrecv3.
Qed.

(** X5.  Replies are matched by identifier.  When two calls are registered
    under different identifiers, each caller gets the data of the Response
    that carries its own identifier and stays blocked until the reader
    handles that Response, whichever of the two Responses comes first.  The
    connection is open, no reply is being delivered on it and no codec error
    is latched.  (Two calls under one identifier are never both registered:
    the later registration replaces the earlier.) *)
Theorem responses_are_not_crossed (id1 id2 : Z) (rc1 rc2 : nat) (d1 d2 : bytes)
    (t t' : Z) (io io' : IO) (c : Connection) :
  wf c -> closed c = false -> 0 <= id1 < 4096 -> 0 <= id2 < 4096 ->
  awaiting_lookup id1 c = Some rc1 -> awaiting_lookup id2 c = Some rc2 -> id1 <> id2 ->
  rc1 <> rc2 /\ Request_wait rc1 c = None /\ Request_wait rc2 c = None /\
  (exists c3 c4,
     readerLoop_iter t (response_frame id1 d1) io c = Ok (c3, []) /\
     Request_wait rc1 c3 = Some (d1, None) /\ Request_wait rc2 c3 = None /\
     readerLoop_iter t' (response_frame id2 d2) io' c3 = Ok (c4, []) /\
     Request_wait rc1 c4 = Some (d1, None) /\ Request_wait rc2 c4 = Some (d2, None)) /\
  (exists c3 c4,
     readerLoop_iter t (response_frame id2 d2) io c = Ok (c3, []) /\
     Request_wait rc2 c3 = Some (d2, None) /\ Request_wait rc1 c3 = None /\
     readerLoop_iter t' (response_frame id1 d1) io' c3 = Ok (c4, []) /\
     Request_wait rc1 c4 = Some (d1, None) /\ Request_wait rc2 c4 = Some (d2, None)).
Proof.
  intros Hwf Hcl Hi1 Hi2 Hl1 Hl2 Hne.
  assert (Hnew : forall id rc, awaiting_lookup id c = Some rc -> Request_wait rc c = None).
  { intros id rc Hl. unfold awaiting_lookup in Hl.
    destruct (awaiting c) as [m|] eqn:Hm; [|done].
    destruct Hwf as [(_ & _ & H3 & _) _]. unfold Request_wait, chan_recv.
    by rewrite (H3 m id rc). }
  split.
  { intros ->. unfold awaiting_lookup in *. destruct (awaiting c) as [m|] eqn:Hm; [|done].
    destruct Hwf as [(_ & _ & _ & Hinj & _) _]. by apply Hne, (Hinj m id1 id2 rc2). }
  split; [by apply (Hnew id1)|]. split; [by apply (Hnew id2)|]. split.
  - by apply two_replies.
  - destruct (two_replies t t' io io' c id2 id1 rc2 rc1 d2 d1)
      as (c3 & c4 & ? & ? & ? & ? & ? & ?); try done.
    by exists c3, c4.
Qed.

Lemma responses_are_not_crossed_witness :
  let c := after [ARequest ioOK block_request; AIndex ioOK [file "a" 1];
                  ARequest ioOK block_request] peer0 in
  wf c /\ closed c = false /\ 0 <= 0 < 4096 /\ 0 <= 2 < 4096 /\
  awaiting_lookup 0 c = Some 0%nat /\ awaiting_lookup 2 c = Some 1%nat /\ 0 <> 2 /\
  0%nat <> 1%nat /\ Request_wait 0 c = None /\ Request_wait 1 c = None /\
  (exists c3 c4,
     readerLoop_iter 5 (response_frame 0 [x01]) ioOK c = Ok (c3, []) /\
     Request_wait 0 c3 = Some ([x01], None) /\ Request_wait 1 c3 = None /\
     readerLoop_iter 6 (response_frame 2 [x02]) ioOK c3 = Ok (c4, []) /\
     Request_wait 0 c4 = Some ([x01], None) /\ Request_wait 1 c4 = Some ([x02], None)) /\
  (exists c3 c4,
     readerLoop_iter 5 (response_frame 2 [x02]) ioOK c = Ok (c3, []) /\
     Request_wait 1 c3 = Some ([x02], None) /\ Request_wait 0 c3 = None /\
     readerLoop_iter 6 (response_frame 0 [x01]) ioOK c3 = Ok (c4, []) /\
     Request_wait 0 c4 = Some ([x01], None) /\ Request_wait 1 c4 = Some ([x02], None)).
Proof.
  intros c.
  assert (Hwf : wf c).
  { destruct (run_safe [ARequest ioOK block_request; AIndex ioOK [file "a" 1];
                        ARequest ioOK block_request] peer0 (wf_NewConnection _ _ _))
      as (c' & evs & Hrun & Hwf).
    unfold c, after. rewrite Hrun. exact Hwf. }
  assert (H0 : 0 <= 0 < 4096) by lia. assert (H2 : 0 <= 2 < 4096) by lia.
  assert (Hne : 0 <> 2) by lia.
  split; [exact Hwf|]. split; [reflexivity|]. split; [exact H0|]. split; [exact H2|].
  split; [reflexivity|]. split; [reflexivity|]. split; [exact Hne|].
  exact (responses_are_not_crossed 0 2 0%nat 1%nat [x01] [x02] 5 6 ioOK ioOK c
           Hwf eq_refl H0 H2 eq_refl eq_refl Hne).
Defined.

(** * Failed writes *)

Lemma w_put_failed x w : w_err w = None -> w_put false x w = {| w_out := w_out w; w_err := Some ErrTransport |}.
Proof. intros H. unfold w_put. by rewrite H. Qed.

Lemma w_put_latched ok x w e : w_err w = Some e -> w_put ok x w = w.
Proof. intros H. unfold w_put. by rewrite H. Qed.

(** [close] right after a call was registered under the current identifier
    and something was written or not. *)
Lemma close_after_register c m w :
  table_ok c -> closed c = false -> awaiting c = Some m ->
  exists c',
    close (set_mwriter w (set_awaiting (Some (<[nextId c := length (chans c)]> m))
                            (set_chans (chans c ++ [new_chan]) c)))
      = Ok (c', [EvClose (ID c)]) /\
    closed c' = true /\ awaiting c' = None /\ nextId c' = nextId c /\
    indexSent c' = indexSent c /\ w_out (mwriter c') = w_out w /\
    chan_recv (length (chans c)) (chans c') = Some (mkAsyncResult [] None, false) /\
    (forall id rc, id <> nextId c -> m !! id = Some rc ->
       chan_recv rc (chans c') = Some (mkAsyncResult [] None, false)).
Proof.
  intros Ht Hcl Hm.
  destruct (register_fresh c Ht Hcl) as (m' & Hm' & _ & Ht').
  rewrite Hm in Hm'. injection Hm' as <-.
  set (c2 := set_awaiting _ _) in *.
  destruct (close_open (set_mwriter w c2)) as (chs & Hc & _ & Hin & _);
    [by apply table_ok_set_mwriter | done |].
  eexists. split; [exact Hc|]. simpl.
  split; [done|]. split; [done|]. split; [done|]. split; [done|]. split; [done|].
  assert (Hclosed : forall rc, (exists id, <[nextId c := length (chans c)]> m !! id = Some rc) ->
            chan_recv rc chs = Some (mkAsyncResult [] None, false)).
  { intros rc [id Hid]. unfold chan_recv. rewrite Hin; [done|].
    apply elem_of_awaiting_chans. eexists _, id. split; [reflexivity | exact Hid]. }
  split.
  - apply Hclosed. exists (nextId c). apply lookup_insert_eq.
  - intros id rc Hne Hid. apply Hclosed. exists id. by rewrite lookup_insert_ne.
Qed.

(** X6.  When the transport refuses the header, the body or the flush of a
    [Request] on an open connection, the call does not wait: it returns the
    transport's error, the connection is closed and the receiver told once,
    [nextId] is not advanced, and every call registered under another
    identifier is woken with the closed indication. *)
Theorem failed_request_closes (io : IO) (r : request) (c : Connection) :
  wf c -> closed c = false -> io_fails io ->
  exists c',
    Request io r c = Ok (c', [EvClose (ID c)], RequestDone [] (Some ErrTransport)) /\
    closed c' = true /\ awaiting c' = None /\ nextId c' = nextId c /\
    (forall id rc, id <> nextId c -> awaiting_lookup id c = Some rc ->
       Request_wait rc c' = Some ([], Some ErrClosed)).
Proof.
  intros [Ht Hh] Hcl Hio. destruct (Hh Hcl) as [Hw Hr].
  destruct (register_fresh c Ht Hcl) as (m & Hm & Hreg & _).
  unfold Request, isClosed. rewrite Hcl.
  destruct (make_chan c) as [rc c1] eqn:Hmk. simpl in Hreg. rewrite Hreg. simpl.
  injection Hmk as <- <-.
  set (w := writeRequest _ _ _).
  destruct (close_after_register c m w Ht Hcl Hm)
    as (c' & Hc & Hcl' & Haw' & Hid' & _ & _ & _ & Hothers).
  assert (He : w_err w = Some ErrTransport \/ (w_err w = None /\ flush io = Some ErrTransport)).
  { unfold w, writeRequest, writeHeader, writeUint32, flush. simpl.
    destruct io as [[|] [|] [|]]; simpl in *;
      rewrite ?(w_put_healthy _ _ Hw), ?(w_put_failed _ _ Hw); simpl;
      try (left; reflexivity); try (right; split; reflexivity);
      destruct Hio as [?|[?|?]]; done. }
  assert (Hwake : forall id rc, id <> nextId c -> awaiting_lookup id c = Some rc ->
            Request_wait rc c' = Some ([], Some ErrClosed)).
  { intros id rc Hne Hlk. unfold awaiting_lookup in Hlk. rewrite Hm in Hlk.
    unfold Request_wait. by rewrite (Hothers id rc). }
  destruct He as [He|[He Hf]].
  - rewrite He, Hc. simpl. by exists c'.
  - rewrite He, Hf, Hc. simpl. by exists c'.
Qed.

Lemma failed_request_closes_witness :
  let io := {| io_header := true; io_body := true; io_flush := false |} in
  let c := after [APing ioOK 1] peer0 in
  wf c /\ closed c = false /\ io_fails io /\
  exists c',
    Request io block_request c
      = Ok (c', [EvClose (ID c)], RequestDone [] (Some ErrTransport)) /\
    closed c' = true /\ awaiting c' = None /\ nextId c' = nextId c /\
    (forall id rc, id <> nextId c -> awaiting_lookup id c = Some rc ->
       Request_wait rc c' = Some ([], Some ErrClosed)).
Proof.
  intros io c.
  assert (Hwf : wf c).
  { destruct (run_safe [APing ioOK 1] peer0 (wf_NewConnection _ _ _))
      as (c' & evs & Hrun & Hwf).
    unfold c, after. rewrite Hrun. exact Hwf. }
  assert (Hio : io_fails io) by (right; right; reflexivity).
  split; [exact Hwf|]. split; [reflexivity|]. split; [exact Hio|].
  exact (failed_request_closes io block_request c Hwf eq_refl Hio).
Defined.

(** X7.  When the transport refuses the header or the flush of a [Ping] on
    an open connection, [Ping] returns [(0, false)] without waiting, the
    connection is closed and the receiver told once, [nextId] is not
    advanced, and every call registered under another identifier is woken
    with the closed indication. *)
Theorem failed_ping_closes (io : IO) (now : Z) (c : Connection) :
  wf c -> closed c = false -> io_header io = false \/ io_flush io = false ->
  exists c',
    Ping io now c = Ok (c', [EvClose (ID c)], PingDone 0 false) /\
    closed c' = true /\ awaiting c' = None /\ nextId c' = nextId c /\
    (forall id rc, id <> nextId c -> awaiting_lookup id c = Some rc ->
       Request_wait rc c' = Some ([], Some ErrClosed) /\
       forall t0 t, Ping_wait rc t0 t c' = Some (Since t t0, false)).
Proof.
  intros [Ht Hh] Hcl Hio. destruct (Hh Hcl) as [Hw Hr].
  destruct (register_fresh c Ht Hcl) as (m & Hm & Hreg & _).
  unfold Ping, isClosed. rewrite Hcl.
  destruct (make_chan c) as [rc c1] eqn:Hmk. simpl in Hreg. rewrite Hreg. simpl.
  injection Hmk as <- <-.
  set (w := writeHeader _ _ _).
  destruct (close_after_register c m w Ht Hcl Hm)
    as (c' & Hc & Hcl' & Haw' & Hid' & _ & _ & _ & Hothers).
  assert (He : failed (flush io) || failed (w_err w) = true).
  { unfold w, writeHeader, writeUint32, flush. simpl.
    destruct io as [[|] b [|]]; simpl in *;
      rewrite ?(w_put_healthy _ _ Hw), ?(w_put_failed _ _ Hw); simpl; try done;
      destruct Hio as [?|?]; done. }
  rewrite He, Hc. simpl. exists c'. repeat split; try done.
  - unfold awaiting_lookup in *. rewrite Hm in *. unfold Request_wait.
    by rewrite (Hothers id rc).
  - unfold awaiting_lookup in *. rewrite Hm in *. unfold Ping_wait.
    by rewrite (Hothers id rc).
Qed.

Lemma failed_ping_closes_witness :
  let io := {| io_header := false; io_body := true; io_flush := true |} in
  let c := after [ARequest ioOK block_request] peer0 in
  wf c /\ closed c = false /\ (io_header io = false \/ io_flush io = false) /\
  exists c',
    Ping io 5 c = Ok (c', [EvClose (ID c)], PingDone 0 false) /\
    closed c' = true /\ awaiting c' = None /\ nextId c' = nextId c /\
    (forall id rc, id <> nextId c -> awaiting_lookup id c = Some rc ->
       Request_wait rc c' = Some ([], Some ErrClosed) /\
       forall t0 t, Ping_wait rc t0 t c' = Some (Since t t0, false)).
Proof.
  intros io c.
  assert (Hwf : wf c).
  { destruct (run_safe [ARequest ioOK block_request] peer0 (wf_NewConnection _ _ _))
      as (c' & evs & Hrun & Hwf).
    unfold c, after. rewrite Hrun. exact Hwf. }
  assert (Hio : io_header io = false \/ io_flush io = false) by (left; reflexivity).
  split; [exact Hwf|]. split; [reflexivity|]. split; [exact Hio|].
  exact (failed_ping_closes io 5 c Hwf eq_refl Hio).
Defined.

(** * A closed connection *)



(** X9.  [Index] does not look at the closed flag.  On a closed connection
    whose writer has no latched error and whose transport takes the writes
    it still records the entries, writes its frame and advances [nextId];
    the connection stays closed and the receiver is not called. *)
Theorem Index_ignores_closed (idx : list FileInfo) (c : Connection) :
  closed c = true -> w_err (mwriter c) = None ->
  exists c' ty entries sent',
    Index ioOK idx c = Ok (c', []) /\
    closed c' = true /\
    Index_prepare c idx = (ty, entries, sent') /\
    w_out (mwriter c') = w_out (mwriter c) ++ index_frame (nextId c) ty entries /\
    indexSent c' = Some sent' /\
    nextId c' = (nextId c + 1) mod 4096.
Proof.
  intros Hcl Hw. rewrite (Index_sent idx c Hw).
  destruct (Index_prepare c idx) as [[ty entries] sent'] eqn:E.
  eexists _, ty, entries, sent'. split; [reflexivity|]. simpl.
  split; [done|]. split; [done|]. split; [done|]. split; [done|]. apply next_id_mod.
Qed.

Lemma Index_ignores_closed_witness :
  let c := after [AClose] peer0 in
  closed c = true /\ w_err (mwriter c) = None /\
  exists c' ty entries sent',
    Index ioOK [file "a" 1] c = Ok (c', []) /\
    closed c' = true /\
    Index_prepare c [file "a" 1] = (ty, entries, sent') /\
    w_out (mwriter c') = w_out (mwriter c) ++ index_frame (nextId c) ty entries /\
    indexSent c' = Some sent' /\
    nextId c' = (nextId c + 1) mod 4096.
Proof.
  intros c. split; [reflexivity|]. split; [reflexivity|].
  exact (Index_ignores_closed [file "a" 1] c eq_refl eq_refl).
Defined.

(** * What the reader loop does with a frame *)

Lemma set_lastReceive_id c : set_lastReceive (lastReceive c) c = c.
Proof. by destruct c. Qed.

Lemma set_lastReceive_twice t t' c :
  set_lastReceive t (set_lastReceive t' c) = set_lastReceive t c.
Proof. done. Qed.

Lemma index_delivery_Some nodeID inp ev :
  index_delivery nodeID inp = Some ev ->
  exists u files,
    in_header inp = Some u /\ in_index inp = Some files /\
    version (decodeHeader u) = 0 /\
    ((msgType (decodeHeader u) = messageTypeIndex /\ ev = EvIndex nodeID files) \/
     (msgType (decodeHeader u) = messageTypeIndexUpdate /\ ev = EvIndexUpdate nodeID files)).
Proof.
  unfold index_delivery.
  destruct (in_header inp) as [u|]; [|done]. destruct (in_index inp) as [files|]; [|done].
  destruct (version (decodeHeader u) =? 0) eqn:Ev; cbn [negb]; [|done].
  apply Z.eqb_eq in Ev.
  destruct (msgType (decodeHeader u) =? messageTypeIndex) eqn:E1.
  { apply Z.eqb_eq in E1. intros H. injection H as H. subst ev.
    exists u, files. auto 10. }
  destruct (msgType (decodeHeader u) =? messageTypeIndexUpdate) eqn:E2; [|done].
  apply Z.eqb_eq in E2. intros H. injection H as H. subst ev.
  exists u, files. auto 10.
Qed.

Lemma readerLoop_iter_index now inp io c ev :
  wf c -> closed c = false -> index_delivery (ID c) inp = Some ev ->
  readerLoop_iter now inp io c = Ok (set_lastReceive now c, [ev]).
Proof.
  intros [_ Hh] Hcl Hev. destruct (Hh Hcl) as [_ Hr].
  apply index_delivery_Some in Hev as (u & files & Hu & Hf & Hv & Hty).
  rewrite (readerLoop_iter_valid _ _ _ _ _ Hcl Hr Hu Hv). unfold dispatch.
  destruct Hty as [[-> ->]|[-> ->]]; simpl;
    unfold readIndex, m_read; simpl; rewrite Hr, Hf; simpl; by rewrite Hr.
Qed.

(** X10.  Index and IndexUpdate frames reach the receiver in the order the
    reader loop reads them: on an open connection, a run of frames that are
    all readable Index or IndexUpdate frames produces one call per frame, in
    order, with the frame's own entries and the connection's identifier; the
    connection stays open and only [lastReceive] changes. *)
Theorem indexes_delivered_in_order (frames : list (Z * Inbound * IO)) (c : Connection) :
  wf c -> closed c = false ->
  Forall (fun fr => is_Some (index_delivery (ID c) fr.1.2)) frames ->
  exists t,
    readerLoop frames c =
      Ok (set_lastReceive t c, omap (fun fr => index_delivery (ID c) fr.1.2) frames) /\
    length (omap (fun fr => index_delivery (ID c) fr.1.2) frames) = length frames.
Proof.
  revert c. induction frames as [|[[now inp] io] frames IH]; intros c Hwf Hcl Hall.
  - exists (lastReceive c). simpl. by rewrite set_lastReceive_id.
  - apply Forall_cons_1 in Hall as [[ev Hev] Hall]. simpl in Hev.
    cbn [readerLoop]. unfold isClosed. rewrite Hcl.
    rewrite (readerLoop_iter_index _ _ _ _ _ Hwf Hcl Hev). cbn [mbind result_bind].
    destruct (IH (set_lastReceive now c)) as (t & Hrun & Hlen);
      [by destruct Hwf | done | exact Hall |].
    simpl in Hrun. rewrite Hrun. cbn [mbind result_bind]. exists t.
    cbn [omap list_omap]. simpl. rewrite Hev. simpl. split; [done|].
    simpl in Hlen. by rewrite Hlen.
Qed.

Lemma indexes_delivered_in_order_witness :
  let full := {| in_header := Some (encodeHeader (mkHeader 0 0 messageTypeIndex));
                 in_index := Some [file "a" 1; file "b" 2];
                 in_request := None; in_response := None |} in
  let upd := {| in_header := Some (encodeHeader (mkHeader 0 1 messageTypeIndexUpdate));
                in_index := Some [file "b" 3];
                in_request := None; in_response := None |} in
  let frames := [(1, full, ioOK); (2, upd, ioOK)] in
  wf peer0 /\ closed peer0 = false /\
  Forall (fun fr => is_Some (index_delivery (ID peer0) fr.1.2)) frames /\
  exists t,
    readerLoop frames peer0 =
      Ok (set_lastReceive t peer0,
          [EvIndex "peer" [file "a" 1; file "b" 2]; EvIndexUpdate "peer" [file "b" 3]]).
Proof.
  intros full upd frames.
  assert (Hall : Forall (fun fr => is_Some (index_delivery (ID peer0) fr.1.2)) frames).
  { repeat constructor; eexists; reflexivity. }
  split; [apply wf_NewConnection|]. split; [reflexivity|]. split; [exact Hall|].
  destruct (indexes_delivered_in_order frames peer0 (wf_NewConnection _ _ _) eq_refl Hall)
    as (t & H & _).
  exists t. exact H.
Defined.

Lemma m_read_None {A} (zero : A) c :
  mreader_err c = None ->
  m_read zero None c = (zero, set_mreader_err (Some ErrTransport) c).
Proof. intros H. unfold m_read. by rewrite H. Qed.

(** [close] of an open connection whose reader has just latched an error. *)
Lemma close_after_read_error c :
  table_ok c -> closed c = false ->
  exists c',
    close (set_mreader_err (Some ErrTransport) c) = Ok (c', [EvClose (ID c)]) /\
    closed c' = true /\ mreader_err c' = Some ErrTransport /\
    lastReceive c' = lastReceive c /\ awaiting c' = None.
Proof.
  intros Ht Hcl.
  destruct (close_open (set_mreader_err (Some ErrTransport) c)) as (chs & Hc & _);
    [by apply table_ok_set_mreader_err | done |].
  eexists. split; [exact Hc|]. done.
Qed.

(** X11.  A frame the reader cannot decode is never handed to the receiver:
    when the header, or the body that a valid header of type Index,
    IndexUpdate, Request or Response announces, is unreadable, the turn of
    the reader loop closes the connection, latches the reader's error, wakes
    nobody with data and calls nothing but the receiver's [Close]; an
    unreadable header does not refresh [lastReceive]. *)
Theorem undecodable_frame_closes (now : Z) (inp : Inbound) (io : IO) (c : Connection) :
  wf c -> closed c = false -> undecodable inp ->
  exists c',
    readerLoop_iter now inp io c = Ok (c', [EvClose (ID c)]) /\
    closed c' = true /\ awaiting c' = None /\
    mreader_err c' = Some ErrTransport /\
    (in_header inp = None -> lastReceive c' = lastReceive c).
Proof.
  intros [Ht Hh] Hcl Hbad. destruct (Hh Hcl) as [_ Hr].
  destruct Hbad as [Hu|(u & Hu & Hv & Hbody)].
  - unfold readerLoop_iter, isClosed, readHeader. rewrite Hcl, Hu.
    change (decodeHeader <$> None) with (@None header).
    rewrite m_read_None by done. cbn [failed mreader_err set_mreader_err].
    destruct (close_after_read_error c Ht Hcl) as (c' & -> & ? & ? & ? & ?).
    by exists c'.
  - rewrite (readerLoop_iter_valid _ _ _ _ _ Hcl Hr Hu Hv).
    destruct (close_after_read_error (set_lastReceive now c)) as (c' & Hc & ? & ? & ? & ?);
      [by apply table_ok_set_lastReceive | done |].
    assert (Hclosed2 : close c' = Ok (c', [])) by (by apply close_closed).
    exists c'. split; [|split; [done|split; [done|split; [done|]]]].
    + unfold dispatch.
      destruct Hbody as [[-> Hb]|[[-> Hb]|[[-> Hb]|[-> Hb]]]]; simpl.
      * unfold readIndex. rewrite Hb, m_read_None by done. simpl. exact Hc.
      * unfold readIndex. rewrite Hb, m_read_None by done. simpl. exact Hc.
      * unfold processRequest, readRequest. rewrite Hb, m_read_None by done. simpl.
        rewrite Hc. simpl.
        replace (failed (mreader_err c')) with true by (by rewrite H0).
        simpl. rewrite Hclosed2. simpl. done.
      * unfold readResponse. rewrite Hb, m_read_None by done. simpl. exact Hc.
    + intros Hnone. congruence.
Qed.

Lemma undecodable_frame_closes_witness :
  let c := after [ARequest ioOK block_request] peer0 in
  let inp := {| in_header := Some (encodeHeader (mkHeader 0 0 messageTypeResponse));
                in_index := None; in_request := None; in_response := None |} in
  wf c /\ closed c = false /\ undecodable inp /\
  exists c',
    readerLoop_iter 4 inp ioOK c = Ok (c', [EvClose (ID c)]) /\
    closed c' = true /\ awaiting c' = None /\
    mreader_err c' = Some ErrTransport /\
    (in_header inp = None -> lastReceive c' = lastReceive c).
Proof.
  intros c inp.
  assert (Hwf : wf c).
  { destruct (run_safe [ARequest ioOK block_request] peer0 (wf_NewConnection _ _ _))
      as (c' & evs & Hrun & Hwf).
    unfold c, after. rewrite Hrun. exact Hwf. }
  assert (Hbad : undecodable inp).
  { right. eexists. split; [reflexivity|]. split; [reflexivity|].
    right. right. right. split; reflexivity. }
  split; [exact Hwf|]. split; [reflexivity|]. split; [exact Hbad|].
  exact (undecodable_frame_closes 4 inp ioOK c Hwf eq_refl Hbad).
Defined.

Lemma inbound_ping_steps (now : Z) (inp : Inbound) (io : IO) (c : Connection)
    (u : Z) :
  wf c -> closed c = false ->
  in_header inp = Some u -> version (decodeHeader u) = 0 ->
  msgType (decodeHeader u) = messageTypePing ->
  (exists c' word,
     readerLoop_iter now inp ioOK c = Ok (c', []) /\
     w_out (mwriter c') = w_out (mwriter c) ++ [WUint32 word] /\
     decodeHeader word = mkHeader 0 (msgID (decodeHeader u)) messageTypePong /\
     closed c' = false /\ awaiting c' = awaiting c /\ chans c' = chans c /\
     nextId c' = nextId c /\ lastReceive c' = now) /\
  (io_header io = false \/ io_flush io = false ->
   exists c',
     readerLoop_iter now inp io c = Ok (c', [EvClose (ID c)]) /\ closed c' = true).
Proof.
  intros [Ht Hh] Hcl Hu Hv Hty. destruct (Hh Hcl) as [Hw Hr].
  rewrite !(readerLoop_iter_valid _ _ _ _ _ Hcl Hr Hu Hv).
  unfold dispatch. rewrite Hty. simpl. split.
  - unfold writeUint32. rewrite w_put_healthy by done. simpl.
    eexists _, _. split; [reflexivity|]. simpl. split; [reflexivity|].
    split; [|done]. apply decode_encode; [lia | apply decodeHeader_range |].
    unfold messageTypePong. lia.
  - intros Hio. set (w := writeUint32 _ _ _).
    assert (He : failed (flush io) || failed (w_err w) = true).
    { unfold w, writeUint32, flush. simpl.
      destruct io as [[|] b [|]]; simpl in *;
        rewrite ?(w_put_healthy _ _ Hw), ?(w_put_failed _ _ Hw); simpl; try done;
        destruct Hio as [?|?]; done. }
    rewrite He.
    destruct (close_open (set_mwriter w (set_lastReceive now c))) as (chs & -> & _);
      [by apply table_ok_set_mwriter, table_ok_set_lastReceive | done |].
    eexists. split; [reflexivity | done].
Qed.

(** X12.  An inbound Ping is answered on the reader loop itself with one
    header-only Pong frame carrying the identifier of the Ping; no call is
    made to the receiver, the pending-call table and [nextId] are untouched
    and the connection stays open.  If the transport refuses the word or the
    flush, the connection closes instead. *)
Theorem ping_is_answered_with_pong (now : Z) (inp : Inbound) (io : IO) (c : Connection)
    (u : Z) :
  wf c -> closed c = false ->
  in_header inp = Some u -> version (decodeHeader u) = 0 ->
  msgType (decodeHeader u) = messageTypePing ->
  (exists c' word,
     readerLoop_iter now inp ioOK c = Ok (c', []) /\
     w_out (mwriter c') = w_out (mwriter c) ++ [WUint32 word] /\
     decodeHeader word = mkHeader 0 (msgID (decodeHeader u)) messageTypePong /\
     closed c' = false /\ awaiting c' = awaiting c /\ chans c' = chans c /\
     nextId c' = nextId c /\ lastReceive c' = now) /\
  (io_header io = false \/ io_flush io = false ->
   exists c',
     readerLoop_iter now inp io c = Ok (c', [EvClose (ID c)]) /\ closed c' = true).
Proof. apply inbound_ping_steps. Qed.

Lemma ping_is_answered_with_pong_witness :
  let u := encodeHeader (mkHeader 0 77 messageTypePing) in
  wf peer0 /\ closed peer0 = false /\
  version (decodeHeader u) = 0 /\ msgType (decodeHeader u) = messageTypePing /\
  exists c' word,
    readerLoop_iter 8 (ping_frame 77) ioOK peer0 = Ok (c', []) /\
    w_out (mwriter c') = w_out (mwriter peer0) ++ [WUint32 word] /\
    decodeHeader word = mkHeader 0 (msgID (decodeHeader u)) messageTypePong /\
    closed c' = false /\ awaiting c' = awaiting peer0 /\ chans c' = chans peer0 /\
    nextId c' = nextId peer0 /\ lastReceive c' = 8.
Proof.
  intros u. split; [apply wf_NewConnection|]. split; [reflexivity|].
  split; [reflexivity|]. split; [reflexivity|].
  exact (proj1 (ping_is_answered_with_pong 8 (ping_frame 77) ioOK peer0 u
                  (wf_NewConnection _ _ _) eq_refl eq_refl eq_refl eq_refl)).
Defined.

Lemma inbound_request_steps (now : Z) (inp : Inbound) (io : IO)
    (c : Connection) (u : Z) (req : request) :
  wf c -> closed c = false ->
  in_header inp = Some u -> version (decodeHeader u) = 0 ->
  msgType (decodeHeader u) = messageTypeRequest ->
  in_request inp = Some req ->
  readerLoop_iter now inp io c =
    Ok (set_lastReceive now c, [EvGo (msgID (decodeHeader u)) req]) /\
  exists c' word,
    processRequest_go ioOK (msgID (decodeHeader u)) req (set_lastReceive now c)
      = Ok (c', [EvRequest (ID c) req]) /\
    w_out (mwriter c') =
      w_out (mwriter c) ++
      [WUint32 word;
       WResponse (Model_Request (receiver c) (ID c) (name req) (offset req) (size req)
                    (hash req)).1] /\
    decodeHeader word = mkHeader 0 (msgID (decodeHeader u)) messageTypeResponse /\
    closed c' = false /\ nextId c' = nextId c /\ awaiting c' = awaiting c.
Proof.
  intros [Ht Hh] Hcl Hu Hv Hty Hreq. destruct (Hh Hcl) as [Hw Hr]. split.
  - rewrite (readerLoop_iter_valid _ _ _ _ _ Hcl Hr Hu Hv).
    unfold dispatch. rewrite Hty. simpl.
    unfold processRequest, readRequest, m_read. simpl. rewrite Hr, Hreq. simpl.
    rewrite Hr. cbn [failed mbind result_bind mreader_err mwriter set_lastReceive].
    by rewrite Hr, Hw.
  - unfold processRequest_go. simpl.
    destruct (Model_Request _ _ _ _ _ _) as [data e]. simpl.
    unfold writeResponse, writeUint32.
    rewrite !w_put_healthy by (try rewrite w_put_healthy; done). simpl.
    eexists _, _. split; [reflexivity|]. simpl. rewrite <- app_assoc.
    split; [reflexivity|]. split; [|done].
    apply decode_encode; [lia | apply decodeHeader_range |].
    unfold messageTypeResponse. lia.
Qed.

(** X13.  An inbound Request is not served on the reader loop: the turn of
    the loop only starts the goroutine, with the identifier and the request
    of the frame, and makes no call to the receiver.  The goroutine then
    calls [Receiver.Request] with the connection's identifier and the fields
    of the request and, on a transport that takes the writes, answers with
    one Response frame that carries the identifier of the Request and the
    data the receiver returned. *)
Theorem request_is_served_off_the_loop (now : Z) (inp : Inbound) (io : IO)
    (c : Connection) (u : Z) (req : request) :
  wf c -> closed c = false ->
  in_header inp = Some u -> version (decodeHeader u) = 0 ->
  msgType (decodeHeader u) = messageTypeRequest ->
  in_request inp = Some req ->
  readerLoop_iter now inp io c =
    Ok (set_lastReceive now c, [EvGo (msgID (decodeHeader u)) req]) /\
  exists c' word,
    processRequest_go ioOK (msgID (decodeHeader u)) req (set_lastReceive now c)
      = Ok (c', [EvRequest (ID c) req]) /\
    w_out (mwriter c') =
      w_out (mwriter c) ++
      [WUint32 word;
       WResponse (Model_Request (receiver c) (ID c) (name req) (offset req) (size req)
                    (hash req)).1] /\
    decodeHeader word = mkHeader 0 (msgID (decodeHeader u)) messageTypeResponse /\
    closed c' = false /\ nextId c' = nextId c /\ awaiting c' = awaiting c.
Proof. apply inbound_request_steps. Qed.

Lemma request_is_served_off_the_loop_witness :
  let u := encodeHeader (mkHeader 0 9 messageTypeRequest) in
  let inp := {| in_header := Some u; in_index := None;
                in_request := Some block_request; in_response := None |} in
  let c := NewConnection "peer" data_with_error 0 in
  wf c /\ closed c = false /\
  readerLoop_iter 2 inp ioOK c = Ok (set_lastReceive 2 c, [EvGo 9 block_request]) /\
  exists c' word,
    processRequest_go ioOK 9 block_request (set_lastReceive 2 c)
      = Ok (c', [EvRequest "peer" block_request]) /\
    w_out (mwriter c') = [WUint32 word; WResponse [xaa]] /\
    decodeHeader word = mkHeader 0 9 messageTypeResponse.
Proof.
  intros u inp c.
  destruct (request_is_served_off_the_loop 2 inp ioOK c u block_request
              (wf_NewConnection _ _ _) eq_refl eq_refl eq_refl eq_refl eq_refl)
    as (H1 & c' & word & H2 & H3 & H4 & _).
  split; [apply wf_NewConnection|]. split; [reflexivity|]. split; [exact H1|].
  exists c', word. split; [exact H2|]. split; [exact H3 | exact H4].
Defined.

(** * After the close *)





(** * The delta, for every list *)

Lemma index_diff_sublist idx : forall sent, (index_diff sent idx).1 `sublist_of` idx.
Proof.
  induction idx as [|f idx IH]; intros sent; [done|].
  rewrite index_diff_cons. destruct (decide (recorded sent f)).
  - by apply sublist_cons.
  - simpl. by apply sublist_skip.
Qed.

Lemma index_diff_lookup idx : forall sent n,
  (index_diff sent idx).2 !! n =
  match last_modified n idx with
  | Some v => Some v
  | None => sent !! n
  end.
Proof.
  induction idx as [|f idx IH]; intros sent n; [done|].
  rewrite index_diff_cons. simpl.
  destruct (decide (recorded sent f)) as [Hr|Hr]; simpl; rewrite IH;
    destruct (last_modified n idx); try done;
    destruct (decide (Name f = n)) as [<-|Hne]; try done.
  - by rewrite lookup_insert_eq.
  - by rewrite lookup_insert_ne.
Qed.

(** X14.  The entries [Index] hands to the writer are always entries of the
    list it was given, in the order of the list, none twice over: the whole
    list on the first call, a sub-list of it afterwards. *)
Theorem Index_sends_a_sublist (c : Connection) (idx : list FileInfo) :
  (Index_prepare c idx).1.2 `sublist_of` idx /\
  (indexSent c = None -> (Index_prepare c idx).1.2 = idx).
Proof.
  unfold Index_prepare. destruct (indexSent c) as [sent|].
  - split; [|done]. pose proof (index_diff_sublist idx sent) as H.
    by destruct (index_diff sent idx).
  - done.
Qed.

(** X15.  The delta of a later call is empty exactly when every entry of
    the list is already recorded with its modified time. *)
Theorem delta_empty_iff_recorded (sent : gmap string Z) (idx : list FileInfo) :
  (index_diff sent idx).1 = [] <-> Forall (recorded sent) idx.
Proof.
  split; [|intros H; by rewrite index_diff_unchanged].
  revert sent. induction idx as [|f idx IH]; intros sent; [done|].
  rewrite index_diff_cons. destruct (decide (recorded sent f)); [|done].
  intros H. constructor; [done | by apply IH].
Qed.

(** X16.  Sending only the delta loses nothing.  After any call to [Index],
    with any list, [indexSent] is what recording the whole list on top of
    the previous [indexSent] gives, and recording just the entries handed to
    the writer gives the same map: every name of the list is mapped to the
    modified time of its last entry, and every other name is as before. *)
Theorem delta_is_sufficient (c : Connection) (idx : list FileInfo) :
  let sent := default ∅ (indexSent c) in
  (Index_prepare c idx).2 = record_all idx sent /\
  record_all (Index_prepare c idx).1.2 sent = record_all idx sent /\
  (forall n, (Index_prepare c idx).2 !! n =
             match last_modified n idx with
             | Some v => Some v
             | None => sent !! n
             end).
Proof.
  intros sent. unfold sent.
  destruct (indexSent c) as [m|] eqn:Hs; simpl.
  - rewrite (Index_prepare_update _ _ _ Hs). simpl.
    assert (H : (index_diff m idx).2 = record_all idx m).
    { apply map_eq. intros n. by rewrite index_diff_lookup, record_all_lookup. }
    split; [done|]. split; [by rewrite <- index_diff_records|].
    intros n. apply index_diff_lookup.
  - rewrite (Index_prepare_first _ _ Hs). simpl.
    split; [done|]. split; [done|].
    intros n. unfold index_full. fold (record_all idx ∅). apply record_all_lookup.
Qed.

(** * The smoothed latency *)

(** X17.  As long as the sum fits a 64-bit duration, the smoothed latency
    [(peerLatency + lat) / 2] of two non-negative durations lies between the
    smaller and the larger of them. *)
Theorem smooth_between (latency lat : Z) :
  0 <= latency -> 0 <= lat -> latency + lat <= maxInt64 ->
  Z.min latency lat <= smooth latency lat <= Z.max latency lat.
Proof.
  intros H1 H2 H3. unfold smooth, int64, maxInt64 in *.
  change (2 ^ 63) with 9223372036854775808 in *.
  change (2 ^ 64) with 18446744073709551616.
  rewrite Z.mod_small by lia.
  replace (latency + lat + 9223372036854775808 - 9223372036854775808)
    with (latency + lat) by lia.
  rewrite Z.quot_div_nonneg by lia.
  pose proof (Z.div_mod (latency + lat) 2 ltac:(lia)).
  pose proof (Z.mod_pos_bound (latency + lat) 2 ltac:(lia)). lia.
Qed.

Lemma smooth_between_witness :
  0 <= 40 /\ 0 <= 50 /\ 40 + 50 <= maxInt64 /\
  Z.min 40 50 <= smooth 40 50 <= Z.max 40 50.
Proof.
  assert (H1 : 0 <= 40) by lia. assert (H2 : 0 <= 50) by lia.
  assert (H3 : 40 + 50 <= maxInt64) by (unfold maxInt64; lia).
  split; [exact H1|]. split; [exact H2|]. split; [exact H3|].
  exact (smooth_between 40 50 H1 H2 H3).
Defined.

(** * Two peers *)

Lemma written_app c c' items :
  w_out (mwriter c') = w_out (mwriter c) ++ items -> written c c' = items.
Proof. intros H. unfold written. by rewrite H, drop_app_length. Qed.

Lemma header_fields id ty :
  0 <= ty < 256 ->
  version (decodeHeader (encodeHeader (mkHeader 0 id ty))) = 0 /\
  msgType (decodeHeader (encodeHeader (mkHeader 0 id ty))) = ty.
Proof.
  intros H. rewrite decodeHeader_encodeHeader. simpl. split; [done|].
  change 0xff with (Z.ones 8). apply land_ones_small; lia.
Qed.

(** X18.  A request travels to the peer and its answer back.  When [a]
    issues a [Request], the peer [b] reads the frame [a] wrote, serves it
    and writes its answer, and [a] reads that frame, the caller on [a]
    returns the data the receiver of [b] returned for the very name, offset,
    size and hash of the request, with a nil error, whatever error that
    receiver reported. *)
Theorem request_end_to_end (r : request) (t1 t2 : Z) (io1 io2 : IO) (a b : Connection) :
  wf a -> closed a = false -> wf b -> closed b = false ->
  exists a1 rc b2 a2,
    Request ioOK r a = Ok (a1, [], RequestAwait rc) /\
    readerLoop_iter t1 (as_inbound (written a a1)) io1 b
      = Ok (set_lastReceive t1 b, [EvGo (nextId a) r]) /\
    processRequest_go ioOK (nextId a) r (set_lastReceive t1 b)
      = Ok (b2, [EvRequest (ID b) r]) /\
    readerLoop_iter t2 (as_inbound (written b b2)) io2 a1 = Ok (a2, []) /\
    Request_wait rc a2 =
      Some ((Model_Request (receiver b) (ID b) (name r) (offset r) (size r) (hash r)).1,
            None).
Proof.
  intros Hwfa Hcla Hwfb Hclb. pose proof (wf_nextId_range a Hwfa) as Hid.
  destruct (Request_sent r a Hwfa Hcla)
    as (m & a1 & Hm & HR & Hwf1 & Hcl1 & _ & Haw1 & Hch1 & Hout1).
  apply written_app in Hout1.
  set (u := encodeHeader (mkHeader 0 (nextId a) messageTypeRequest)) in *.
  assert (Hdec : decodeHeader u = mkHeader 0 (nextId a) messageTypeRequest).
  { apply decode_encode; unfold messageTypeRequest; lia. }
  destruct (inbound_request_steps t1 (as_inbound (written a a1)) io1 b u r)
    as (Hspawn & b2 & word & Hserve & Hout2 & Hword & _); try done.
  { by rewrite Hout1. } { by rewrite Hdec. } { by rewrite Hdec. } { by rewrite Hout1. }
  rewrite Hdec in *. simpl in Hspawn, Hserve, Hword.
  apply written_app in Hout2.
  set (data := (Model_Request _ _ _ _ _ _).1) in *.
  assert (Hin : as_inbound (written b b2) =
                as_inbound [WUint32 word; WResponse data]) by (by rewrite Hout2).
  assert (Hw : word = encodeHeader (mkHeader 0 (nextId a) messageTypeResponse)).
  { unfold processRequest_go in Hserve.
    destruct (Model_Request _ _ _ _ _ _) as [d e] eqn:E in Hserve.
    destruct Hwfb as [_ Hh]. destruct (Hh Hclb) as [Hwb _].
    unfold writeResponse, writeUint32 in Hserve.
    rewrite !w_put_healthy in Hserve by (try rewrite w_put_healthy; done).
    simpl in Hserve. injection Hserve as <-. simpl in Hout2.
    unfold written in Hout2. simpl in Hout2.
    rewrite <- app_assoc, drop_app_length in Hout2. by injection Hout2 as <-. }
  destruct (response_delivers t2 io2 a1 (nextId a) (length (chans a)) data)
    as (a2 & Hrd & _ & _ & _ & Hrecv & _); try done.
  { unfold awaiting_lookup. rewrite Haw1. apply lookup_insert_eq. }
  exists a1, (length (chans a)), b2, a2.
  split; [done|]. split; [done|]. split; [done|].
  split; [by rewrite Hin, Hw|]. unfold Request_wait. by rewrite Hrecv.
Qed.

Lemma request_end_to_end_witness :
  let a := NewConnection "B" quiet_model 0 in
  let b := NewConnection "A" data_with_error 0 in
  wf a /\ closed a = false /\ wf b /\ closed b = false /\
  exists a1 rc b2 a2,
    Request ioOK block_request a = Ok (a1, [], RequestAwait rc) /\
    readerLoop_iter 1 (as_inbound (written a a1)) ioOK b
      = Ok (set_lastReceive 1 b, [EvGo (nextId a) block_request]) /\
    processRequest_go ioOK (nextId a) block_request (set_lastReceive 1 b)
      = Ok (b2, [EvRequest (ID b) block_request]) /\
    readerLoop_iter 2 (as_inbound (written b b2)) ioOK a1 = Ok (a2, []) /\
    Request_wait rc a2 = Some ([xaa], None).
Proof.
  intros a b.
  split; [apply wf_NewConnection|]. split; [reflexivity|].
  split; [apply wf_NewConnection|]. split; [reflexivity|].
  exact (request_end_to_end block_request 1 2 ioOK ioOK a b
           (wf_NewConnection _ _ _) eq_refl (wf_NewConnection _ _ _) eq_refl).
Defined.

(** X19.  An index travels to the peer.  When [a], whose writer has no
    latched error, calls [Index] and the peer [b] reads the frame [a] wrote,
    the receiver of [b] gets one call: [Index] with the whole list if it is
    the first call on [a], [IndexUpdate] with the delta otherwise, under the
    identifier [b] holds for the connection. *)
Theorem index_end_to_end (idx : list FileInfo) (t : Z) (io : IO) (a b : Connection) :
  w_err (mwriter a) = None -> wf b -> closed b = false ->
  exists a1,
    Index ioOK idx a = Ok (a1, []) /\
    readerLoop_iter t (as_inbound (written a a1)) io b =
      Ok (set_lastReceive t b,
          [match indexSent a with
           | None => EvIndex (ID b) idx
           | Some sent => EvIndexUpdate (ID b) (index_diff sent idx).1
           end]).
Proof.
  intros Hw Hwfb Hclb. rewrite (Index_sent idx a Hw).
  eexists. split; [reflexivity|].
  rewrite (written_app a _ [WUint32 (encodeHeader (mkHeader 0 (nextId a)
                                        (Index_prepare a idx).1.1));
                            WIndex (Index_prepare a idx).1.2]) by done.
  apply readerLoop_iter_index; [done | done |].
  unfold index_delivery. cbn [as_inbound in_header in_index].
  destruct (indexSent a) as [sent|] eqn:Hs.
  - rewrite (Index_prepare_update _ _ _ Hs). cbn [fst snd].
    destruct (header_fields (nextId a) messageTypeIndexUpdate) as [-> ->]; done.
  - rewrite (Index_prepare_first _ _ Hs). cbn [fst snd].
    destruct (header_fields (nextId a) messageTypeIndex) as [-> ->]; done.
Qed.

Lemma index_end_to_end_witness :
  let a := after [AIndex ioOK [file "a" 100; file "b" 200]] (NewConnection "B" quiet_model 0) in
  let b := NewConnection "A" quiet_model 0 in
  let idx := [file "a" 100; file "b" 250; file "c" 300] in
  w_err (mwriter a) = None /\ wf b /\ closed b = false /\
  exists a1,
    Index ioOK idx a = Ok (a1, []) /\
    readerLoop_iter 7 (as_inbound (written a a1)) ioOK b =
      Ok (set_lastReceive 7 b, [EvIndexUpdate "A" [file "b" 250; file "c" 300]]).
Proof.
  intros a b idx.
  split; [reflexivity|]. split; [apply wf_NewConnection|]. split; [reflexivity|].
  exact (index_end_to_end idx 7 ioOK a b eq_refl (wf_NewConnection _ _ _) eq_refl).
Defined.

(** X20.  A ping travels to the peer and the pong back.  When [a] issues a
    [Ping] at clock reading [t0], the peer [b] reads the frame [a] wrote and
    answers it, and [a] reads that answer at reading [t], the caller on [a]
    returns the elapsed time and [ok = true]; on [b] no call reaches the
    receiver. *)
Theorem ping_end_to_end (t0 t1 t : Z) (io : IO) (a b : Connection) :
  wf a -> closed a = false -> wf b -> closed b = false ->
  exists a1 rc b1 a2,
    Ping ioOK t0 a = Ok (a1, [], PingAwait rc t0) /\
    readerLoop_iter t1 (as_inbound (written a a1)) ioOK b = Ok (b1, []) /\
    readerLoop_iter t (as_inbound (written b b1)) io a1 = Ok (a2, []) /\
    Ping_wait rc t0 t a2 = Some (Since t t0, true).
Proof.
  intros Hwfa Hcla Hwfb Hclb. pose proof (wf_nextId_range a Hwfa) as Hid.
  destruct (Ping_sent t0 a Hwfa Hcla)
    as (m & a1 & Hm & HP & Hwf1 & Hcl1 & _ & Haw1 & Hch1 & Hout1 & _).
  apply written_app in Hout1.
  set (u := encodeHeader (mkHeader 0 (nextId a) messageTypePing)) in *.
  assert (Hdec : decodeHeader u = mkHeader 0 (nextId a) messageTypePing).
  { apply decode_encode; unfold messageTypePing; lia. }
  destruct (inbound_ping_steps t1 (as_inbound (written a a1)) ioOK b u)
    as [(b1 & word & Hb1 & Hout2 & Hword & _) _]; try done.
  { by rewrite Hout1. } { by rewrite Hdec. } { by rewrite Hdec. }
  apply written_app in Hout2.
  assert (Hw : word = encodeHeader (mkHeader 0 (nextId a) messageTypePong)).
  { destruct Hwfb as [_ Hh]. destruct (Hh Hclb) as [Hwb Hrb].
    rewrite (readerLoop_iter_valid t1 _ ioOK b u Hclb Hrb) in Hb1;
      [| by rewrite Hout1 | by rewrite Hdec].
    unfold dispatch in Hb1. rewrite Hdec in Hb1. simpl in Hb1.
    unfold writeUint32 in Hb1. rewrite w_put_healthy in Hb1 by done.
    simpl in Hb1. injection Hb1 as <-. unfold written in Hout2. simpl in Hout2.
    rewrite drop_app_length in Hout2. by injection Hout2 as <-. }
  destruct (pong_delivers t io a1 (nextId a) (length (chans a)))
    as (a2 & Hrd & _ & _ & _ & Hrecv & _); try done.
  { unfold awaiting_lookup. rewrite Haw1. apply lookup_insert_eq. }
  exists a1, (length (chans a)), b1, a2.
  split; [done|]. split; [done|].
  split; [by rewrite Hout2, Hw|]. unfold Ping_wait. by rewrite Hrecv.
Qed.

Lemma ping_end_to_end_witness :
  let a := NewConnection "B" quiet_model 0 in
  let b := NewConnection "A" quiet_model 0 in
  wf a /\ closed a = false /\ wf b /\ closed b = false /\
  exists a1 rc b1 a2,
    Ping ioOK 10 a = Ok (a1, [], PingAwait rc 10) /\
    readerLoop_iter 30 (as_inbound (written a a1)) ioOK b = Ok (b1, []) /\
    readerLoop_iter 60 (as_inbound (written b b1)) ioOK a1 = Ok (a2, []) /\
    Ping_wait rc 10 60 a2 = Some (Since 60 10, true).
Proof.
  intros a b.
  split; [apply wf_NewConnection|]. split; [reflexivity|].
  split; [apply wf_NewConnection|]. split; [reflexivity|].
  exact (ping_end_to_end 10 30 60 ioOK a b
           (wf_NewConnection _ _ _) eq_refl (wf_NewConnection _ _ _) eq_refl).
Defined.

(** * Traffic and the keep-alive *)

Lemma close_lastReceive c c' evs : close c = Ok (c', evs) -> lastReceive c' = lastReceive c.
Proof.
  unfold close. destruct (closed c); [by intros [= <- _]|].
  destruct (close_chans _ _); simpl; [|done]. by intros [= <- _].
Qed.

Lemma m_read_lastReceive {A} (zero : A) x c a c' :
  m_read zero x c = (a, c') -> lastReceive c' = lastReceive c.
Proof. intros H. by apply m_read_cases in H as [(_ & _ & ->)|(_ & [->| ->])]. Qed.

Lemma fulfil_lastReceive id rc res c c' evs :
  fulfil id rc res c = Ok (c', evs) -> lastReceive c' = lastReceive c.
Proof.
  unfold fulfil. destruct (chan_send _ _ _) as [chs|]; simpl; [|done].
  destruct (chan_close _ _) as [chs'|]; simpl; [|done]. by intros [= <- _].
Qed.

Lemma dispatch_lastReceive hdr inp io c c' evs :
  dispatch hdr inp io c = Ok (c', evs) -> lastReceive c' = lastReceive c.
Proof.
  assert (Hfiles : forall ev,
    (let '(files, c1) := readIndex inp c in
     if failed (mreader_err c1) then close c1 else Ok (c1, [ev c1 files])) = Ok (c', evs) ->
    lastReceive c' = lastReceive c).
  { intros ev. destruct (readIndex inp c) as [files c1] eqn:R.
    apply m_read_lastReceive in R. destruct (failed _); intros H.
    - apply close_lastReceive in H. congruence.
    - injection H as <- _. done. }
  assert (Hfulfil : forall res c1,
    match awaiting_lookup (msgID hdr) c1 with
    | Some rc => fulfil (msgID hdr) rc res c1
    | None => Ok (c1, [])
    end = Ok (c', evs) -> lastReceive c' = lastReceive c1).
  { intros res c1. destruct (awaiting_lookup _ _); intros H.
    - by apply fulfil_lastReceive in H.
    - by injection H as <- _. }
  destruct (decide (1 <= msgType hdr <= 6)) as [Hty|Hty];
    [|rewrite dispatch_unknown by done; apply close_lastReceive].
  assert (msgType hdr = 1 \/ msgType hdr = 2 \/ msgType hdr = 3 \/ msgType hdr = 4 \/
          msgType hdr = 5 \/ msgType hdr = 6) as [E|[E|[E|[E|[E|E]]]]] by lia;
    unfold dispatch; rewrite E.
  - apply (Hfiles (fun c1 files => EvIndex (ID c1) files)).
  - unfold processRequest. destruct (readRequest inp c) as [req c1] eqn:R.
    apply m_read_lastReceive in R. intros H.
    destruct (failed (mreader_err c1)).
    + destruct (close c1) as [[c2 evs2]|] eqn:E2; simpl in H; [|done].
      apply close_lastReceive in E2. destruct (_ || _).
      * destruct (close c2) as [[c3 evs3]|] eqn:E3; simpl in H; [|done].
        apply close_lastReceive in E3. injection H as <- _. congruence.
      * injection H as <- _. congruence.
    + simpl in H. destruct (_ || _).
      * destruct (close c1) as [[c3 evs3]|] eqn:E3; simpl in H; [|done].
        apply close_lastReceive in E3. injection H as <- _. congruence.
      * injection H as <- _. congruence.
  - destruct (readResponse inp c) as [data c1] eqn:R.
    apply m_read_lastReceive in R. destruct (failed _); intros H.
    + apply close_lastReceive in H. congruence.
    + apply Hfulfil in H. congruence.
  - destruct (_ || _); intros H.
    + by apply close_lastReceive in H.
    + by injection H as <- _.
  - apply Hfulfil.
  - apply (Hfiles (fun c1 files => EvIndexUpdate (ID c1) files)).
Qed.

Lemma Since_le_idle now t : now - t <= pingIdleTime -> (Since now t >? pingIdleTime) = false.
Proof.
  intros H. rewrite Z.gtb_ltb. apply Z.ltb_ge. revert H.
  unfold Since, maxInt64, minInt64, pingIdleTime, Minute, Second.
  change (2 ^ 63) with 9223372036854775808. lia.
Qed.

(** X21.  Any frame with a version-0 header postpones the keep-alive.
    After the reader loop has handled such a frame at clock reading [t],
    whatever its type and body and whether or not anybody waited for it, a
    turn of the pinger loop entered no more than [pingIdleTime] later writes
    nothing, registers nothing and calls nothing: the connection either
    records [t] as the time of the last receive or the frame closed it. *)
Theorem any_frame_postpones_ping (t : Z) (inp : Inbound) (io : IO) (c : Connection)
    (u : Z) :
  wf c -> closed c = false ->
  in_header inp = Some u -> version (decodeHeader u) = 0 ->
  exists c1 evs,
    readerLoop_iter t inp io c = Ok (c1, evs) /\
    lastReceive c1 = t /\
    forall now io' pong, now - t <= pingIdleTime ->
      pingerLoop_iter now io' pong c1 = Ok (c1, []).
Proof.
  intros Hwf Hcl Hu Hv.
  destruct (readerLoop_iter_safe t inp io c Hwf) as (c1 & evs & Hrd & _).
  exists c1, evs. split; [done|].
  assert (Hlr : lastReceive c1 = t).
  { destruct Hwf as [_ Hh]. destruct (Hh Hcl) as [_ Hr].
    rewrite (readerLoop_iter_valid t inp io c u Hcl Hr Hu Hv) in Hrd.
    by apply dispatch_lastReceive in Hrd. }
  split; [done|]. intros now io' pong Hnow.
  unfold pingerLoop_iter, isClosed. destruct (closed c1); [done|].
  by rewrite Hlr, Since_le_idle.
Qed.

Lemma any_frame_postpones_ping_witness :
  let c := after [ARequest ioOK block_request] peer0 in
  let inp := response_frame 9 [x01] in
  wf c /\ closed c = false /\
  in_header inp = Some (encodeHeader (mkHeader 0 9 messageTypeResponse)) /\
  version (decodeHeader (encodeHeader (mkHeader 0 9 messageTypeResponse))) = 0 /\
  exists c1 evs,
    readerLoop_iter 1000 inp ioOK c = Ok (c1, evs) /\
    lastReceive c1 = 1000 /\
    forall now io' pong, now - 1000 <= pingIdleTime ->
      pingerLoop_iter now io' pong c1 = Ok (c1, []).
Proof.
  intros c inp.
  assert (Hwf : wf c).
  { destruct (run_safe [ARequest ioOK block_request] peer0 (wf_NewConnection _ _ _))
      as (c' & evs & Hrun & Hwf).
    unfold c, after. rewrite Hrun. exact Hwf. }
  split; [exact Hwf|]. split; [reflexivity|]. split; [reflexivity|].
  split; [vm_compute; reflexivity|].
  exact (any_frame_postpones_ping 1000 inp ioOK c _ Hwf eq_refl eq_refl
           ltac:(vm_compute; reflexivity)).
Defined.

(** X22.  On an open connection in which no reply is being delivered and
    no codec error is latched, when the transport refuses the header word,
    the body or the flush of the answer to a request, the goroutine that
    serves it closes the connection after the receiver's [Request] was
    called: the receiver sees [Request] and then [Close], and every call
    that is still registered in the pending-call table is woken with the
    closed indication. *)
Theorem failed_answer_closes (io : IO) (id : Z) (req : request) (c : Connection) :
  wf c -> closed c = false -> io_fails io ->
  exists c',
    processRequest_go io id req c = Ok (c', [EvRequest (ID c) req; EvClose (ID c)]) /\
    closed c' = true /\ awaiting c' = None /\
    (forall i rc, awaiting_lookup i c = Some rc ->
       Request_wait rc c' = Some ([], Some ErrClosed)).
Proof.
  intros [Ht Hh] Hcl Hio. destruct (Hh Hcl) as [Hw Hr].
  unfold processRequest_go.
  destruct (Model_Request _ _ _ _ _ _) as [data e].
  set (w := writeResponse _ _ _).
  assert (He : failed (w_err w) || failed (flush io) = true).
  { unfold w, writeResponse, writeUint32, flush.
    destruct io as [[|] [|] [|]]; simpl in *;
      rewrite ?(w_put_healthy _ _ Hw), ?(w_put_failed _ _ Hw); simpl;
      rewrite ?w_put_healthy, ?w_put_failed by done; simpl;
      try done; destruct Hio as [?|[?|?]]; done. }
  rewrite He.
  destruct (close_open (set_mwriter w c)) as (chs & Hc & _ & Hin & _);
    [by apply table_ok_set_mwriter | done |].
  rewrite Hc. simpl. eexists. split; [reflexivity|]. simpl.
  split; [done|]. split; [done|].
  intros i rc Hlk. unfold Request_wait, chan_recv. simpl. rewrite Hin; [done|].
  apply elem_of_awaiting_chans. unfold awaiting_lookup in Hlk.
  destruct (awaiting c) as [m|] eqn:Hm; [|done]. simpl in Hlk.
  exists m, i. by split.
Qed.

Lemma failed_answer_closes_witness :
  let io := {| io_header := true; io_body := false; io_flush := true |} in
  let c := after [ARequest ioOK block_request] (NewConnection "peer" data_with_error 0) in
  wf c /\ closed c = false /\ io_fails io /\
  exists c',
    processRequest_go io 5 block_request c
      = Ok (c', [EvRequest (ID c) block_request; EvClose (ID c)]) /\
    closed c' = true /\ awaiting c' = None /\
    (forall i rc, awaiting_lookup i c = Some rc ->
       Request_wait rc c' = Some ([], Some ErrClosed)).
Proof.
  intros io c.
  assert (Hwf : wf c).
  { destruct (run_safe [ARequest ioOK block_request] (NewConnection "peer" data_with_error 0)
                (wf_NewConnection _ _ _)) as (c' & evs & Hrun & Hwf).
    unfold c, after. rewrite Hrun. exact Hwf. }
  assert (Hio : io_fails io) by (right; left; reflexivity).
  split; [exact Hwf|]. split; [reflexivity|]. split; [exact Hio|].
  exact (failed_answer_closes io 5 block_request c Hwf eq_refl Hio).
Defined.

End protocol.

(** * The integration harness *)

Module integration_properties.
Import integration.

Local Open Scope Z_scope.

(** ** The scan of the log *)

Lemma stop_line_printed s line :
  exists more, printed (stop_line s line) = printed s ++ more.
Proof.
  unfold stop_line. destruct (race s); [by eexists|].
  destruct (Contains _ _); [by eexists|]. exists []. by rewrite app_nil_r.
Qed.

(** Once an error is set, the scan keeps it and what was printed. *)
Lemma scan_keeps_error lines s e :
  err s = Some e ->
  err (fold_left stop_line lines s) = Some e /\
  exists more, printed (fold_left stop_line lines s) = printed s ++ more.
Proof.
  revert s. induction lines as [|line lines IH]; intros s He; simpl.
  - split; [done|]. exists []. by rewrite app_nil_r.
  - destruct (stop_line_printed s line) as [m1 Hm1].
    destruct (IH (stop_line s line)) as [IH1 [m2 IH2]].
    { unfold stop_line. destruct (race s); [done|].
      destruct (Contains _ _); [|done]. simpl. by rewrite He. }
    split; [done|]. exists (m1 ++ m2). by rewrite IH2, Hm1, app_assoc.
Qed.

Lemma scan_no_race lines s :
  race s = false -> ~ has_race lines -> fold_left stop_line lines s = s.
Proof.
  revert s. induction lines as [|line lines IH]; intros s Hr Hno; [done|]. simpl.
  assert (Hl : Contains line raceConditionStart = false).
  { destruct (Contains line raceConditionStart) eqn:E; [|done].
    destruct Hno. by apply Exists_cons_hd. }
  assert (Hs : stop_line s line = s) by (unfold stop_line; by rewrite Hr, Hl).
  rewrite Hs. apply IH; [done|]. intros H. apply Hno. by apply Exists_cons_tl.
Qed.

Lemma scan_race lines s :
  race s = false -> err s = None -> has_race lines ->
  err (fold_left stop_line lines s) = Some (errors_New "Race condition detected") /\
  exists more,
    printed (fold_left stop_line lines s)
      = printed s ++ raceConditionSep :: raceConditionStart :: more.
Proof.
  revert s. induction lines as [|line lines IH]; intros s Hr He Hex.
  { by apply Exists_nil in Hex. }
  simpl. destruct (Contains line raceConditionStart) eqn:Hl.
  - destruct (scan_keeps_error lines (stop_line s line)
                (errors_New "Race condition detected")) as [H1 [more H2]].
    { unfold stop_line. rewrite Hr, Hl. simpl. by rewrite He. }
    split; [done|]. exists more. rewrite H2. unfold stop_line. rewrite Hr, Hl. simpl.
    by rewrite <- app_assoc.
  - assert (Hs : stop_line s line = s) by (unfold stop_line; by rewrite Hr, Hl).
    rewrite Hs. apply IH; [done | done |].
    apply Exists_cons in Hex as [Hex|Hex]; [congruence | done].
Qed.

(** X23.  [stop] reports a data race exactly when the log has one.  When
    the log can be opened, [stop] returns the error "Race condition
    detected" if some line the scanner yields contains "WARNING: DATA RACE",
    and then what it prints starts with the separator and the marker; if no
    line contains the marker it returns nil and prints nothing.  A report
    that is still open, or repeated, changes neither. *)
Theorem stop_reports_race (lines : list string) :
  (has_race lines ->
   (stop None lines).1 = Some (errors_New "Race condition detected") /\
   exists more, (stop None lines).2 = raceConditionSep :: raceConditionStart :: more) /\
  (~ has_race lines -> stop None lines = (None, [])).
Proof.
  unfold stop. split.
  - intros H. by apply (scan_race lines (mkScan false None [])).
  - intros H. by rewrite scan_no_race.
Qed.

(** ** Completion of the peers *)

Lemma check_peers_None entries :
  check_peers entries = None <-> Forall (fun kv => kv.2 = 100) entries.
Proof.
  induction entries as [|[i v] entries IH]; simpl.
  - split; [by constructor | done].
  - rewrite Forall_cons. simpl. destruct (Z.eqb_spec v 100) as [->|Hne].
    + rewrite IH. tauto.
    + split; [done | tauto].
Qed.

Lemma check_peers_Some entries e :
  check_peers entries = Some e ->
  exists i v, e = Errorf_at i v /\ (i, v) ∈ entries /\ v <> 100.
Proof.
  induction entries as [|[i v] entries IH]; simpl; [done|].
  destruct (Z.eqb_spec v 100) as [->|Hne].
  - intros H. destruct (IH H) as (i' & v' & -> & Hin & Hv).
    exists i', v'. split; [done|]. split; [by apply list_elem_of_further | done].
  - intros [= <-]. exists i, v. split; [done|]. split; [apply list_elem_of_here | done].
Qed.

Lemma range_filter range self comp i v :
  iteration_order range ->
  (i, v) ∈ range (filter (fun kv : string * Z => kv.1 <> self) comp) <->
  comp !! i = Some v /\ i <> self.
Proof.
  intros Hrange. rewrite (Hrange _), elem_of_map_to_list.
  by rewrite map_lookup_filter_Some.
Qed.

Lemma allPeersInSync_None range self comp :
  iteration_order range ->
  allPeersInSync range self (inr (comp, None)) = None <-> peers_in_sync self comp.
Proof.
  intros Hrange. unfold allPeersInSync, peerCompletion, peers_in_sync.
  rewrite check_peers_None, Forall_forall. split.
  - intros H i v Hlk Hne. apply (H (i, v)). by apply range_filter.
  - intros H [i v] Hin. apply range_filter in Hin as [Hlk Hne]; [|done]. simpl. eauto.
Qed.

(** X24.  [allPeersInSync] does not depend on the order in which Go
    iterates over the map.  When the completion map arrives without an
    error, the result is nil exactly when every peer of the map other than
    the process itself is at 100; and whatever the order, an error names a
    peer of the map that is not the process itself, with its completion,
    which is not 100. *)
Theorem allPeersInSync_any_order (range : gmap string Z -> list (string * Z))
    (self : string) (comp : gmap string Z) :
  iteration_order range ->
  (allPeersInSync range self (inr (comp, None)) = None <-> peers_in_sync self comp) /\
  (forall e, allPeersInSync range self (inr (comp, None)) = Some e ->
     exists peer val,
       e = Errorf_at peer val /\ comp !! peer = Some val /\ peer <> self /\ val <> 100).
Proof.
  intros Hrange. split; [by apply allPeersInSync_None|].
  intros e H. unfold allPeersInSync, peerCompletion in H.
  apply check_peers_Some in H as (i & v & -> & Hin & Hv).
  apply range_filter in Hin as [Hlk Hne]; [|done]. by exists i, v.
Qed.

Lemma allPeersInSync_any_order_witness :
  let comp : gmap string Z := <["ME" := 40]> (<["P1" := 100]> (<["P2" := 100]> ∅)) in
  iteration_order map_to_list /\
  (allPeersInSync map_to_list "ME" (inr (comp, None)) = None <-> peers_in_sync "ME" comp) /\
  (forall e, allPeersInSync map_to_list "ME" (inr (comp, None)) = Some e ->
     exists peer val,
       e = Errorf_at peer val /\ comp !! peer = Some val /\ peer <> "ME" /\ val <> 100).
Proof.
  intros comp.
  assert (H : iteration_order map_to_list) by (intros m; reflexivity).
  split; [exact H|].
  exact (allPeersInSync_any_order map_to_list "ME" comp H).
Defined.

(** X25.  [allDevicesInSync] returns nil exactly when every process of the
    list answered without an error and sees each of its peers at 100; an
    error it returns is the error of [allPeersInSync] of one of the
    processes, under that process's identifier, and every process before it
    in the list was in sync. *)
Theorem allDevicesInSync_nil_iff (range : gmap string Z -> list (string * Z))
    (p : list syncthingProcess) :
  iteration_order range ->
  (allDevicesInSync range p = None <->
   Forall (fun device => exists comp,
             answer device = inr (comp, None) /\ peers_in_sync (id device) comp) p) /\
  (forall e, allDevicesInSync range p = Some e ->
     exists before device after e',
       p = before ++ device :: after /\
       e = Errorf_device (id device) e' /\
       allPeersInSync range (id device) (answer device) = Some e' /\
       Forall (fun d => allPeersInSync range (id d) (answer d) = None) before).
Proof.
  intros Hrange. split.
  - induction p as [|device p IH]; simpl.
    + split; [by constructor | done].
    + rewrite Forall_cons.
      destruct (allPeersInSync range (id device) (answer device)) as [e|] eqn:E.
      * split; [done|]. intros [(comp & Ha & Hsync) _]. rewrite Ha in E.
        apply (allPeersInSync_None range _ _ Hrange) in Hsync. congruence.
      * rewrite IH. split; [|tauto]. intros H. split; [|done].
        destruct (answer device) as [e0|[comp [e1|]]] eqn:Ha; [done | done |].
        exists comp. split; [done|]. by apply (allPeersInSync_None range _ _ Hrange).
  - induction p as [|device p IH]; simpl; [done|]. intros e.
    destruct (allPeersInSync range (id device) (answer device)) as [e'|] eqn:E.
    + intros [= <-]. exists [], device, p, e'. by repeat split.
    + intros H. destruct (IH e H) as (before & d & after & e' & -> & -> & Hd & Hb).
      exists (device :: before), d, after, e'. repeat split; try done.
      by constructor.
Qed.

Lemma allDevicesInSync_nil_iff_witness :
  let p := [mkProcess "A" (inr (<["A" := 0]> (<["B" := 100]> ∅), None));
            mkProcess "B" (inr (<["A" := 100]> ∅, None))] in
  iteration_order map_to_list /\
  (allDevicesInSync map_to_list p = None <->
   Forall (fun device => exists comp,
             answer device = inr (comp, None) /\ peers_in_sync (id device) comp) p) /\
  (forall e, allDevicesInSync map_to_list p = Some e ->
     exists before device after e',
       p = before ++ device :: after /\
       e = Errorf_device (id device) e' /\
       allPeersInSync map_to_list (id device) (answer device) = Some e' /\
       Forall (fun d => allPeersInSync map_to_list (id d) (answer d) = None) before).
Proof.
  intros p.
  assert (H : iteration_order map_to_list) by (intros m; reflexivity).
  split; [exact H|].
  exact (allDevicesInSync_nil_iff map_to_list p H).
Defined.

End integration_properties.
